(** * k-means clustering engine (OpenMP), shallow embedding

    Source: [parallel-kmeans/omp_new_kmeans.c].  The file holds two
    versions of [omp_kmeans]:

    - the base version ("kmeans_clustering.c (OpenMP version)"), with the
      helper [find_nearest_cluster] and the two reduction disciplines chosen
      by [is_perform_atomic];  it is embedded in [Module Base];
    - the improved version ("omp_new_kmeans.c (Improved OpenMP version)"),
      which always accumulates into the shared arrays; it is embedded in
      [Module Improved].

    C [float] is IEEE-754 binary32, taken from the Standard Library's
    executable specification [SpecFloat] (precision 24, emax 128), which
    has one NaN: the sign and the payload of a NaN are not represented.
    C [int] is [Z] (every counter of the program is bounded by [numObjs] or
    by 501, so no wrap-around arises).  Arrays are lists; a [float **] is a
    list of rows.

    What the program leaves to the OpenMP runtime is a parameter of the
    embedding: the number of threads, the thread that runs each iteration
    of a [schedule(static)] loop, the order in which the [#pragma omp
    atomic] additions of a parallel region land in memory, and the way the
    private copies of [delta] are combined at the end of the region
    ([reduction(+:delta)]).  An iteration reads the centroids, which no
    iteration writes, and writes [membership[i]], its thread's copy of
    [delta], an [int] counter (atomically, or private to its thread) and
    sums that are private to its thread or updated atomically: the [int]
    counters and the data private to a thread are computed in index order,
    which is the order of every thread on its own iterations.  The value
    that the conversion of a [float] to [int] leaves where C does not
    define it is a parameter as well.  The timing code under [_debug] and
    the [printf] of the base version are left out. *)

From Stdlib Require Import ZArith Lia Bool.
From Stdlib Require Import Floats.SpecFloat.
From stdpp Require Import base list.

Local Open Scope Z_scope.

(** ** binary32 arithmetic *)

Definition float := spec_float.

Definition prec : Z := 24.
Definition emax : Z := 128.

Definition fadd : float -> float -> float := SFadd prec emax.
Definition fsub : float -> float -> float := SFsub prec emax.
Definition fmul : float -> float -> float := SFmul prec emax.
Definition fdiv : float -> float -> float := SFdiv prec emax.
Definition flt : float -> float -> bool := SFltb.
Definition fle : float -> float -> bool := SFleb.
Definition feq : float -> float -> bool := SFeqb.

(** The literal [0.0] stored into a [float]. *)
Definition fzero : float := S754_zero false.

(** Conversion [int -> float] (round to nearest even), as in
    [min_dist = INT_MAX], [x / newClusterSize[i]] and [delta /= numObjs]. *)
Definition float_of_int (n : Z) : float := binary_normalize prec emax n 0 false.

Definition INT_MAX : Z := 2147483647.
Definition INT_MIN : Z := -2147483648.

(** [delta += 1.0]: the literal is a [double], so the sum is formed in
    binary64 and rounded back to binary32 by the assignment. *)
Definition double_of_float (x : float) : spec_float :=
  match x with
  | S754_finite s m e => binary_round 53 1024 s m e
  | _ => x
  end.

Definition float_of_double (x : spec_float) : float :=
  match x with
  | S754_finite s m e => binary_round prec emax s m e
  | _ => x
  end.

Definition double_one : spec_float := binary_normalize 53 1024 1 0 false.

Definition add_one (d : float) : float :=
  float_of_double (SFadd 53 1024 (double_of_float d) double_one).

(** [(a - b) * (a - b)] *)
Definition sqdiff (a b : float) : float := fmul (fsub a b) (fsub a b).

Definition is_nan (x : float) : bool :=
  match x with S754_nan => true | _ => false end.

(** ** Arrays *)

Abbreviation vec := (list float).
Abbreviation matrix := (list (list float)).

(** [a[i]] and [m[r][c]]; the program never indexes outside the shapes its
    signature declares, the default is what the embedding returns there. *)
Definition rd (a : vec) (i : nat) : float := nth i a fzero.
Definition rd2 (m : matrix) (r c : nat) : float := nth c (nth r m []) fzero.
Definition rdz (a : list Z) (i : nat) : Z := nth i a 0.

(** [m[r][c] = v] *)
Definition wr2 (m : matrix) (r c : nat) (v : float) : matrix :=
  <[r := <[c := v]> (nth r m [])]> m.

(** [newClusters] is one [calloc] block of [numCoords * numClusters] floats
    behind a table of [numCoords] row pointers, row [r] starting at float
    [r * numClusters] of the block (lines 103-108).  An entry
    [newClusters[r][c]] with [c >= numClusters] is the float [c] places
    after the start of row [r]: entry [c mod numClusters] of the row
    [c / numClusters] further down.  ([r] past the table, or a float past
    the block, is an access that C does not define; the embedding reads
    the default and drops the write there.) *)
Definition rd_block (cols : nat) (m : matrix) (r c : nat) : float :=
  rd2 m (r + c / cols)%nat (c mod cols)%nat.
Definition wr_block (cols : nat) (m : matrix) (r c : nat) (v : float) : matrix :=
  wr2 m (r + c / cols)%nat (c mod cols)%nat v.

(** [a[j][c]] in an [int **] and the shape of a [rows] x [cols] one. *)
Definition rdz2 (a : list (list Z)) (j c : nat) : Z := rdz (nth j a []) c.

Definition local_shaped (rows cols : nat) (a : list (list Z)) : Prop :=
  length a = rows /\ Forall (fun r => length r = cols) a.

(** [calloc]: a zeroed [rows] x [cols] block and a zeroed [int] array. *)
Definition zeros2 (rows cols : nat) : matrix := replicate rows (replicate cols fzero).
Definition zeros (n : nat) : list Z := replicate n 0.

(** Shape of a [rows] x [cols] array. *)
Definition shaped (rows cols : nat) (m : matrix) : Prop :=
  length m = rows /\ Forall (fun r => length r = cols) m.

(** A C [for (i = lo; i < hi; i++) body] over a state. *)
Definition for_loop {S : Type} (lo hi : nat) (body : nat -> S -> S) (s : S) : S :=
  fold_left (fun s i => body i s) (seq lo (hi - lo)) s.

(** Terminal states of the convergence loop: the [do ... while] is left
    either because [delta > threshold] fails or because [loop++ < 500]
    fails. *)
Inductive exit_state := CONVERGED | MAX_ITERATIONS_REACHED.

(** What a caller of [omp_kmeans] receives: the returned [int] and the two
    [out] arrays. *)
Record output := mkOutput {
  ret : Z;
  out_membership : list Z;
  out_clusters : matrix }.

(** ** What the OpenMP runtime decides *)

(** [reduction(+:delta)]: every thread adds to a private copy of [delta]
    that starts at 0.0, and at the end of the region the value [delta] had
    before the region and the copies are combined with [+].  The order and
    the grouping of these additions are the runtime's: a plan is a tree
    with the original value and the copies at its leaves. *)
Inductive reduction_plan :=
| Original
| Copy (t : nat)
| Combine (l r : reduction_plan).

Fixpoint combined (p : reduction_plan) (original : float) (copies : vec)
    : float :=
  match p with
  | Original => original
  | Copy t => rd copies t
  | Combine l r =>
      fadd (combined l original copies) (combined r original copies)
  end.

Fixpoint plan_leaves (p : reduction_plan) : list (option nat) :=
  match p with
  | Original => [None]
  | Copy t => [Some t]
  | Combine l r => plan_leaves l ++ plan_leaves r
  end.

(** A plan for [T] threads combines the original value and the copy of
    every thread, each once. *)
Definition plan_covers (T : nat) (p : reduction_plan) : Prop :=
  Permutation (plan_leaves p) (None :: map Some (seq 0 T)).

(** The atomic additions of a parallel region: [(i, j)] stands for the
    addition of coordinate [j] of object [i] into the shared sums, and a
    landing order lists the additions in the order in which they reach
    memory.  One thread alone performs them in the order of its program,
    object after object and coordinate after coordinate. *)
Definition program_order (N D : nat) : list (nat * nat) :=
  flat_map (fun i => map (fun j => (i, j)) (seq 0 D)) (seq 0 N).


(** The objects whose addition of coordinate [j] lands, in landing order,
    among those that [f] sends to cluster [c]. *)
Definition landed (f : nat -> nat) (landing : list (nat * nat)) (j c : nat)
    : list nat :=
  map fst (List.filter (fun e => (snd e =? j)%nat && (f (fst e) =? c)%nat)
             landing).

(** ** Centroid update, shared by the two versions

    The centroid array and the shared accumulators.  The loop that averages
    the sums (base version lines 262-270, improved version lines 420-427)
    is the same text in both versions and is embedded once. *)

Record accum := mkAccum {
  clusters : matrix;         (* indexed [j][i] by the update loop *)
  newClusters : matrix;      (* [numCoords][numClusters] *)
  newClusterSize : list Z }. (* [numClusters] *)

Definition accum_shaped (D K : nat) (a : accum) : Prop :=
  (shaped D K (clusters a) /\ shaped D K (newClusters a) /\
   length (newClusterSize a) = K)%nat.

Definition update_coord (i j : nat) (a : accum) : accum :=
  let clusters' :=
    if 1 <? rdz (newClusterSize a) i then
      wr2 (clusters a) j i
          (fdiv (rd2 (newClusters a) j i)
                (float_of_int (rdz (newClusterSize a) i)))
    else clusters a in
  mkAccum clusters' (wr2 (newClusters a) j i fzero) (newClusterSize a).

Definition update_cluster (D : nat) (i : nat) (a : accum) : accum :=
  let a := for_loop 0 D (update_coord i) a in
  mkAccum (clusters a) (newClusters a) (<[i := 0]> (newClusterSize a)).

Definition update_centroids (D K : nat) (a : accum) : accum :=
  for_loop 0 K (update_cluster D) a.

Definition set_newClusters (nc : matrix) (a : accum) : accum :=
  mkAccum (clusters a) nc (newClusterSize a).

(** ** The improved version *)

Module Improved.

Record state := mkState {
  membership : list Z;       (* [numObjs] *)
  acc : accum;
  delta : float;
  copies : vec;              (* the threads' private copies of [delta] *)
  loop : Z }.

(** The run as seen from inside: the final state, how the loop was left and
    how many times its body was executed. *)
Record run := mkRun {
  final : state;
  status : exit_state;
  passes : nat }.

Section Engine.

Variable objects : matrix.            (* [numObjs][numCoords] *)
Variables numCoords numObjs numClusters : Z.
Variable threshold : float.
(** The runtime: [omp_get_max_threads()], the thread that the static
    schedule gives iteration [i], and, for the parallel region entered with
    [loop = l], the landing order of its atomic additions and the plan of
    its reduction. *)
Variable nthreads : nat.
Variable tid_of : nat -> nat.
Variable landing : Z -> list (nat * nat).
Variable plan : Z -> reduction_plan.

Local Abbreviation D := (Z.to_nat numCoords).
Local Abbreviation N := (Z.to_nat numObjs).
Local Abbreviation K := (Z.to_nat numClusters).

(** Lines 385-393: [distArray] after the two accumulation loops.  The
    array is allocated without initialisation and every cell is assigned by
    the first loop before it is read. *)
Definition distances (cl : matrix) (i : nat) : vec :=
  let distArray := replicate K fzero in
  let distArray :=
    for_loop 0 K (fun j da =>
      <[j := sqdiff (rd2 objects i 0) (rd2 cl 0 j)]> da) distArray in
  for_loop 1 D (fun k da =>
    for_loop 0 K (fun j da =>
      <[j := fadd (rd da j) (sqdiff (rd2 objects i k) (rd2 cl k j))]> da) da)
    distArray.

(** Lines 381-382 and 395-400: the scan for the minimum. *)
Definition scan_min (distArray : vec) : float * nat :=
  for_loop 0 K (fun j '(min_dist, index) =>
    if flt (rd distArray j) min_dist then (rd distArray j, j)
    else (min_dist, index))
    (float_of_int INT_MAX, 0%nat).

Definition nearest (cl : matrix) (i : nat) : nat :=
  snd (scan_min (distances cl i)).

Definition set_delta (d : float) (st : state) : state :=
  mkState (membership st) (acc st) d (copies st) (loop st).

Definition set_copies (c : vec) (st : state) : state :=
  mkState (membership st) (acc st) (delta st) c (loop st).

Definition set_loop (l : Z) (st : state) : state :=
  mkState (membership st) (acc st) (delta st) (copies st) l.

Definition set_acc (a : accum) (st : state) : state :=
  mkState (membership st) a (delta st) (copies st) (loop st).

(** Lines 377-410: what iteration [i] does apart from the additions into
    [newClusters]: the search, [delta += 1.0] on the copy of its thread,
    [membership[i] = index] and the atomic [newClusterSize[index]++]. *)
Definition assign_object (i : nat) (st : state) : state :=
  let index := nearest (clusters (acc st)) i in
  let tid := tid_of i in
  let copies' :=
    if negb (rdz (membership st) i =? Z.of_nat index)
    then <[tid := add_one (rd (copies st) tid)]> (copies st)
    else copies st in
  let a := acc st in
  mkState (<[i := Z.of_nat index]> (membership st))
          (mkAccum (clusters a) (newClusters a)
             (<[index := rdz (newClusterSize a) index + 1]> (newClusterSize a)))
          (delta st) copies' (loop st).

(** Lines 411-413: the atomic [newClusters[j][index] += objects[i][j]] of
    iteration [i], [index] being the cluster found for [i] among the
    centroids [cl] of the region. *)
Definition land (cl : matrix) (e : nat * nat) (nc : matrix) : matrix :=
  let '(i, j) := e in
  let index := nearest cl i in
  wr2 nc j index (fadd (rd2 nc j index) (rd2 objects i j)).

(** Lines 370-416: the parallel region. *)
Definition assignment_pass (st : state) : state :=
  let cl := clusters (acc st) in
  let st := set_copies (replicate nthreads fzero) st in
  let st := for_loop 0 N assign_object st in
  let st :=
    set_acc (set_newClusters
               (fold_left (fun nc e => land cl e nc) (landing (loop st))
                  (newClusters (acc st)))
               (acc st)) st in
  set_delta (combined (plan (loop st)) (delta st) (copies st)) st.

(** Lines 367-428: one execution of the body of the [do ... while]. *)
Definition iteration (st : state) : state :=
  let st := set_delta fzero st in
  let st := assignment_pass st in
  let st := set_acc (update_centroids D K (acc st)) st in
  set_delta (fdiv (delta st) (float_of_int numObjs)) st.

(** Line 429: [while (delta > threshold && loop++ < 500)]; [loop] is
    incremented only when the first conjunct holds.  [fuel] bounds the
    number of executions of the body. *)
Fixpoint do_while (fuel : nat) (st : state) : option run :=
  match fuel with
  | O => None
  | S fuel =>
      let st := iteration st in
      if flt threshold (delta st) then
        if loop st <? 500 then
          match do_while fuel (set_loop (loop st + 1) st) with
          | Some r => Some (mkRun (final r) (status r) (S (passes r)))
          | None => None
          end
        else Some (mkRun (set_loop (loop st + 1) st) MAX_ITERATIONS_REACHED 1)
      else Some (mkRun st CONVERGED 1)
  end.

(** Lines 344-363: [loop = 0], [membership[i] = -1], zeroed accumulators. *)
Definition initial (cl : matrix) : state :=
  mkState (replicate N (-1)) (mkAccum cl (zeros2 D K) (zeros K)) fzero [] 0.

Definition run_kmeans (cl : matrix) : option run :=
  do_while 501 (initial cl).

(** The improved version reads [objects[i][k]] for [i < numObjs] and
    [k < numCoords], and [objects[i][0]] in any case: every access falls
    inside the arrays of the signature when [objects] has its declared
    shape and there is at least one coordinate. *)
Definition in_bounds : Prop :=
  shaped N D objects /\ 0 < numCoords.

(** At the head of the loop the arrays have their declared shapes and the
    accumulators are zero. *)
Definition clean (st : state) : Prop :=
  accum_shaped D K (acc st) /\
  length (membership st) = N /\
  (forall c, (c < K)%nat -> rdz (newClusterSize (acc st)) c = 0) /\
  (forall j c, (j < D)%nat -> (c < K)%nat ->
     rd2 (newClusters (acc st)) j c = fzero).

(** The states in which the body of the loop can be entered. *)
Inductive loop_head (cl : matrix) : state -> Prop :=
| head_initial : loop_head cl (initial cl)
| head_again st :
    loop_head cl st ->
    loop_head cl (set_loop (loop (iteration st) + 1) (iteration st)).

End Engine.

(** [omp_kmeans]: [is_perform_atomic] is a parameter of the function and is
    not read by its body; line 440 returns the constant 1. *)
Definition omp_kmeans (is_perform_atomic : Z) (objects : matrix)
    (numCoords numObjs numClusters : Z) (threshold : float)
    (nthreads : nat) (tid_of : nat -> nat)
    (landing : Z -> list (nat * nat)) (plan : Z -> reduction_plan)
    (cl : matrix) : option output :=
  match run_kmeans objects numCoords numObjs numClusters threshold
          nthreads tid_of landing plan cl with
  | Some r =>
      Some (mkOutput 1 (membership (final r)) (clusters (acc (final r))))
  | None => None
  end.

End Improved.

(** ** The base version *)

(** [euclid_dist_2], lines 33-44. *)
Definition euclid_dist_2 (numdims : nat) (coord1 coord2 : vec) : float :=
  for_loop 0 numdims (fun i ans =>
    fadd ans (fmul (fsub (rd coord1 i) (rd coord2 i))
                   (fsub (rd coord1 i) (rd coord2 i))))
    fzero.

(** [find_nearest_cluster], lines 48-69; here [clusters] is indexed
    [cluster][coordinate]. *)
Definition find_nearest_cluster (numClusters numCoords : nat) (object : vec)
    (cl : matrix) : nat :=
  snd (for_loop 1 numClusters (fun i '(min_dist, index) =>
         let dist := euclid_dist_2 numCoords object (nth i cl []) in
         if flt dist min_dist then (dist, i) else (min_dist, index))
         (euclid_dist_2 numCoords object (nth 0 cl []), 0%nat)).

(** Truncation toward zero of a zero or of a finite value. *)
Definition truncate (x : float) : Z :=
  match x with
  | S754_finite s m e =>
      let a := match e with
               | Zneg p => Z.shiftr (Zpos m) (Zpos p)
               | _ => Z.shiftl (Zpos m) e
               end in
      if s then - a else a
  | _ => 0
  end.

(** Conversion [float -> int] of lines 165 and 179, [int
    current_object_coord = objects[k][i]]: the truncated value when it is an
    [int].  C does not define the conversion of an infinity, of a NaN or of
    a value whose truncation is not an [int]; what the conversion leaves
    there is [overflow x], a parameter of the embedding (the conversion
    instruction of x86 leaves [INT_MIN]). *)
Definition int_of_float (overflow : float -> Z) (x : float) : Z :=
  match x with
  | S754_zero _ | S754_finite _ _ _ =>
      if (INT_MIN <=? truncate x) && (truncate x <=? INT_MAX)
      then truncate x else overflow x
  | _ => overflow x
  end.

Module Base.

Record state := mkState {
  membership : list Z;                    (* [numObjs] *)
  acc : accum;
  local_newClusterSize : list (list Z);   (* [nthreads][numClusters] *)
  local_newClusters : list matrix;        (* [nthreads][numClusters][numCoords] *)
  delta : float;
  copies : vec;                           (* the threads' private copies of [delta] *)
  loop : Z }.

Record run := mkRun {
  final : state;
  status : exit_state;
  passes : nat }.

Section Engine.

Variable is_perform_atomic : Z.
Variable objects : matrix.
Variables numCoords numObjs numClusters : Z.
Variable threshold : float.
(** The runtime: [omp_get_max_threads()], the thread that the static
    schedule gives iteration [i] ([omp_get_thread_num()] there), and, for
    the parallel region entered with [loop = l], the landing order of its
    atomic additions and the plan of its reduction; and what the
    conversion to [int] leaves where C does not define it. *)
Variable nthreads : nat.
Variable tid_of : nat -> nat.
Variable landing : Z -> list (nat * nat).
Variable plan : Z -> reduction_plan.
Variable overflow : float -> Z.

Local Abbreviation D := (Z.to_nat numCoords).
Local Abbreviation N := (Z.to_nat numObjs).
Local Abbreviation K := (Z.to_nat numClusters).

Definition set_delta (d : float) (st : state) : state :=
  mkState (membership st) (acc st) (local_newClusterSize st)
          (local_newClusters st) d (copies st) (loop st).

Definition set_copies (c : vec) (st : state) : state :=
  mkState (membership st) (acc st) (local_newClusterSize st)
          (local_newClusters st) (delta st) c (loop st).

Definition set_loop (l : Z) (st : state) : state :=
  mkState (membership st) (acc st) (local_newClusterSize st)
          (local_newClusters st) (delta st) (copies st) l.

Definition set_acc (a : accum) (st : state) : state :=
  mkState (membership st) a (local_newClusterSize st) (local_newClusters st)
          (delta st) (copies st) (loop st).

(** Lines 193-199 and 234-238: [delta += 1.0] on the copy of the thread
    that runs iteration [i], and [membership[i] = index]. *)
Definition record_membership (i index : nat) (st : state) : state :=
  let tid := tid_of i in
  mkState (<[i := Z.of_nat index]> (membership st)) (acc st)
          (local_newClusterSize st) (local_newClusters st) (delta st)
          (if negb (rdz (membership st) i =? Z.of_nat index)
           then <[tid := add_one (rd (copies st) tid)]> (copies st)
           else copies st)
          (loop st).

(** End of a parallel region: the reduction of [delta]. *)
Definition combine_delta (st : state) : state :=
  set_delta (combined (plan (loop st)) (delta st) (copies st)) st.

(** *** Atomic discipline, lines 155-215 *)

(** The inner loop over [j] for a fixed [k] (lines 166-173 with [k = 0],
    where [distArray[j]] is assigned, and lines 180-187, where it is added
    to). *)
Definition atomic_row (cl : matrix) (i k : nat)
    (s : vec * (float * nat)) : vec * (float * nat) :=
  let current_object_coord := int_of_float overflow (rd2 objects k i) in
  for_loop 0 K (fun j '(da, (min_dist, index)) =>
    let t := fmul (fsub (float_of_int current_object_coord) (rd2 cl k j))
                  (fsub (float_of_int current_object_coord) (rd2 cl k j)) in
    let da := <[j := if (k =? 0)%nat then t else fadd (rd da j) t]> da in
    if (Z.of_nat k =? numCoords - 1) && flt (rd da j) min_dist
    then (da, (rd da j, j)) else (da, (min_dist, index))) s.

Definition atomic_nearest (cl : matrix) (i : nat) : nat :=
  let s := (replicate K fzero, (float_of_int INT_MAX, 0%nat)) in
  let s := atomic_row cl i 0 s in
  let s := for_loop 1 D (atomic_row cl i) s in
  snd (snd s).

(** Lines 155-207: what iteration [i] does apart from the additions into
    [newClusters]. *)
Definition atomic_object (i : nat) (st : state) : state :=
  let index := atomic_nearest (clusters (acc st)) i in
  let st := record_membership i index st in
  let a := acc st in
  set_acc
    (mkAccum (clusters a) (newClusters a)
       (<[index := rdz (newClusterSize a) index + 1]> (newClusterSize a)))
    st.

(** Lines 210-212: the atomic [newClusters[j][index] += objects[j][i]] of
    iteration [i]. *)
Definition atomic_land (cl : matrix) (e : nat * nat) (nc : matrix) : matrix :=
  let '(i, j) := e in
  let index := atomic_nearest cl i in
  wr2 nc j index (fadd (rd2 nc j index) (rd2 objects j i)).

(** *** Thread-local discipline, lines 229-258 *)

Definition local_object (i : nat) (st : state) : state :=
  let tid := tid_of i in
  let index :=
    find_nearest_cluster K D (nth i objects []) (clusters (acc st)) in
  let st := record_membership i index st in
  let sizes := nth tid (local_newClusterSize st) [] in
  let lsize' :=
    <[tid := <[index := rdz sizes index + 1]> sizes]>
      (local_newClusterSize st) in
  let lsum' :=
    <[tid := for_loop 0 D (fun j lc =>
               wr2 lc index j (fadd (rd2 lc index j) (rd2 objects i j)))
               (nth tid (local_newClusters st) [])]>
      (local_newClusters st) in
  mkState (membership st) (acc st) lsize' lsum' (delta st) (copies st)
          (loop st).

(** Lines 249-258: the main thread's array reduction.  [newClusters[i][k]]
    is indexed here by cluster and coordinate, in a block whose rows have
    [numClusters] floats. *)
Definition reduce_thread (i j : nat) (st : state) : state :=
  let a := acc st in
  let sizes := nth j (local_newClusterSize st) [] in
  let size' :=
    <[i := rdz (newClusterSize a) i + rdz sizes i]> (newClusterSize a) in
  let lsize' := <[j := <[i := 0]> sizes]> (local_newClusterSize st) in
  let '(nc', lc') :=
    for_loop 0 D (fun k '(nc, lc) =>
      (wr_block K nc i k (fadd (rd_block K nc i k) (rd2 lc i k)),
       wr2 lc i k fzero))
      (newClusters a, nth j (local_newClusters st) []) in
  mkState (membership st) (mkAccum (clusters a) nc' size') lsize'
          (<[j := lc']> (local_newClusters st)) (delta st) (copies st)
          (loop st).

Definition reduction (st : state) : state :=
  for_loop 0 K (fun i st => for_loop 0 nthreads (reduce_thread i) st) st.

(** Lines 144-259: the parallel region and, under the thread-local
    discipline, the reduction that follows it. *)
Definition assignment_pass (st : state) : state :=
  let cl := clusters (acc st) in
  let st := set_copies (replicate nthreads fzero) st in
  if negb (is_perform_atomic =? 0) then
    let st := for_loop 0 N atomic_object st in
    let st :=
      set_acc (set_newClusters
                 (fold_left (fun nc e => atomic_land cl e nc)
                    (landing (loop st)) (newClusters (acc st)))
                 (acc st)) st in
    combine_delta st
  else
    reduction (combine_delta (for_loop 0 N local_object st)).

(** Lines 142-273: one execution of the body of the [do ... while]. *)
Definition iteration (st : state) : state :=
  let st := set_delta fzero st in
  let st := assignment_pass st in
  let st := set_acc (update_centroids D K (acc st)) st in
  set_delta (fdiv (delta st) (float_of_int numObjs)) st.

(** Line 274. *)
Fixpoint do_while (fuel : nat) (st : state) : option run :=
  match fuel with
  | O => None
  | S fuel =>
      let st := iteration st in
      if flt threshold (delta st) then
        if loop st <? 500 then
          match do_while fuel (set_loop (loop st + 1) st) with
          | Some r => Some (mkRun (final r) (status r) (S (passes r)))
          | None => None
          end
        else Some (mkRun (set_loop (loop st + 1) st) MAX_ITERATIONS_REACHED 1)
      else Some (mkRun st CONVERGED 1)
  end.

(** Lines 94-138; the per-thread arrays are allocated under the
    thread-local discipline only, and only used there. *)
Definition initial (cl : matrix) : state :=
  mkState (replicate N (-1)) (mkAccum cl (zeros2 D K) (zeros K))
          (replicate nthreads (zeros K))
          (replicate nthreads (zeros2 K D)) fzero [] 0.

Definition run_kmeans (cl : matrix) : option run :=
  do_while 501 (initial cl).

(** Line 295 returns the constant 1. *)
Definition omp_kmeans (cl : matrix) : option output :=
  match run_kmeans cl with
  | Some r =>
      Some (mkOutput 1 (membership (final r)) (clusters (acc (final r))))
  | None => None
  end.

(** The states in which the body of the loop can be entered. *)
Inductive loop_head (cl : matrix) : state -> Prop :=
| head_initial : loop_head cl (initial cl)
| head_again st :
    loop_head cl st ->
    loop_head cl (set_loop (loop (iteration st) + 1) (iteration st)).

(** The base version indexes [newClusters] by [cluster][coordinate] in the
    reduction and by [coordinate][cluster] in the update, [clusters] by
    [cluster][coordinate] in [find_nearest_cluster], and, under the atomic
    discipline, [objects] by [coordinate][object].  For these sizes every
    access falls inside the arrays of the signature. *)
Definition in_bounds : Prop :=
  shaped N D objects /\
  numCoords = numClusters /\
  (is_perform_atomic <> 0 -> numObjs = numCoords).

(** At the head of the loop the integer arrays have their declared shapes
    and the counters, shared and per thread, are zero. *)
Definition clean (st : state) : Prop :=
  accum_shaped D K (acc st) /\
  length (membership st) = N /\
  (forall c, (c < K)%nat -> rdz (newClusterSize (acc st)) c = 0) /\
  local_shaped nthreads K (local_newClusterSize st) /\
  (forall j c, (j < nthreads)%nat -> (c < K)%nat ->
     rdz2 (local_newClusterSize st) j c = 0).

End Engine.

End Base.
(** ** Vocabulary of the statements *)

(** The objects [i < n] that an assignment [f] sends to cluster [c], in
    index order. *)
Definition members (f : nat -> nat) (n c : nat) : list nat :=
  List.filter (fun i => (f i =? c)%nat) (seq 0 n).

(** The objects [i < n] whose entry of the membership array is [c]. *)
Definition assigned (m : list Z) (n c : nat) : list nat :=
  List.filter (fun i => rdz m i =? Z.of_nat c) (seq 0 n).

(** The objects [i < n] whose entry in [old] differs from the cluster [f]
    sends them to. *)
Definition changed (old : list Z) (f : nat -> nat) (n : nat) : list nat :=
  List.filter (fun i => negb (rdz old i =? Z.of_nat (f i))) (seq 0 n).

(** Sum of coordinate [j] of the listed objects, added one after the other
    to [x0] in binary32. *)
Definition coord_sum (objects : matrix) (j : nat) (l : list nat) (x0 : float)
    : float :=
  fold_left (fun x i => fadd x (rd2 objects i j)) l x0.

Definition Zsum (l : list Z) : Z := fold_right Z.add 0 l.

(** [Σ_d (p[d] - c[d])²] between object [i] and cluster [c], the terms
    added in binary32 in the order of the coordinates ([cl] indexed
    [coordinate][cluster]). *)
Definition dist2 (objects cl : matrix) (D i c : nat) : float :=
  for_loop 1 D (fun k d => fadd d (sqdiff (rd2 objects i k) (rd2 cl k c)))
    (sqdiff (rd2 objects i 0) (rd2 cl 0 c)).

(** [index] is a nearest cluster for the distances [dist] to the [K]
    clusters: no cluster is strictly closer, and no cluster of lower index
    is at the same distance. *)
Definition is_nearest (dist : nat -> float) (K index : nat) : Prop :=
  (index < K)%nat /\
  (forall c, (c < K)%nat -> flt (dist c) (dist index) = false) /\
  (forall c, (c < index)%nat -> feq (dist c) (dist index) = false).

(** ** Inputs used in the examples *)

Definition half : float := fdiv (float_of_int 1) (float_of_int 2).
Definition one_thousandth : float := fdiv (float_of_int 1) (float_of_int 1000).

(** Two objects at (0.5, 0.5), centroids (0, 0.5) and (0.5, 0.5); both
    arrays are symmetric, so that they read the same under either index
    order. *)
Definition sq_objects : matrix := [[half; half]; [half; half]].
Definition sq_clusters : matrix := [[fzero; half]; [half; half]].

(** Two objects (0.25, 0.5) and (0.5, 0.75), the centroids starting at the
    two objects; both arrays are symmetric. *)
Definition quarter : float := fdiv (float_of_int 1) (float_of_int 4).
Definition three_quarters : float := fdiv (float_of_int 3) (float_of_int 4).
Definition sym_objects : matrix := [[quarter; half]; [half; three_quarters]].
Definition sym_clusters : matrix := sym_objects.

(** One coordinate, the objects 0, 200000 and 140000, the centroids at the
    first two objects. *)
Definition far_objects : matrix :=
  [[float_of_int 0]; [float_of_int 200000]; [float_of_int 140000]].
Definition far_clusters : matrix := [[float_of_int 0; float_of_int 200000]].

(** One coordinate, the four objects 2^23 + 1, 2^23, 2^23 + 2, 2^23 + 3
    (consecutive binary32 values), the centroids starting at the first two
    objects. *)
Definition cyc_objects : matrix :=
  [[float_of_int 8388609]; [float_of_int 8388608];
   [float_of_int 8388610]; [float_of_int 8388611]].
Definition cyc_clusters : matrix :=
  [[float_of_int 8388609; float_of_int 8388608]].

(** One coordinate, the objects 0 and 1, each its own centroid. *)
Definition pair_objects : matrix := [[float_of_int 0]; [float_of_int 1]].
Definition pair_clusters : matrix := [[float_of_int 0; float_of_int 1]].

(** The scenario of the specification: six objects in the plane, three
    near (0,0) and three near (10,10); the centroids start at the first two
    objects. *)
Definition two_groups : matrix :=
  map (map float_of_int)
      [[0; 0]; [1; 0]; [0; 1]; [10; 10]; [11; 10]; [10; 11]]%Z.
Definition two_groups_clusters : matrix :=
  map (map float_of_int) [[0; 1]; [0; 0]]%Z.

(** ** Vocabulary of the further statements *)

(** A value that is not below zero: a NaN (the embedding does not carry
    the sign of a NaN), or a zero, a finite value or an infinity whose sign
    bit is clear. *)
Definition not_negative (x : float) : bool :=
  match x with
  | S754_nan => true
  | S754_zero s | S754_infinity s | S754_finite s _ _ => negb s
  end.

(** A zero or a finite value: neither an infinity nor a NaN. *)
Definition is_number (x : float) : bool :=
  match x with
  | S754_zero _ | S754_finite _ _ _ => true
  | _ => false
  end.

(** Column [c] of an array, and its first [K] columns as rows: the centroid
    array of the improved version, indexed [coordinate][cluster], read as
    [find_nearest_cluster] indexes it, [cluster][coordinate]. *)
Definition column (m : matrix) (c : nat) : vec := map (fun row => rd row c) m.
Definition columns (m : matrix) (K : nat) : matrix := map (column m) (seq 0 K).

(** Sum over the threads of the counters they hold for cluster [c]. *)
Definition colsum (a : list (list Z)) (c : nat) : Z :=
  Zsum (map (fun row => rdz row c) a).

(** Inputs of further examples: one object and two centroids, indexed
    [cluster][coordinate]; an object whose only coordinate is a NaN. *)
Definition far_object : vec := [float_of_int 140000].
Definition far_centroids : matrix := [[float_of_int 0]; [float_of_int 200000]].
Definition nan_object : vec := [S754_nan].

(** The search of the discipline in force in the base version, for the
    centroids [cl]: lines 155-191 under the atomic discipline, the call of
    [find_nearest_cluster] at line 231 under the thread-local one. *)
Definition base_search (is_perform_atomic : Z) (objects : matrix)
    (numCoords numClusters : Z) (overflow : float -> Z) (cl : matrix)
    (i : nat) : nat :=
  if negb (is_perform_atomic =? 0)%Z
  then Base.atomic_nearest objects numCoords numClusters overflow cl i
  else find_nearest_cluster (Z.to_nat numClusters) (Z.to_nat numCoords)
         (nth i objects []) cl.

(** Entry [t][c][j] of the per-thread sums, and the shape of that array,
    [nthreads][numClusters][numCoords]. *)
Definition rd3 (a : list matrix) (t c j : nat) : float := rd2 (nth t a []) c j.
Definition sums_shaped (T K D : nat) (a : list matrix) : Prop :=
  length a = T /\ Forall (shaped K D) a.

(** The objects [i < n] that thread [t] handles and that the assignment [f]
    sends to cluster [c], in index order. *)
Definition thread_members (tid_of f : nat -> nat) (n t c : nat) : list nat :=
  List.filter (fun i => (tid_of i =? t)%nat && (f i =? c)%nat) (seq 0 n).

(** The entries [v i] of the listed objects, added one after the other to
    [x0] in binary32. *)
Definition sum_over (v : nat -> float) (l : list nat) (x0 : float) : float :=
  fold_left (fun x i => fadd x (v i)) l x0.

(** The sums of coordinates, shared and per thread, are zero: the state of
    these arrays at the head of the loop of the base version. *)
Definition sums_clean (D K T : nat) (st : Base.state) : Prop :=
  (forall j c, (j < D)%nat -> (c < K)%nat ->
     rd2 (newClusters (Base.acc st)) j c = fzero) /\
  sums_shaped T K D (Base.local_newClusters st) /\
  (forall t c k, (t < T)%nat -> (c < K)%nat -> (k < D)%nat ->
     rd3 (Base.local_newClusters st) t c k = fzero).

(** The objects [i < n] that thread [t] handles and whose entry in [old]
    differs from the cluster [f] sends them to: those for which the thread
    adds 1.0 to its copy of [delta]. *)
Definition thread_changed (tid_of : nat -> nat) (old : list Z) (f : nat -> nat)
    (n t : nat) : list nat :=
  List.filter (fun i => (tid_of i =? t)%nat && negb (rdz old i =? Z.of_nat (f i)))
    (seq 0 n).

(** The count that a leaf of a reduction plan stands for, [c0] for the
    original value and [c t] for the copy of thread [t]. *)
Definition leaf_count (c0 : Z) (c : nat -> Z) (o : option nat) : Z :=
  match o with None => c0 | Some t => c t end.

(** Inputs of further examples: four objects 2^24, 1, 1 and 1 on one
    coordinate with one centroid; one thread for every object, and the
    static schedule of [2 * n] objects over two threads. *)
Definition big_objects : matrix :=
  [[float_of_int 16777216]; [float_of_int 1]; [float_of_int 1];
   [float_of_int 1]].
Definition big_clusters : matrix := [[float_of_int 16777216]].
Definition one_thread (i : nat) : nat := 0%nat.
Definition halves (n i : nat) : nat := if (i <? n)%nat then 0%nat else 1%nat.

(** The runtime of one thread: the additions land in the order of the
    program and the reduction adds the only copy to the original value. *)
Definition in_order (N D : nat) (l : Z) : list (nat * nat) :=
  program_order N D.
Definition one_copy (l : Z) : reduction_plan := Combine Original (Copy 0).

Definition two_copies (l : Z) : reduction_plan :=
  Combine (Combine Original (Copy 0)) (Copy 1).

(** The conversion instruction of x86, which leaves [INT_MIN] where C does
    not define the conversion. *)
Definition to_INT_MIN (x : float) : Z := INT_MIN.

(** Five objects in the plane, (10,10), (11,11), (12,12) near the centroid
    (11,11) and (100,100), (102,102) near the centroid (101,101); the
    centroid array is indexed [cluster][coordinate], as the header of the
    base version declares it. *)
Definition three_two : matrix :=
  map (map float_of_int)
      [[10; 10]; [11; 11]; [12; 12]; [100; 100]; [102; 102]]%Z.
Definition three_two_clusters : matrix :=
  map (map float_of_int) [[11; 11]; [101; 101]]%Z.

(** 2^25 objects with one coordinate, all at 0.0, and one centroid. *)
Definition many : Z := 33554432.
Definition many_objects : matrix := replicate (Z.to_nat many) [fzero].
Definition many_clusters : matrix := [[fzero]].
(** * Properties *)

Local Open Scope nat_scope.

(** ** Loops and arrays *)

Section Loops.
Context {S : Type}.
Implicit Types (body : nat -> S -> S) (s : S).

Lemma for_loop_empty lo hi body s : hi <= lo -> for_loop lo hi body s = s.
Proof.
  intros H. unfold for_loop. replace (hi - lo) with 0 by lia. reflexivity.
Qed.

Lemma for_loop_snoc lo hi body s :
  lo <= hi -> for_loop lo (Datatypes.S hi) body s = body hi (for_loop lo hi body s).
Proof.
  intros H. unfold for_loop.
  replace (Datatypes.S hi - lo) with (Datatypes.S (hi - lo)) by lia.
  rewrite seq_S, fold_left_app. simpl.
  replace (lo + (hi - lo)) with hi by lia. reflexivity.
Qed.

(** Loop invariant rule. *)
Lemma for_loop_inv (P : nat -> S -> Prop) lo hi body s :
  lo <= hi ->
  P lo s ->
  (forall i s, lo <= i < hi -> P i s -> P (Datatypes.S i) (body i s)) ->
  P hi (for_loop lo hi body s).
Proof.
  intros Hle H0 Hstep. induction hi as [|hi IH].
  - assert (lo = 0) by lia. subst. rewrite for_loop_empty by lia. exact H0.
  - destruct (decide (lo = Datatypes.S hi)) as [->|Hne].
    + rewrite for_loop_empty by lia. exact H0.
    + rewrite for_loop_snoc by lia. apply Hstep; [lia|].
      apply IH; [lia|]. intros i s' Hi. apply Hstep. lia.
Qed.

(** A property kept by every iteration holds after the loop. *)
Lemma for_loop_preserves (P : S -> Prop) lo hi body s :
  P s ->
  (forall i s, lo <= i < hi -> P s -> P (body i s)) ->
  P (for_loop lo hi body s).
Proof.
  intros H0 Hstep. destruct (decide (lo <= hi)) as [Hle|Hgt].
  - apply (for_loop_inv (fun _ => P)); assumption.
  - rewrite for_loop_empty by lia. exact H0.
Qed.

End Loops.

Section Arrays.
Context {A : Type}.
Implicit Types (l : list A) (d : A).

Lemma nth_insert_eq l i x d : i < length l -> nth i (<[i := x]> l) d = x.
Proof.
  intros H. rewrite nth_lookup, list_lookup_insert_eq by exact H. reflexivity.
Qed.

Lemma nth_insert_ne l i j x d : i <> j -> nth j (<[i := x]> l) d = nth j l d.
Proof.
  intros H. rewrite !nth_lookup, list_lookup_insert_ne by exact H. reflexivity.
Qed.

End Arrays.

Lemma rd2_wr2_eq m r c v :
  r < length m -> c < length (nth r m []) -> rd2 (wr2 m r c v) r c = v.
Proof.
  intros Hr Hc. unfold rd2, wr2.
  rewrite nth_insert_eq by exact Hr. apply nth_insert_eq, Hc.
Qed.

Lemma rd2_wr2_ne m r c v r' c' :
  r <> r' \/ c <> c' -> rd2 (wr2 m r c v) r' c' = rd2 m r' c'.
Proof.
  intros H. unfold rd2, wr2.
  destruct (decide (r = r')) as [<-|Hr].
  - destruct (decide (r < length m)) as [Hlt|Hge].
    + rewrite nth_insert_eq by exact Hlt.
      apply nth_insert_ne. destruct H; congruence.
    + rewrite list_insert_ge by lia. reflexivity.
  - rewrite nth_insert_ne by exact Hr. reflexivity.
Qed.

Lemma shaped_nth R C m r : shaped R C m -> r < R -> length (nth r m []) = C.
Proof.
  intros [Hl Hf] Hr. rewrite Forall_forall in Hf. apply Hf.
  apply list_elem_of_In, nth_In. lia.
Qed.

Lemma shaped_wr2 R C m r c v : shaped R C m -> shaped R C (wr2 m r c v).
Proof.
  intros Hs. pose proof Hs as [Hl Hf]. unfold wr2. split.
  - rewrite length_insert. exact Hl.
  - destruct (decide (r < length m)) as [Hlt|Hge].
    + apply Forall_insert; [exact Hf|]. rewrite length_insert.
      apply (shaped_nth R C); [exact Hs|lia].
    + rewrite list_insert_ge by lia. exact Hf.
Qed.

Lemma shaped_zeros2 R C : shaped R C (zeros2 R C).
Proof.
  unfold shaped, zeros2. split.
  - apply length_replicate.
  - apply Forall_replicate, length_replicate.
Qed.

(** ** Centroid update *)

Lemma update_coords_frame D i a :
  let a' := for_loop 0 D (update_coord i) a in
  newClusterSize a' = newClusterSize a /\
  (forall j c, c <> i \/ (rdz (newClusterSize a) i <= 1)%Z ->
     rd2 (clusters a') j c = rd2 (clusters a) j c) /\
  (forall j c, c <> i -> rd2 (newClusters a') j c = rd2 (newClusters a) j c).
Proof.
  apply (for_loop_inv (fun _ a' =>
    newClusterSize a' = newClusterSize a /\
    (forall j c, c <> i \/ (rdz (newClusterSize a) i <= 1)%Z ->
       rd2 (clusters a') j c = rd2 (clusters a) j c) /\
    (forall j c, c <> i -> rd2 (newClusters a') j c = rd2 (newClusters a) j c)));
    [lia|auto|].
  intros j a' _ (Hs & Hc & Hn). unfold update_coord; simpl.
  split; [exact Hs|]. split.
  - intros j' c Hside. rewrite Hs.
    destruct (1 <? rdz (newClusterSize a) i)%Z eqn:Hgt.
    + apply Z.ltb_lt in Hgt. rewrite rd2_wr2_ne by (right; lia).
      apply Hc, Hside.
    + apply Hc, Hside.
  - intros j' c Hne. rewrite rd2_wr2_ne by (right; lia). apply Hn, Hne.
Qed.

Lemma update_coords_spec D K i a :
  accum_shaped D K a -> i < K ->
  let a' := for_loop 0 D (update_coord i) a in
  accum_shaped D K a' /\
  (forall j, j < D ->
     rd2 (clusters a') j i =
       if (1 <? rdz (newClusterSize a) i)%Z
       then fdiv (rd2 (newClusters a) j i)
                 (float_of_int (rdz (newClusterSize a) i))
       else rd2 (clusters a) j i) /\
  (forall j, j < D -> rd2 (newClusters a') j i = fzero).
Proof.
  intros Hsh Hi.
  cut (let a' := for_loop 0 D (update_coord i) a in
       accum_shaped D K a' /\ newClusterSize a' = newClusterSize a /\
       (forall j, j < D ->
          rd2 (clusters a') j i =
            if (if decide (j < D) then (1 <? rdz (newClusterSize a) i)%Z else false)
            then fdiv (rd2 (newClusters a) j i)
                      (float_of_int (rdz (newClusterSize a) i))
            else rd2 (clusters a) j i) /\
       (forall j, j < D ->
          rd2 (newClusters a') j i =
            if decide (j < D) then fzero else rd2 (newClusters a) j i)).
  { intros (H1 & _ & H3 & H4). split; [exact H1|]. split.
    - intros j Hj. rewrite (H3 j Hj). destruct (decide (j < D)); [reflexivity|lia].
    - intros j Hj. rewrite (H4 j Hj). destruct (decide (j < D)); [reflexivity|lia]. }
  cbv zeta.
  refine (for_loop_inv (fun n a' =>
    accum_shaped D K a' /\ newClusterSize a' = newClusterSize a /\
    (forall j, j < D ->
       rd2 (clusters a') j i =
         if (if decide (j < n) then (1 <? rdz (newClusterSize a) i)%Z else false)
         then fdiv (rd2 (newClusters a) j i)
                   (float_of_int (rdz (newClusterSize a) i))
         else rd2 (clusters a) j i) /\
    (forall j, j < D ->
       rd2 (newClusters a') j i =
         if decide (j < n) then fzero else rd2 (newClusters a) j i))
    0 D (update_coord i) a _ _ _); [lia| |].
  - split; [exact Hsh|]. split; [reflexivity|].
    split; intros j Hj; destruct (decide (j < 0)); (lia || reflexivity).
  - intros n a' Hn ((Hc' & Hn' & Hl') & Hs & Hc & Hnc).
    unfold update_coord, accum_shaped; simpl. rewrite Hs.
    split; [|split; [reflexivity|split]].
    + split; [|split; [apply shaped_wr2, Hn'|rewrite <- Hs; exact Hl']].
      destruct (1 <? rdz (newClusterSize a) i)%Z;
        [apply shaped_wr2, Hc'|exact Hc'].
    + intros j Hj. destruct (decide (j = n)) as [->|Hne].
      * destruct (decide (n < Datatypes.S n)); [|lia].
        specialize (Hc n Hj). specialize (Hnc n Hj).
        destruct (decide (n < n)); [lia|].
        destruct (1 <? rdz (newClusterSize a) i)%Z.
        -- rewrite rd2_wr2_eq; [rewrite Hnc; reflexivity| |].
           ++ destruct Hc' as [-> _]. lia.
           ++ rewrite (shaped_nth D K) by (exact Hc' || lia). exact Hi.
        -- exact Hc.
      * specialize (Hc j Hj).
        destruct (decide (j < Datatypes.S n)), (decide (j < n)); try lia;
          destruct (1 <? rdz (newClusterSize a) i)%Z;
          try (rewrite rd2_wr2_ne by (left; lia)); exact Hc.
    + intros j Hj. destruct (decide (j = n)) as [->|Hne].
      * destruct (decide (n < Datatypes.S n)); [|lia].
        rewrite rd2_wr2_eq; [reflexivity| |].
        -- destruct Hn' as [-> _]. lia.
        -- rewrite (shaped_nth D K) by (exact Hn' || lia). exact Hi.
      * specialize (Hnc j Hj). rewrite rd2_wr2_ne by (left; lia).
        destruct (decide (j < Datatypes.S n)), (decide (j < n)); try lia; exact Hnc.
Qed.

Lemma rdz_insert_eq (l : list Z) i x : i < length l -> rdz (<[i := x]> l) i = x.
Proof. apply nth_insert_eq. Qed.

Lemma rdz_insert_ne (l : list Z) i j x : i <> j -> rdz (<[i := x]> l) j = rdz l j.
Proof. apply nth_insert_ne. Qed.

(** A cluster with at most one member keeps its centroid, whatever the
    shapes of the arrays. *)
Lemma update_centroids_frame D K a i :
  (rdz (newClusterSize a) i <= 1)%Z ->
  forall j, rd2 (clusters (update_centroids D K a)) j i = rd2 (clusters a) j i.
Proof.
  intros Hsmall.
  cut (let a' := update_centroids D K a in
       (forall c, K <= c -> rdz (newClusterSize a') c = rdz (newClusterSize a) c) /\
       forall j, rd2 (clusters a') j i = rd2 (clusters a) j i).
  { intros [_ H]. exact H. }
  cbv zeta. unfold update_centroids.
  refine (for_loop_inv (fun n a' =>
    (forall c, n <= c -> rdz (newClusterSize a') c = rdz (newClusterSize a) c) /\
    forall j, rd2 (clusters a') j i = rd2 (clusters a) j i)
    0 K (update_cluster D) a _ _ _); [lia|auto|].
  intros n a' _ [Hsz Hcl].
  destruct (update_coords_frame D n a') as (Hs & Hc & _).
  unfold update_cluster; simpl. rewrite Hs. split.
  - intros c Hc'. rewrite rdz_insert_ne by lia. apply Hsz. lia.
  - intros j. rewrite Hc; [apply Hcl|].
    destruct (decide (i = n)) as [->|Hne]; [right|left; exact Hne].
    rewrite Hsz by lia. exact Hsmall.
Qed.

Lemma update_centroids_spec D K a :
  accum_shaped D K a ->
  let a' := update_centroids D K a in
  accum_shaped D K a' /\
  forall i, i < K ->
    rdz (newClusterSize a') i = 0%Z /\
    forall j, j < D ->
      rd2 (newClusters a') j i = fzero /\
      rd2 (clusters a') j i =
        if (1 <? rdz (newClusterSize a) i)%Z
        then fdiv (rd2 (newClusters a) j i)
                  (float_of_int (rdz (newClusterSize a) i))
        else rd2 (clusters a) j i.
Proof.
  intros Hsh.
  cut (let a' := update_centroids D K a in
       accum_shaped D K a' /\
       forall i, i < K ->
         if decide (i < K) then
           rdz (newClusterSize a') i = 0%Z /\
           forall j, j < D ->
             rd2 (newClusters a') j i = fzero /\
             rd2 (clusters a') j i =
               if (1 <? rdz (newClusterSize a) i)%Z
               then fdiv (rd2 (newClusters a) j i)
                         (float_of_int (rdz (newClusterSize a) i))
               else rd2 (clusters a) j i
         else
           rdz (newClusterSize a') i = rdz (newClusterSize a) i /\
           forall j, j < D ->
             rd2 (newClusters a') j i = rd2 (newClusters a) j i /\
             rd2 (clusters a') j i = rd2 (clusters a) j i).
  { intros [H1 H2]. split; [exact H1|]. intros i Hi. specialize (H2 i Hi).
    destruct (decide (i < K)); [exact H2|lia]. }
  cbv zeta. unfold update_centroids.
  refine (for_loop_inv (fun n a' =>
    accum_shaped D K a' /\
    forall i, i < K ->
      if decide (i < n) then
        rdz (newClusterSize a') i = 0%Z /\
        forall j, j < D ->
          rd2 (newClusters a') j i = fzero /\
          rd2 (clusters a') j i =
            if (1 <? rdz (newClusterSize a) i)%Z
            then fdiv (rd2 (newClusters a) j i)
                      (float_of_int (rdz (newClusterSize a) i))
            else rd2 (clusters a) j i
      else
        rdz (newClusterSize a') i = rdz (newClusterSize a) i /\
        forall j, j < D ->
          rd2 (newClusters a') j i = rd2 (newClusters a) j i /\
          rd2 (clusters a') j i = rd2 (clusters a) j i)
    0 K (update_cluster D) a _ _ _); [lia| |].
  - split; [exact Hsh|]. intros i Hi. destruct (decide (i < 0)); [lia|auto].
  - intros n a' Hn [Hsh' Hinv].
    destruct (update_coords_spec D K n a' Hsh') as (Hsh1 & Hc1 & Hn1); [lia|].
    destruct (update_coords_frame D n a') as (Hs & Hcf & Hnf).
    unfold update_cluster; simpl. split.
    + destruct Hsh1 as (? & ? & ?). unfold accum_shaped; simpl.
      rewrite length_insert. auto.
    + intros i Hi. specialize (Hinv i Hi).
      destruct (decide (i = n)) as [->|Hne].
      * destruct (decide (n < Datatypes.S n)); [|lia].
        destruct (decide (n < n)); [lia|]. destruct Hinv as [Hsz Hrest]. split.
        -- apply rdz_insert_eq. destruct Hsh1 as (_ & _ & ->). lia.
        -- intros j Hj. destruct (Hrest j Hj) as [Hnn Hcc].
           rewrite Hn1, Hc1 by exact Hj. rewrite Hsz, Hnn, Hcc. auto.
      * assert (Hfr : forall j,
                  rd2 (newClusters (for_loop 0 D (update_coord n) a')) j i =
                    rd2 (newClusters a') j i /\
                  rd2 (clusters (for_loop 0 D (update_coord n) a')) j i =
                    rd2 (clusters a') j i).
        { intros j. split; [apply Hnf; lia|apply Hcf; left; lia]. }
        rewrite rdz_insert_ne by lia. rewrite Hs.
        destruct (decide (i < Datatypes.S n)), (decide (i < n)); try lia;
          destruct Hinv as [Hsz Hrest]; (split; [exact Hsz|]);
          intros j Hj; destruct (Hfr j) as [-> ->]; apply Hrest, Hj.
Qed.

(** ** Assignment pass of the improved version *)

Lemma members_snoc f n c :
  members f (Datatypes.S n) c =
    members f n c ++ (if (f n =? c)%nat then [n] else []).
Proof.
  unfold members. rewrite seq_S, List.filter_app. simpl.
  destruct (f n =? c)%nat; reflexivity.
Qed.

Lemma changed_snoc old f n :
  changed old f (Datatypes.S n) =
    changed old f n ++
      (if negb (rdz old n =? Z.of_nat (f n))%Z then [n] else []).
Proof.
  unfold changed. rewrite seq_S, List.filter_app. simpl.
  destruct (negb _); reflexivity.
Qed.

Lemma coord_sum_snoc objects j l i x0 :
  coord_sum objects j (l ++ [i]) x0 =
    fadd (coord_sum objects j l x0) (rd2 objects i j).
Proof. unfold coord_sum. rewrite fold_left_app. reflexivity. Qed.


Lemma landed_cons f e l j c :
  landed f (e :: l) j c =
    (if (snd e =? j)%nat && (f (fst e) =? c)%nat then [fst e] else []) ++
    landed f l j c.
Proof.
  unfold landed. cbn [List.filter].
  destruct ((snd e =? j)%nat && (f (fst e) =? c)%nat); reflexivity.
Qed.

Section ImprovedPass.

Variable objects : matrix.
Variables numCoords numObjs numClusters : Z.
Variable nthreads : nat.
Variable tid_of : nat -> nat.
Variable landing : Z -> list (nat * nat).
Variable plan : Z -> reduction_plan.

Local Abbreviation D := (Z.to_nat numCoords).
Local Abbreviation N := (Z.to_nat numObjs).
Local Abbreviation K := (Z.to_nat numClusters).
Local Abbreviation nearest := (Improved.nearest objects numCoords numClusters).
Local Abbreviation assign_object :=
  (Improved.assign_object objects numCoords numClusters tid_of).
Local Abbreviation land := (Improved.land objects numCoords numClusters).
Local Abbreviation assignment_pass :=
  (Improved.assignment_pass objects numCoords numObjs numClusters nthreads
     tid_of landing plan).
Local Abbreviation clean := (Improved.clean numCoords numObjs numClusters).

(** The scan starts at index 0 and only ever records a loop index. *)
Lemma scan_min_index da :
  0 < K -> snd (Improved.scan_min numClusters da) < K.
Proof.
  intros HK. unfold Improved.scan_min.
  refine (for_loop_inv (fun n (s : float * nat) => snd s < K)
            0 K _ _ _ _ _); [lia|simpl; lia|].
  intros j [md idx] Hj Hidx. simpl in *.
  destruct (flt (rd da j) md); simpl; lia.
Qed.

Lemma nearest_lt cl i : 0 < K -> nearest cl i < K.
Proof. intros HK. apply scan_min_index, HK. Qed.

(** The loop over the objects: memberships and member counts. *)
Lemma assignment_loop_inv st n :
  accum_shaped D K (Improved.acc st) -> 0 < K ->
  let cl := clusters (Improved.acc st) in
  let st' := for_loop 0 n assign_object st in
  accum_shaped D K (Improved.acc st') /\
  clusters (Improved.acc st') = cl /\
  newClusters (Improved.acc st') = newClusters (Improved.acc st) /\
  Improved.loop st' = Improved.loop st /\
  Improved.delta st' = Improved.delta st /\
  length (Improved.membership st') = length (Improved.membership st) /\
  (forall i, i < length (Improved.membership st) ->
     rdz (Improved.membership st') i =
       if decide (i < n) then Z.of_nat (nearest cl i)
       else rdz (Improved.membership st) i) /\
  (forall c, rdz (newClusterSize (Improved.acc st')) c =
     (rdz (newClusterSize (Improved.acc st)) c +
      Z.of_nat (length (members (nearest cl) n c)))%Z).
Proof.
  intros Hsh HK. cbv zeta.
  set (cl := clusters (Improved.acc st)).
  refine (for_loop_inv (fun n st' =>
    accum_shaped D K (Improved.acc st') /\
    clusters (Improved.acc st') = cl /\
    newClusters (Improved.acc st') = newClusters (Improved.acc st) /\
    Improved.loop st' = Improved.loop st /\
    Improved.delta st' = Improved.delta st /\
    length (Improved.membership st') = length (Improved.membership st) /\
    (forall i, i < length (Improved.membership st) ->
       rdz (Improved.membership st') i =
         if decide (i < n) then Z.of_nat (nearest cl i)
         else rdz (Improved.membership st) i) /\
    (forall c, rdz (newClusterSize (Improved.acc st')) c =
       (rdz (newClusterSize (Improved.acc st)) c +
        Z.of_nat (length (members (nearest cl) n c)))%Z)) 0 n _ st _ _ _);
    [lia| |].
  - split; [exact Hsh|]. do 5 (split; [reflexivity|]). split.
    + intros i Hi. destruct (decide (i < 0)); [lia|reflexivity].
    + intros c. unfold members; simpl. lia.
  - intros m st' Hm ((Hc & Hn & Hl) & Hcl & Hnc & Hlp & Hdl & Hlen & Hmem & Hsz).
    unfold Improved.assign_object.
    cbn [Improved.acc Improved.membership Improved.delta Improved.loop
         clusters newClusters newClusterSize].
    rewrite Hcl.
    pose proof (nearest_lt cl m HK) as Hidx.
    split; [|split; [reflexivity|split; [exact Hnc|split; [exact Hlp|
            split; [exact Hdl|split; [rewrite length_insert; exact Hlen|
            split]]]]]].
    + unfold accum_shaped; cbn [clusters newClusters newClusterSize].
      rewrite length_insert. split; [rewrite <- Hcl; exact Hc|].
      split; [exact Hn|exact Hl].
    + intros i Hi. destruct (decide (i = m)) as [->|Hne].
      * rewrite rdz_insert_eq by lia.
        destruct (decide (m < Datatypes.S m)); [reflexivity|lia].
      * rewrite rdz_insert_ne by lia. rewrite (Hmem i Hi).
        destruct (decide (i < m)), (decide (i < Datatypes.S m)); try lia; reflexivity.
    + intros c. rewrite members_snoc, length_app.
      destruct (decide (c = nearest cl m)) as [->|Hne].
      * rewrite rdz_insert_eq by lia. rewrite Hsz, Nat.eqb_refl. simpl. lia.
      * rewrite rdz_insert_ne by congruence. rewrite Hsz.
        destruct (Nat.eqb_spec (nearest cl m) c); [congruence|]. simpl. lia.
Qed.

(** The atomic additions, in the order in which they land. *)
Lemma landing_spec cl (l : list (nat * nat)) (nc : matrix) :
  shaped D K nc -> 0 < K ->
  let nc' := fold_left (fun nc e => land cl e nc) l nc in
  shaped D K nc' /\
  forall j c, j < D ->
    rd2 nc' j c = coord_sum objects j (landed (nearest cl) l j c) (rd2 nc j c).
Proof.
  intros Hsh HK. cbv zeta. revert nc Hsh.
  induction l as [|[i k] l IH]; intros nc Hsh.
  - split; [exact Hsh|]. reflexivity.
  - cbn [fold_left].
    assert (Hsh' : shaped D K (land cl (i, k) nc))
      by (unfold Improved.land; apply shaped_wr2, Hsh).
    destruct (IH _ Hsh') as [IH1 IH2]. split; [exact IH1|].
    intros j c Hj. rewrite (IH2 j c Hj), landed_cons. cbn [fst snd].
    unfold Improved.land at 1.
    pose proof (nearest_lt cl i HK) as Hidx.
    destruct (Nat.eqb_spec k j) as [->|Hkj].
    + destruct (Nat.eqb_spec (nearest cl i) c) as [<-|Hic]; cbn [andb app].
      * rewrite rd2_wr2_eq; [reflexivity|destruct Hsh as [-> _]; exact Hj|].
        rewrite (shaped_nth D K) by (exact Hsh || exact Hj). exact Hidx.
      * rewrite rd2_wr2_ne by (right; exact Hic). reflexivity.
    + cbn [andb app]. rewrite rd2_wr2_ne by (left; exact Hkj). reflexivity.
Qed.

Lemma assignment_pass_spec st :
  accum_shaped D K (Improved.acc st) -> 0 < K ->
  length (Improved.membership st) = N ->
  let cl := clusters (Improved.acc st) in
  let st' := assignment_pass st in
  accum_shaped D K (Improved.acc st') /\
  clusters (Improved.acc st') = cl /\
  Improved.loop st' = Improved.loop st /\
  length (Improved.membership st') = N /\
  (forall i, i < N ->
     rdz (Improved.membership st') i = Z.of_nat (nearest cl i)) /\
  (forall c, rdz (newClusterSize (Improved.acc st')) c =
     (rdz (newClusterSize (Improved.acc st)) c +
      Z.of_nat (length (members (nearest cl) N c)))%Z) /\
  (forall j c, j < D ->
     rd2 (newClusters (Improved.acc st')) j c =
       coord_sum objects j
         (landed (nearest cl) (landing (Improved.loop st)) j c)
         (rd2 (newClusters (Improved.acc st)) j c)).
Proof.
  intros Hsh HK Hlen. cbv zeta. unfold Improved.assignment_pass.
  set (st0 := Improved.set_copies (replicate nthreads fzero) st).
  destruct (assignment_loop_inv st0 N Hsh HK)
    as ((H1c & H1n & H1l) & H2 & H3 & H4 & _ & H6 & H7 & H8).
  set (st1 := for_loop 0 N assign_object st0) in *.
  destruct (landing_spec (clusters (Improved.acc st))
              (landing (Improved.loop st1)) (newClusters (Improved.acc st1))
              H1n HK) as [L1 L2].
  cbn [Improved.acc Improved.set_acc Improved.set_delta Improved.loop
       Improved.membership set_newClusters clusters newClusters
       newClusterSize].
  split; [split; [exact H1c|split; [exact L1|exact H1l]]|].
  split; [exact H2|]. split; [exact H4|]. split; [rewrite H6; exact Hlen|].
  split; [|split; [exact H8|]].
  - intros i Hi. rewrite H7 by (unfold st0; simpl; lia).
    destruct (decide (i < N)); [reflexivity|lia].
  - intros j c Hj. rewrite (L2 j c Hj), H3, H4. reflexivity.
Qed.

Lemma clean_initial cl : shaped D K cl ->
  clean (Improved.initial numCoords numObjs numClusters cl).
Proof.
  intros Hcl. unfold Improved.clean, Improved.initial, accum_shaped, zeros; simpl.
  split; [split; [exact Hcl|split; [apply shaped_zeros2|apply length_replicate]]|].
  split; [apply length_replicate|]. split.
  - intros c Hc. unfold rdz. rewrite nth_lookup, lookup_replicate_2 by exact Hc.
    reflexivity.
  - intros j c Hj Hc. unfold rd2, zeros2.
    rewrite (nth_lookup (replicate D _)), lookup_replicate_2 by exact Hj. simpl.
    rewrite nth_lookup, lookup_replicate_2 by exact Hc. reflexivity.
Qed.

Lemma clean_iteration st : 0 < K -> clean st ->
  clean (Improved.iteration objects numCoords numObjs numClusters nthreads
           tid_of landing plan st).
Proof.
  intros HK (Hsh & Hlen & Hz & Hzz). unfold Improved.iteration.
  destruct (assignment_pass_spec (Improved.set_delta fzero st) Hsh HK Hlen)
    as (Hsh1 & _ & _ & Hlen1 & _).
  destruct (update_centroids_spec D K _ Hsh1) as [Hsh2 Hupd].
  unfold Improved.clean.
  cbn [Improved.acc Improved.membership Improved.set_acc Improved.set_delta].
  split; [exact Hsh2|]. split; [exact Hlen1|]. split.
  - intros c Hc. apply (Hupd c Hc).
  - intros j c Hj Hc. apply (Hupd c Hc). exact Hj.
Qed.

Lemma loop_head_clean cl st :
  shaped D K cl -> 0 < K ->
  Improved.loop_head objects numCoords numObjs numClusters nthreads tid_of
    landing plan cl st -> clean st.
Proof.
  intros Hcl HK Hst. induction Hst as [|st Hst IH].
  - apply clean_initial, Hcl.
  - apply (clean_iteration st HK) in IH. exact IH.
Qed.

End ImprovedPass.

Lemma Zsum_insert l i x :
  i < length l -> Zsum (<[i := x]> l) = (Zsum l - rdz l i + x)%Z.
Proof.
  revert i. induction l as [|a l IH]; intros i Hi; simpl in *; [lia|].
  destruct i as [|i]; unfold rdz; simpl.
  - lia.
  - rewrite IH by lia. unfold rdz. lia.
Qed.

Lemma Zsum_zero l : (forall c, c < length l -> rdz l c = 0%Z) -> Zsum l = 0%Z.
Proof.
  induction l as [|a l IH]; intros H; simpl; [reflexivity|].
  rewrite IH.
  - assert (Ha : a = 0%Z) by (apply (H 0); simpl; lia). lia.
  - intros c Hc. apply (H (Datatypes.S c)). simpl. lia.
Qed.

(** ** Landing orders *)

Lemma filter_eqb_seq j a n :
  List.filter (fun j' => (j' =? j)%nat) (seq a n) =
    if decide (a <= j < a + n) then [j] else [].
Proof.
  revert a. induction n as [|n IH]; intros a; cbn [seq List.filter].
  - destruct (decide (a <= j < a + 0)); [lia|reflexivity].
  - rewrite IH. destruct (Nat.eqb_spec a j) as [->|Hne].
    + destruct (decide (Datatypes.S j <= j < Datatypes.S j + n)); [lia|].
      destruct (decide (j <= j < j + Datatypes.S n)); [reflexivity|lia].
    + destruct (decide (Datatypes.S a <= j < Datatypes.S a + n)),
               (decide (a <= j < a + Datatypes.S n)); try lia; reflexivity.
Qed.

(** In the order of the program the additions into a cell are those of the
    members of the cluster, in index order. *)
Lemma landed_program_order f N D j c :
  j < D -> landed f (program_order N D) j c = members f N c.
Proof.
  intros Hj. unfold program_order, members. generalize (seq 0 N) as l.
  induction l as [|i l IH]; [reflexivity|].
  cbn [flat_map List.filter]. unfold landed in *.
  rewrite List.filter_app, map_app, IH. clear IH.
  assert (H : map fst (List.filter
                (fun e : nat * nat => (snd e =? j)%nat && (f (fst e) =? c)%nat)
                (map (fun j' => (i, j')) (seq 0 D))) =
              if (f i =? c)%nat then [i] else []).
  { destruct (f i =? c)%nat eqn:E.
    - transitivity (map fst (map (fun j' => (i, j'))
                     (List.filter (fun j' => (j' =? j)%nat) (seq 0 D)))).
      + f_equal. generalize (seq 0 D) as s.
        induction s as [|a s IHs]; [reflexivity|].
        cbn [map List.filter fst snd]. rewrite E, andb_true_r, IHs.
        destruct (a =? j)%nat; reflexivity.
      + rewrite filter_eqb_seq.
        destruct (decide (0 <= j < 0 + D)); [reflexivity|lia].
    - generalize (seq 0 D) as s.
      induction s as [|a s IHs]; [reflexivity|].
      cbn [map List.filter fst snd]. rewrite E, andb_false_r. exact IHs. }
  rewrite H. destruct (f i =? c)%nat; reflexivity.
Qed.

Lemma filter_Permutation {A} (p : A -> bool) (l l' : list A) :
  Permutation l l' -> Permutation (List.filter p l) (List.filter p l').
Proof.
  induction 1 as [|x l l' _ IH|x y l|l l' l'' _ IH1 _ IH2]; cbn [List.filter].
  - constructor.
  - destruct (p x); [constructor|]; exact IH.
  - destruct (p x), (p y); try reflexivity. constructor.
  - etransitivity; eassumption.
Qed.

(** Whatever the order in which the additions land, those into a cell are
    the additions of the members of the cluster, each once. *)
Lemma landed_members f N D l j c :
  Permutation l (program_order N D) -> j < D ->
  Permutation (landed f l j c) (members f N c).
Proof.
  intros Hp Hj. rewrite <- (landed_program_order f N D j c Hj).
  unfold landed. apply Permutation_map, filter_Permutation, Hp.
Qed.

Section ImprovedIteration.

Variable objects : matrix.
Variables numCoords numObjs numClusters : Z.
Variable nthreads : nat.
Variable tid_of : nat -> nat.
Variable landing : Z -> list (nat * nat).
Variable plan : Z -> reduction_plan.
Variable cl0 : matrix.

Local Abbreviation D := (Z.to_nat numCoords).
Local Abbreviation N := (Z.to_nat numObjs).
Local Abbreviation K := (Z.to_nat numClusters).
Local Abbreviation nearest := (Improved.nearest objects numCoords numClusters).
Local Abbreviation assign_object :=
  (Improved.assign_object objects numCoords numClusters tid_of).
Local Abbreviation assignment_pass :=
  (Improved.assignment_pass objects numCoords numObjs numClusters nthreads
     tid_of landing plan).
Local Abbreviation iteration :=
  (Improved.iteration objects numCoords numObjs numClusters nthreads tid_of
     landing plan).
Local Abbreviation loop_head :=
  (Improved.loop_head objects numCoords numObjs numClusters nthreads tid_of
     landing plan cl0).

Hypothesis cl0_shaped : shaped D K cl0.
Hypothesis K_positive : (0 < numClusters)%Z.

Lemma K_pos : 0 < K.
Proof. lia. Qed.

Lemma pass_size_sum st n :
  length (newClusterSize (Improved.acc st)) = K ->
  let st' := for_loop 0 n assign_object st in
  length (newClusterSize (Improved.acc st')) = K /\
  Zsum (newClusterSize (Improved.acc st')) =
    (Zsum (newClusterSize (Improved.acc st)) + Z.of_nat n)%Z.
Proof.
  intros Hlen. cbv zeta.
  refine (for_loop_inv (fun n st' =>
    length (newClusterSize (Improved.acc st')) = K /\
    Zsum (newClusterSize (Improved.acc st')) =
      (Zsum (newClusterSize (Improved.acc st)) + Z.of_nat n)%Z)
    0 n _ st _ _ _); [lia|split; [exact Hlen|lia]|].
  intros m st' _ [Hl Hs]. unfold Improved.assign_object.
  cbn [Improved.acc newClusterSize]. rewrite length_insert. split; [exact Hl|].
  rewrite Zsum_insert, Hs; [lia|].
  rewrite Hl. apply nearest_lt, K_pos.
Qed.

Lemma assigned_members (m : list Z) (f : nat -> nat) n c :
  (forall i, i < n -> rdz m i = Z.of_nat (f i)) ->
  assigned m n c = members f n c.
Proof.
  intros H. unfold assigned, members. apply List.filter_ext_in.
  intros i Hi. apply in_seq in Hi. rewrite H by lia.
  destruct (Nat.eqb_spec (f i) c) as [->|Hne].
  - apply Z.eqb_refl.
  - apply Z.eqb_neq. lia.
Qed.

(** What one assignment pass entered at the head of the loop computes. *)
Lemma pass_at_head st :
  loop_head st ->
  let near := nearest (clusters (Improved.acc st)) in
  let st1 := assignment_pass (Improved.set_delta fzero st) in
  accum_shaped D K (Improved.acc st1) /\
  clusters (Improved.acc st1) = clusters (Improved.acc st) /\
  length (Improved.membership st1) = N /\
  (forall i, i < N -> rdz (Improved.membership st1) i = Z.of_nat (near i)) /\
  (forall c, assigned (Improved.membership st1) N c = members near N c) /\
  (forall c, c < K ->
     rdz (newClusterSize (Improved.acc st1)) c =
       Z.of_nat (length (members near N c))) /\
  (forall j c, j < D -> c < K ->
     rd2 (newClusters (Improved.acc st1)) j c =
       coord_sum objects j (landed near (landing (Improved.loop st)) j c)
         fzero).
Proof.
  intros Hst. cbv zeta.
  destruct (loop_head_clean objects numCoords numObjs numClusters nthreads
              tid_of landing plan cl0 st cl0_shaped K_pos Hst)
    as (Hsh & Hlen & Hz & Hzz).
  destruct (assignment_pass_spec objects numCoords numObjs numClusters
              nthreads tid_of landing plan
              (Improved.set_delta fzero st) Hsh K_pos Hlen)
    as (H1 & H2 & _ & H4 & H5 & H6 & H7).
  simpl in *. repeat (split; [assumption|]).
  split; [intros c; apply assigned_members, H5|].
  split; [intros c Hc; rewrite H6, Hz by exact Hc; lia|].
  intros j c Hj Hc; rewrite H7, Hzz by assumption; reflexivity.
Qed.

(** After an assignment pass the membership array has one entry per
    object and every entry is a cluster index in [0, numClusters). *)
Lemma improved_entries_in_range st :
  loop_head st ->
  let st1 := assignment_pass (Improved.set_delta fzero st) in
  length (Improved.membership st1) = N /\
  forall i, i < N ->
    (0 <= rdz (Improved.membership st1) i < numClusters)%Z.
Proof.
  intros Hst. destruct (pass_at_head st Hst) as (_ & _ & Hlen & Hmem & _).
  cbv zeta. split; [exact Hlen|]. intros i Hi. rewrite (Hmem i Hi).
  pose proof (nearest_lt objects numCoords numClusters
                (clusters (Improved.acc st)) i K_pos). lia.
Qed.

(** After an assignment pass the member counts of the clusters add up
    to the number of objects. *)
Lemma improved_counts_add_up st :
  loop_head st ->
  let st1 := assignment_pass (Improved.set_delta fzero st) in
  Zsum (newClusterSize (Improved.acc st1)) = Z.of_nat N.
Proof.
  intros Hst. cbv zeta.
  destruct (loop_head_clean objects numCoords numObjs numClusters nthreads
              tid_of landing plan cl0 st cl0_shaped K_pos Hst)
    as ((_ & _ & Hl) & _ & Hz & _).
  destruct (pass_size_sum
              (Improved.set_copies (replicate nthreads fzero)
                 (Improved.set_delta fzero st)) N Hl) as [_ Hsum].
  unfold Improved.assignment_pass.
  cbn [Improved.acc Improved.set_acc Improved.set_delta set_newClusters
       newClusterSize].
  rewrite Hsum. simpl.
  rewrite Zsum_zero; [lia|]. intros c Hc. apply Hz. lia.
Qed.

(** A cluster that received at most one object in the assignment pass
    has, after the centroid update, the centroid it had before. *)
Lemma improved_small_cluster_kept st c :
  loop_head st -> c < K ->
  let st1 := assignment_pass (Improved.set_delta fzero st) in
  length (assigned (Improved.membership st1) N c) <= 1 ->
  forall j,
    rd2 (clusters (Improved.acc (iteration st))) j c =
    rd2 (clusters (Improved.acc st)) j c.
Proof.
  intros Hst Hc. cbv zeta. intros Hsmall j.
  destruct (pass_at_head st Hst) as (_ & Hcl & _ & _ & Has & Hsz & _).
  unfold Improved.iteration.
  cbn [Improved.acc Improved.set_acc Improved.set_delta].
  rewrite update_centroids_frame; [rewrite Hcl; reflexivity|].
  rewrite (Hsz c Hc), <- Has. lia.
Qed.

(** A cluster that received more than one object gets, coordinate by
    coordinate, the sum of its objects, added in the order in which the
    atomic additions landed, divided by their number; after the update
    every accumulator is zero. *)
Lemma improved_big_cluster_mean st c :
  loop_head st -> c < K ->
  let near := nearest (clusters (Improved.acc st)) in
  let st1 := assignment_pass (Improved.set_delta fzero st) in
  let mine := assigned (Improved.membership st1) N c in
  1 < length mine ->
  (forall j, j < D ->
     rd2 (clusters (Improved.acc (iteration st))) j c =
       fdiv (coord_sum objects j
               (landed near (landing (Improved.loop st)) j c) fzero)
            (float_of_int (Z.of_nat (length mine)))) /\
  (forall c', c' < K ->
     rdz (newClusterSize (Improved.acc (iteration st))) c' = 0%Z /\
     forall j, j < D ->
       rd2 (newClusters (Improved.acc (iteration st))) j c' = fzero).
Proof.
  intros Hst Hc. cbv zeta. intros Hbig.
  destruct (pass_at_head st Hst) as (Hsh & _ & _ & _ & Has & Hsz & Hsum).
  destruct (update_centroids_spec D K _ Hsh) as [_ Hupd].
  unfold Improved.iteration.
  cbn [Improved.acc Improved.set_acc Improved.set_delta]. split.
  - intros j Hj. destruct (Hupd c Hc) as [_ Hj']. destruct (Hj' j Hj) as [_ ->].
    rewrite (Hsz c Hc), (Hsum j c Hj Hc), <- Has.
    destruct (Z.ltb_spec 1 (Z.of_nat (length
      (assigned (Improved.membership
         (assignment_pass (Improved.set_delta fzero st))) N c)))); [reflexivity|lia].
  - intros c' Hc'. destruct (Hupd c' Hc') as [Hs Hj']. split; [exact Hs|].
    intros j Hj. apply (Hj' j Hj).
Qed.

End ImprovedIteration.

(** ** Order of binary32 values *)

Ltac order_cases :=
  repeat match goal with
  | |- context [Z.compare ?a ?b] => destruct (Z.compare_spec a b)
  | |- context [Pos.compare_cont Eq ?a ?b] =>
      change (Pos.compare_cont Eq a b) with (Pos.compare a b);
      destruct (Pos.compare_spec a b)
  end.

Ltac float_order :=
  unfold flt, fle, feq, SFltb, SFleb, SFeqb, SFcompare;
  repeat match goal with
  | x : float |- _ => destruct x as [[|]|[|]| |[|] ? ?]
  end;
  simpl; try (intros; (discriminate || reflexivity));
  order_cases; simpl; intros; subst;
  try discriminate; try reflexivity; try lia.

Lemma flt_irrefl (x : float) : flt x x = false.
Proof. float_order. Qed.

Lemma flt_trans (x y z : float) :
  flt x y = true -> flt y z = true -> flt x z = true.
Proof. float_order. Qed.

Lemma feq_flt_trans (x y z : float) :
  feq x y = true -> flt y z = true -> flt x z = true.
Proof. float_order. Qed.

Lemma flt_fle (x y : float) :
  is_nan x = false -> is_nan y = false -> flt x y = negb (fle y x).
Proof. float_order. Qed.

(** ** Operations that never produce a NaN *)

Section NotNan.

Local Open Scope Z_scope.

Lemma iter_pos_inv {A} (P : A -> Prop) (f : A -> A) n x :
  P x -> (forall y, P y -> P (f y)) -> P (SpecFloat.iter_pos f n x).
Proof.
  intros Hx Hf. revert x Hx. induction n as [n IH|n IH|]; intros x Hx; simpl.
  - apply IH, IH, Hf, Hx.
  - apply IH, IH, Hx.
  - apply Hf, Hx.
Qed.

Lemma shr_1_nonneg mrs : 0 <= shr_m mrs -> 0 <= shr_m (shr_1 mrs).
Proof.
  destruct mrs as [m r s]. simpl.
  destruct m as [|[p|p|]|[p|p|]]; simpl; lia.
Qed.

Lemma shr_nonneg mrs e n : 0 <= shr_m mrs -> 0 <= shr_m (fst (shr mrs e n)).
Proof.
  intros H. unfold shr. destruct n; simpl; try exact H.
  apply iter_pos_inv; [exact H|apply shr_1_nonneg].
Qed.

Lemma shr_record_of_loc_m m l : shr_m (shr_record_of_loc m l) = m.
Proof. destruct l as [|[| |]]; reflexivity. Qed.

Lemma round_nearest_even_nonneg m l : 0 <= m -> 0 <= round_nearest_even m l.
Proof.
  intros H. unfold round_nearest_even. destruct l as [|[| |]]; try lia.
  destruct (Z.even m); lia.
Qed.

Lemma binary_round_aux_not_nan prec emax s m e l :
  0 <= m -> is_nan (binary_round_aux prec emax s m e l) = false.
Proof.
  intros Hm. unfold binary_round_aux, shr_fexp.
  pose proof (shr_nonneg (shr_record_of_loc m l) e
    (fexp prec emax (Zdigits2 m + e) - e)) as H1.
  rewrite shr_record_of_loc_m in H1. specialize (H1 Hm).
  destruct (shr (shr_record_of_loc m l) e _) as [mrs' e']. simpl in H1.
  pose proof (round_nearest_even_nonneg (shr_m mrs') (loc_of_shr_record mrs') H1) as H2.
  set (m2 := round_nearest_even (shr_m mrs') (loc_of_shr_record mrs')) in *.
  pose proof (shr_nonneg (shr_record_of_loc m2 loc_Exact) e'
    (fexp prec emax (Zdigits2 m2 + e') - e')) as H3.
  rewrite shr_record_of_loc_m in H3. specialize (H3 H2).
  destruct (shr (shr_record_of_loc m2 loc_Exact) e' _) as [mrs'' e'']. simpl in H3.
  destruct (shr_m mrs'') as [|p|p]; try reflexivity; [|lia].
  destruct (e'' <=? emax - prec); reflexivity.
Qed.

Lemma binary_round_not_nan prec emax s m e :
  is_nan (binary_round prec emax s m e) = false.
Proof.
  unfold binary_round. destruct (shl_align m e _) as [mz ez].
  apply binary_round_aux_not_nan. lia.
Qed.

Lemma binary_normalize_not_nan prec emax m e sz :
  is_nan (binary_normalize prec emax m e sz) = false.
Proof.
  destruct m; simpl; [reflexivity| |]; apply binary_round_not_nan.
Qed.

Lemma SFadd_finite_not_nan prec emax x s m e :
  is_nan x = false -> is_nan (SFadd prec emax x (S754_finite s m e)) = false.
Proof.
  destruct x as [sx|sx| |sx mx ex]; simpl; try reflexivity; try discriminate.
  intros _. apply binary_normalize_not_nan.
Qed.

Lemma SFdiv_finite_not_nan prec emax x s m e :
  is_nan x = false -> is_nan (SFdiv prec emax x (S754_finite s m e)) = false.
Proof.
  destruct x as [sx|sx| |sx mx ex]; simpl; try reflexivity; try discriminate.
  intros _. unfold SFdiv_core_binary.
  set (m' := match _ with Z.pos _ => _ | 0 => _ | Z.neg _ => _ end).
  assert (Hm' : 0 <= m').
  { subst m'. destruct (_ - _ - _) eqn:E; try lia.
    rewrite Z.shiftl_mul_pow2 by lia. apply Z.mul_nonneg_nonneg; [lia|].
    apply Z.pow_nonneg. lia. }
  pose proof (Z_div_mod m' (Z.pos m) ltac:(lia)) as Hdiv.
  destruct (Z.div_eucl m' (Z.pos m)) as [q r].
  apply binary_round_aux_not_nan. nia.
Qed.

Lemma iter_pos_nat {A} (f : A -> A) n x :
  SpecFloat.iter_pos f n x = Nat.iter (Pos.to_nat n) f x.
Proof.
  revert x. induction n as [n IH|n IH|]; intros x; cbn [SpecFloat.iter_pos].
  - rewrite !IH, Pos2Nat.inj_xI.
    replace (S (2 * Pos.to_nat n)) with (Pos.to_nat n + S (Pos.to_nat n))%nat by lia.
    rewrite Nat.iter_add, Nat.iter_succ_r. reflexivity.
  - rewrite !IH, Pos2Nat.inj_xO.
    replace (2 * Pos.to_nat n)%nat with (Pos.to_nat n + Pos.to_nat n)%nat by lia.
    rewrite Nat.iter_add. reflexivity.
  - reflexivity.
Qed.

Lemma digits2_shift p k :
  digits2_pos (Pos.iter xO p k) = (digits2_pos p + k)%positive.
Proof.
  induction k as [|k IH] using Pos.peano_ind.
  - simpl. lia.
  - rewrite Pos.iter_succ. simpl. rewrite IH. lia.
Qed.

(** A positive mantissa of [d] digits, [j < d], shifted right [j] times is
    a positive mantissa of [d - j] digits. *)
Lemma shr_1_iter_digits j mrs q :
  shr_m mrs = Zpos q -> (j < Pos.to_nat (digits2_pos q))%nat ->
  exists q', shr_m (Nat.iter j shr_1 mrs) = Zpos q' /\
             Pos.to_nat (digits2_pos q') = (Pos.to_nat (digits2_pos q) - j)%nat.
Proof.
  intros Hq. induction j as [|j IH]; intros Hj.
  - exists q. split; [exact Hq|lia].
  - destruct IH as (q' & Hq' & Hd); [lia|]. simpl.
    destruct (Nat.iter j shr_1 mrs) as [m r s]. simpl in Hq'. subst m.
    destruct q' as [q''|q''|]; simpl in *.
    + exists q''. split; [reflexivity|lia].
    + exists q''. split; [reflexivity|lia].
    + lia.
Qed.

Lemma digits2_succ q :
  digits2_pos (Pos.succ q) = digits2_pos q \/
  digits2_pos (Pos.succ q) = Pos.succ (digits2_pos q).
Proof.
  induction q as [q IH|q IH|]; simpl; auto.
  destruct IH as [->| ->]; auto.
Qed.

Lemma digits2_lower p : 2 ^ (Zpos (digits2_pos p) - 1) <= Zpos p.
Proof.
  induction p as [p IH|p IH|]; simpl digits2_pos.
  - rewrite Pos2Z.inj_succ. replace (Z.succ (Zpos (digits2_pos p)) - 1)
      with (Z.succ (Zpos (digits2_pos p) - 1)) by lia.
    rewrite Z.pow_succ_r by lia. lia.
  - rewrite Pos2Z.inj_succ. replace (Z.succ (Zpos (digits2_pos p)) - 1)
      with (Z.succ (Zpos (digits2_pos p) - 1)) by lia.
    rewrite Z.pow_succ_r by lia. lia.
  - simpl. lia.
Qed.

Lemma digits2_bound p k : 0 <= k -> Zpos p < 2 ^ k -> Zpos (digits2_pos p) <= k.
Proof.
  intros Hk Hp. pose proof (digits2_lower p) as Hl.
  destruct (Z_le_gt_dec (Zpos (digits2_pos p)) k) as [|Hgt]; [assumption|].
  exfalso. assert (2 ^ k <= 2 ^ (Zpos (digits2_pos p) - 1))
    by (apply Z.pow_le_mono_r; lia). lia.
Qed.

Lemma fexp_24 e : -149 <= e - 24 -> fexp prec emax e = e - 24.
Proof. intros H. unfold fexp, emin, prec, emax. lia. Qed.

Lemma shr_pos_digits mrs e q n :
  shr_m mrs = Zpos q -> 0 <= n < Zpos (digits2_pos q) ->
  exists q', shr_m (fst (shr mrs e n)) = Zpos q' /\
             Zpos (digits2_pos q') = Zpos (digits2_pos q) - n /\
             snd (shr mrs e n) = e + n.
Proof.
  intros Hq Hn. unfold shr. destruct n as [|k|k]; [| |lia].
  - exists q. simpl. split; [exact Hq|]. split; lia.
  - simpl fst; simpl snd. rewrite iter_pos_nat.
    destruct (shr_1_iter_digits (Pos.to_nat k) mrs q Hq) as (q' & H1 & H2); [lia|].
    exists q'. split; [exact H1|]. split; [lia|reflexivity].
Qed.

Lemma binary_round_aux_finite s q e l :
  24 <= Zpos (digits2_pos q) -> -149 <= e ->
  Zpos (digits2_pos q) + e <= 127 ->
  exists m e', binary_round_aux prec emax s (Zpos q) e l = S754_finite s m e'.
Proof.
  intros Hd He Hde. unfold binary_round_aux, shr_fexp.
  cbn [Zdigits2]. rewrite fexp_24 by lia.
  destruct (shr_pos_digits (shr_record_of_loc (Zpos q) l) e q
              (Zpos (digits2_pos q) + e - 24 - e))
    as (q1 & Hq1 & Hd1 & He1); [apply shr_record_of_loc_m|lia|].
  destruct (shr (shr_record_of_loc (Zpos q) l) e _) as [mrs1 e1].
  cbn [fst snd] in Hq1, He1. rewrite Hq1.
  assert (Hm2 : exists q2, round_nearest_even (Zpos q1) (loc_of_shr_record mrs1)
                             = Zpos q2 /\
                           24 <= Zpos (digits2_pos q2) <= 25).
  { unfold round_nearest_even.
    assert (Hs : exists q2, Zpos q1 + 1 = Zpos q2 /\ 24 <= Zpos (digits2_pos q2) <= 25).
    { exists (Pos.succ q1). split; [lia|].
      destruct (digits2_succ q1) as [-> | ->]; lia. }
    assert (Hk : exists q2, Zpos q1 = Zpos q2 /\ 24 <= Zpos (digits2_pos q2) <= 25)
      by (exists q1; split; [reflexivity|lia]).
    destruct (loc_of_shr_record mrs1) as [|[| |]]; try exact Hk; try exact Hs.
    destruct (Z.even (Zpos q1)); assumption. }
  destruct Hm2 as (q2 & -> & Hd2). cbn [Zdigits2]. rewrite fexp_24 by lia.
  destruct (shr_pos_digits (shr_record_of_loc (Zpos q2) loc_Exact) e1 q2
              (Zpos (digits2_pos q2) + e1 - 24 - e1))
    as (q3 & Hq3 & Hd3 & He3); [apply shr_record_of_loc_m|lia|].
  destruct (shr (shr_record_of_loc (Zpos q2) loc_Exact) e1 _) as [mrs3 e3].
  cbn [fst snd] in Hq3, He3. rewrite Hq3.
  destruct (Z.leb_spec e3 (emax - prec)) as [_|Hgt]; [eauto|].
  unfold emax, prec in Hgt. lia.
Qed.

Lemma float_of_int_finite n :
  0 < n < 2 ^ 127 -> exists m e, float_of_int n = S754_finite false m e.
Proof.
  intros Hn. destruct n as [|p|p]; try lia.
  unfold float_of_int, binary_normalize, binary_round.
  pose proof (digits2_bound p 127 ltac:(lia) ltac:(lia)) as Hd.
  rewrite fexp_24 by lia. unfold shl_align.
  destruct (Zpos (digits2_pos p) + 0 - 24 - 0) as [|k|k] eqn:Hk.
  - apply binary_round_aux_finite; lia.
  - apply binary_round_aux_finite; lia.
  - apply binary_round_aux_finite; rewrite ?digits2_shift; lia.
Qed.

Lemma add_one_not_nan x : is_nan x = false -> is_nan (add_one x) = false.
Proof.
  intros Hx. unfold add_one.
  assert (Hd : is_nan (double_of_float x) = false).
  { destruct x; try exact Hx. apply binary_round_not_nan. }
  pose proof (SFadd_finite_not_nan 53 1024 (double_of_float x) false
                4503599627370496 (-52) Hd) as Hs.
  change (S754_finite false 4503599627370496 (-52)) with double_one in Hs.
  destruct (SFadd 53 1024 (double_of_float x) double_one); try exact Hs.
  apply binary_round_not_nan.
Qed.

Lemma iter_add_one_not_nan n : is_nan (Nat.iter n add_one fzero) = false.
Proof.
  induction n as [|n IH]; [reflexivity|]. apply add_one_not_nan, IH.
Qed.

(** Dividing by a positive [int] never turns a number into a NaN. *)
Lemma fdiv_int_not_nan x n :
  is_nan x = false -> 0 < n <= INT_MAX ->
  is_nan (fdiv x (float_of_int n)) = false.
Proof.
  intros Hx Hn. destruct (float_of_int_finite n) as (m & e & ->).
  - unfold INT_MAX in Hn. split; [lia|].
    apply Z.le_lt_trans with 2147483647; [lia|]. reflexivity.
  - apply SFdiv_finite_not_nan, Hx.
Qed.

End NotNan.

(** ** Nearest-centroid search *)

(** One step of a scan that keeps the first strict minimum. *)
Lemma scan_step (dist : nat -> float) n md idx :
  md = dist idx ->
  (forall c, c < n -> flt (dist c) md = false) ->
  (forall c, c < idx -> feq (dist c) md = false) ->
  idx < n \/ idx = 0 ->
  let '(md', idx') := if flt (dist n) md then (dist n, n) else (md, idx) in
  md' = dist idx' /\
  (forall c, c < Datatypes.S n -> flt (dist c) md' = false) /\
  (forall c, c < idx' -> feq (dist c) md' = false) /\
  idx' < Datatypes.S n.
Proof.
  intros Hmd Hmin Htie Hidx. destruct (flt (dist n) md) eqn:Hlt; cbv beta iota.
  - split; [reflexivity|]. split; [|split; [|lia]].
    + intros c Hc. destruct (decide (c = n)) as [->|Hne]; [apply flt_irrefl|].
      destruct (flt (dist c) (dist n)) eqn:Hcn; [|reflexivity].
      rewrite <- (Hmin c ltac:(lia)). symmetry.
      apply (flt_trans _ _ _ Hcn Hlt).
    + intros c Hc. destruct (feq (dist c) (dist n)) eqn:Hcn; [|reflexivity].
      rewrite <- (Hmin c Hc). symmetry. apply (feq_flt_trans _ _ _ Hcn Hlt).
  - split; [exact Hmd|]. split; [|split; [exact Htie|lia]].
    intros c Hc. destruct (decide (c = n)) as [->|Hne]; [exact Hlt|].
    apply Hmin. lia.
Qed.

(** The helper of the base version returns a nearest cluster. *)
Lemma find_nearest_cluster_nearest (numClusters numCoords : nat)
    (object : vec) (cl : matrix) :
  0 < numClusters ->
  is_nearest (fun c => euclid_dist_2 numCoords object (nth c cl []))
             numClusters (find_nearest_cluster numClusters numCoords object cl).
Proof.
  intros HK. unfold find_nearest_cluster.
  set (dist := fun c => euclid_dist_2 numCoords object (nth c cl [])).
  match goal with
  | |- is_nearest _ _ (snd ?s) =>
      assert (Hinv : fst s = dist (snd s) /\
        (forall c, c < numClusters -> flt (dist c) (fst s) = false) /\
        (forall c, c < snd s -> feq (dist c) (fst s) = false) /\
        snd s < numClusters)
  end.
  { refine (for_loop_inv (fun n (s : float * nat) =>
      fst s = dist (snd s) /\
      (forall c, c < n -> flt (dist c) (fst s) = false) /\
      (forall c, c < snd s -> feq (dist c) (fst s) = false) /\
      snd s < n) 1 numClusters _ _ _ _ _); [lia| |].
    - simpl. split; [reflexivity|]. split; [|split; [|lia]].
      + intros c Hc. assert (c = 0) as -> by lia. apply flt_irrefl.
      + intros c Hc. lia.
    - intros n [md idx] Hn (H1 & H2 & H3 & H4). simpl in *.
      pose proof (scan_step dist n md idx H1 H2 H3 (or_introl H4)) as Hstep.
      fold (dist n). destruct (flt (dist n) md); exact Hstep. }
  destruct Hinv as (H1 & H2 & H3 & H4). unfold is_nearest.
  rewrite <- H1. auto.
Qed.

(** A loop that rewrites every cell of an array from its own content. *)
Lemma cellwise_loop (h : nat -> float -> float) K (da : vec) :
  length da = K ->
  let da' := for_loop 0 K (fun j da => <[j := h j (rd da j)]> da) da in
  length da' = K /\ forall c, c < K -> rd da' c = h c (rd da c).
Proof.
  intros Hlen.
  cut (let da' := for_loop 0 K (fun j da => <[j := h j (rd da j)]> da) da in
       length da' = K /\
       forall c, c < K ->
         rd da' c = if decide (c < K) then h c (rd da c) else rd da c).
  { cbv zeta. intros [H1 H2]. split; [exact H1|]. intros c Hc.
    rewrite (H2 c Hc). destruct (decide (c < K)); [reflexivity|lia]. }
  cbv zeta.
  refine (for_loop_inv (fun n da' =>
    length da' = K /\
    forall c, c < K ->
      rd da' c = if decide (c < n) then h c (rd da c) else rd da c)
    0 K _ da _ _ _); [lia| |].
  - split; [exact Hlen|]. intros c Hc. destruct (decide (c < 0)); [lia|reflexivity].
  - intros n da' Hn [Hl Hv]. rewrite length_insert. split; [exact Hl|].
    intros c Hc. unfold rd at 1. destruct (decide (c = n)) as [->|Hne].
    + rewrite nth_insert_eq by lia. fold (rd da' n). rewrite (Hv n Hc).
      destruct (decide (n < n)); [lia|].
      destruct (decide (n < Datatypes.S n)); [reflexivity|lia].
    + rewrite nth_insert_ne by lia. fold (rd da' c). rewrite (Hv c Hc).
      destruct (decide (c < n)), (decide (c < Datatypes.S n)); try lia; reflexivity.
Qed.

Section ImprovedSearch.

Variable objects : matrix.
Variables numCoords numClusters : Z.

Local Abbreviation D := (Z.to_nat numCoords).
Local Abbreviation K := (Z.to_nat numClusters).

(** [distArray[c]] holds the squared distance to cluster [c]. *)
Lemma distances_spec cl i c :
  c < K ->
  rd (Improved.distances objects numCoords numClusters cl i) c =
    dist2 objects cl D i c.
Proof.
  intros Hc. unfold Improved.distances, dist2.
  destruct (cellwise_loop
              (fun j _ => sqdiff (rd2 objects i 0) (rd2 cl 0 j)) K
              (replicate K fzero) (length_replicate _ _)) as [Hl0 Hv0].
  cbv zeta in Hl0, Hv0.
  set (da0 := for_loop 0 K _ (replicate K fzero)) in *.
  destruct (decide (1 <= D)) as [HD|HD];
    [|rewrite !for_loop_empty by lia; apply Hv0, Hc].
  cut (let da := for_loop 1 D (fun k da =>
         for_loop 0 K (fun j da =>
           <[j := fadd (rd da j) (sqdiff (rd2 objects i k) (rd2 cl k j))]> da)
           da) da0 in
       length da = K /\
       forall c, c < K ->
         rd da c =
           for_loop 1 D (fun k d =>
             fadd d (sqdiff (rd2 objects i k) (rd2 cl k c)))
             (sqdiff (rd2 objects i 0) (rd2 cl 0 c))).
  { cbv zeta. intros [_ H]. apply H, Hc. }
  cbv zeta.
  refine (for_loop_inv (fun n da =>
    length da = K /\
    forall c, c < K ->
      rd da c =
        for_loop 1 n (fun k d =>
          fadd d (sqdiff (rd2 objects i k) (rd2 cl k c)))
          (sqdiff (rd2 objects i 0) (rd2 cl 0 c)))
    1 D _ da0 _ _ _); [exact HD| |].
  - split; [exact Hl0|]. intros c' Hc'. rewrite for_loop_empty by lia.
    apply Hv0, Hc'.
  - intros n da Hn [Hl Hv].
    destruct (cellwise_loop
                (fun j d => fadd d (sqdiff (rd2 objects i n) (rd2 cl n j)))
                K da Hl) as [Hl' Hv'].
    split; [exact Hl'|]. intros c' Hc'.
    rewrite for_loop_snoc by lia. rewrite <- (Hv c' Hc'). apply Hv', Hc'.
Qed.

(** When some cluster is closer than [INT_MAX], the scan of the improved
    version returns a nearest cluster. *)
Lemma scan_min_nearest (da : vec) :
  (exists c, c < K /\ flt (rd da c) (float_of_int INT_MAX) = true) ->
  is_nearest (rd da) K (snd (Improved.scan_min numClusters da)).
Proof.
  intros (c0 & Hc0 & Hlt0). unfold Improved.scan_min.
  match goal with
  | |- is_nearest _ _ (snd ?s) =>
      assert (Hinv :
        (forall c, c < K -> flt (rd da c) (fst s) = false) /\
        (fst s = float_of_int INT_MAX /\ snd s = 0 \/
         fst s = rd da (snd s) /\ snd s < K /\
         forall c, c < snd s -> feq (rd da c) (fst s) = false))
  end.
  { refine (for_loop_inv (fun n (s : float * nat) =>
      (forall c, c < n -> flt (rd da c) (fst s) = false) /\
      (fst s = float_of_int INT_MAX /\ snd s = 0 \/
       fst s = rd da (snd s) /\ snd s < n /\
       forall c, c < snd s -> feq (rd da c) (fst s) = false))
      0 K _ _ _ _ _); [lia| |].
    - simpl. split; [intros c Hc; lia|left; auto].
    - intros n [md idx] Hn [Hmin Hcase]. simpl in *.
      destruct (flt (rd da n) md) eqn:Hlt; simpl.
      + split.
        * intros c Hc. destruct (decide (c = n)) as [->|Hne]; [apply flt_irrefl|].
          destruct (flt (rd da c) (rd da n)) eqn:Hcn; [|reflexivity].
          rewrite <- (Hmin c ltac:(lia)). symmetry.
          apply (flt_trans _ _ _ Hcn Hlt).
        * right. split; [reflexivity|]. split; [lia|].
          intros c Hc. destruct (feq (rd da c) (rd da n)) eqn:Hcn; [|reflexivity].
          rewrite <- (Hmin c Hc). symmetry.
          apply (feq_flt_trans _ _ _ Hcn Hlt).
      + split.
        * intros c Hc. destruct (decide (c = n)) as [->|Hne]; [exact Hlt|].
          apply Hmin. lia.
        * destruct Hcase as [Hinit|(H1 & H2 & H3)]; [left; exact Hinit|].
          right. split; [exact H1|]. split; [lia|exact H3]. }
  destruct Hinv as [Hmin [[Hmd _]|(H1 & H2 & H3)]].
  - rewrite Hmd in Hmin. rewrite (Hmin c0 Hc0) in Hlt0. discriminate.
  - unfold is_nearest. rewrite <- H1. auto.
Qed.

Lemma nearest_below_INT_MAX cl i :
  (exists c, c < K /\
     flt (dist2 objects cl D i c) (float_of_int INT_MAX) = true) ->
  is_nearest (dist2 objects cl D i) K
             (Improved.nearest objects numCoords numClusters cl i).
Proof.
  intros (c0 & Hc0 & Hlt0). unfold Improved.nearest.
  destruct (scan_min_nearest
              (Improved.distances objects numCoords numClusters cl i))
    as (Hidx & Hmin & Htie).
  { exists c0. split; [exact Hc0|]. rewrite distances_spec by exact Hc0.
    exact Hlt0. }
  set (idx := snd (Improved.scan_min numClusters _)) in *.
  split; [exact Hidx|]. split.
  - intros c Hc. rewrite <- !distances_spec by assumption. apply Hmin, Hc.
  - intros c Hc. rewrite <- !distances_spec by lia. apply Htie, Hc.
Qed.

End ImprovedSearch.

(** ** The convergence loop of the improved version *)

Section ImprovedLoop.

Variable objects : matrix.
Variables numCoords numObjs numClusters : Z.
Variable threshold : float.
Variable nthreads : nat.
Variable tid_of : nat -> nat.
Variable landing : Z -> list (nat * nat).
Variable plan : Z -> reduction_plan.

Local Abbreviation D := (Z.to_nat numCoords).
Local Abbreviation N := (Z.to_nat numObjs).
Local Abbreviation K := (Z.to_nat numClusters).
Local Abbreviation nearest := (Improved.nearest objects numCoords numClusters).
Local Abbreviation iteration :=
  (Improved.iteration objects numCoords numObjs numClusters nthreads tid_of
     landing plan).
Local Abbreviation do_while :=
  (Improved.do_while objects numCoords numObjs numClusters threshold nthreads
     tid_of landing plan).
Local Abbreviation run_kmeans :=
  (Improved.run_kmeans objects numCoords numObjs numClusters threshold
     nthreads tid_of landing plan).

Lemma assign_loop_loop n st :
  Improved.loop
    (for_loop 0 n (Improved.assign_object objects numCoords numClusters tid_of)
       st) = Improved.loop st.
Proof.
  refine (for_loop_inv (fun _ st' => Improved.loop st' = Improved.loop st)
            0 n _ st _ _ _); [lia|reflexivity|].
  intros i st' _ H. exact H.
Qed.

Lemma iteration_loop st : Improved.loop (iteration st) = Improved.loop st.
Proof.
  unfold Improved.iteration, Improved.assignment_pass.
  cbn [Improved.loop Improved.set_delta Improved.set_acc].
  rewrite assign_loop_loop. reflexivity.
Qed.

Lemma do_while_passes fuel st r :
  do_while fuel st = Some r -> 1 <= Improved.passes r.
Proof.
  destruct fuel as [|fuel]; cbn [Improved.do_while]; [discriminate|].
  destruct (flt threshold _); [|intros [= <-]; simpl; lia].
  destruct (_ <? 500)%Z; [|intros [= <-]; simpl; lia].
  destruct (Improved.do_while _ _ _ _ _ _ _ _ _ fuel _); [|discriminate].
  intros [= <-]. simpl. lia.
Qed.

(** With enough fuel the loop returns; its body has then been executed at
    most [501 - loop] times, and exactly that often when the cap ends it. *)
Lemma do_while_returns fuel st :
  (Improved.loop st <= 500)%Z ->
  Z.to_nat (501 - Improved.loop st) <= fuel ->
  exists r,
    do_while fuel st = Some r /\
    (Z.of_nat (Improved.passes r) <= 501 - Improved.loop st)%Z /\
    (Improved.status r = MAX_ITERATIONS_REACHED ->
       Improved.loop (Improved.final r) = 501%Z /\
       Z.of_nat (Improved.passes r) = (501 - Improved.loop st)%Z) /\
    (Improved.status r = CONVERGED ->
       flt threshold (Improved.delta (Improved.final r)) = false).
Proof.
  revert st. induction fuel as [|fuel IH]; intros st Hle Hfuel; [lia|].
  cbn [Improved.do_while]. pose proof (iteration_loop st) as Hloop.
  destruct (flt threshold (Improved.delta (iteration st))) eqn:Hgt.
  - rewrite Hloop. destruct (Z.ltb_spec (Improved.loop st) 500) as [Hlt|Hge].
    + destruct (IH (Improved.set_loop (Improved.loop st + 1) (iteration st)))
        as (r & Hr & Hp & Hmax & Hconv);
        [unfold Improved.set_loop; cbn [Improved.loop]; lia ..|].
      rewrite Hr. eexists. split; [reflexivity|].
      unfold Improved.set_loop in Hp, Hmax; cbn [Improved.loop] in Hp, Hmax.
      cbn [Improved.passes Improved.status Improved.final].
      split; [lia|]. split; [|exact Hconv].
      intros Hs. destruct (Hmax Hs). split; [assumption|lia].
    + eexists. split; [reflexivity|].
      unfold Improved.set_loop.
      cbn [Improved.passes Improved.status Improved.final Improved.loop].
      split; [lia|]. split; [|discriminate]. intros _. lia.
  - eexists. split; [reflexivity|].
    cbn [Improved.passes Improved.status Improved.final].
    split; [lia|]. split; [discriminate|]. intros _. exact Hgt.
Qed.

(** The engine returns on every input, after at most 501 executions of the
    body of its loop. *)
Lemma run_kmeans_returns cl :
  exists r, run_kmeans cl = Some r /\ Improved.passes r <= 501.
Proof.
  destruct (do_while_returns 501
              (Improved.initial numCoords numObjs numClusters cl))
    as (r & Hr & Hp & _);
    [unfold Improved.initial; cbn [Improved.loop]; lia ..|].
  exists r. split; [exact Hr|].
  unfold Improved.initial in Hp; cbn [Improved.loop] in Hp. lia.
Qed.

End ImprovedLoop.

(** ** Assignment pass of the base version *)

Lemma rdz2_insert (L : list (list Z)) j l j' c :
  j < length L ->
  rdz2 (<[j := l]> L) j' c = if decide (j' = j) then rdz l c else rdz2 L j' c.
Proof.
  intros Hj. unfold rdz2. destruct (decide (j' = j)) as [->|Hne].
  - rewrite nth_insert_eq by exact Hj. reflexivity.
  - rewrite nth_insert_ne by congruence. reflexivity.
Qed.

Lemma Zsum_rows_insert (L : list (list Z)) j l :
  j < length L ->
  Zsum (map Zsum (<[j := l]> L)) =
    (Zsum (map Zsum L) - Zsum (nth j L []) + Zsum l)%Z.
Proof.
  intros Hj. change (map Zsum (<[j := l]> L)) with (Zsum <$> <[j := l]> L).
  rewrite list_fmap_insert, Zsum_insert by (rewrite length_fmap; exact Hj).
  unfold rdz. change (Zsum <$> L) with (map Zsum L).
  change 0%Z with (Zsum []). rewrite map_nth. reflexivity.
Qed.

Lemma local_shaped_nth T K L j :
  local_shaped T K L -> j < T -> length (nth j L []) = K.
Proof.
  intros [Hl Hf] Hj. rewrite Forall_forall in Hf. apply Hf.
  apply list_elem_of_In, nth_In. lia.
Qed.

Lemma local_shaped_insert T K L j l :
  local_shaped T K L -> length l = K -> local_shaped T K (<[j := l]> L).
Proof.
  intros [Hl Hf] Hlen. split; [rewrite length_insert; exact Hl|].
  apply Forall_insert; assumption.
Qed.

Lemma Zsum_rows_zero T K L :
  local_shaped T K L ->
  (forall j c, j < T -> c < K -> rdz2 L j c = 0%Z) ->
  Zsum (map Zsum L) = 0%Z.
Proof.
  intros Hsh Hz. apply Zsum_zero. intros j Hj. rewrite length_map in Hj.
  unfold rdz. change 0%Z with (Zsum []). rewrite map_nth.
  destruct Hsh as [Hl Hf]. apply Zsum_zero. intros c Hc.
  apply (Hz j c); [lia|].
  rewrite (local_shaped_nth T K L j) in Hc; [exact Hc|split; assumption|lia].
Qed.

Lemma shaped_wr2_loop R C n (f : nat -> matrix -> nat * nat * float) m :
  shaped R C m ->
  shaped R C (for_loop 0 n (fun j nc =>
                let '(r, c, v) := f j nc in wr2 nc r c v) m).
Proof.
  intros Hm.
  refine (for_loop_inv (fun _ nc => shaped R C nc) 0 n _ m _ _ _);
    [lia|exact Hm|].
  intros j nc _ Hnc. destruct (f j nc) as [[r c] v]. apply shaped_wr2, Hnc.
Qed.

Section BasePass.

Variable is_perform_atomic : Z.
Variable objects : matrix.
Variables numCoords numObjs numClusters : Z.
Variable nthreads : nat.
Variable tid_of : nat -> nat.
Variable landing : Z -> list (nat * nat).
Variable plan : Z -> reduction_plan.
Variable overflow : float -> Z.

Local Abbreviation D := (Z.to_nat numCoords).
Local Abbreviation N := (Z.to_nat numObjs).
Local Abbreviation K := (Z.to_nat numClusters).
Local Abbreviation local_object :=
  (Base.local_object objects numCoords numClusters tid_of).
Local Abbreviation atomic_object :=
  (Base.atomic_object objects numCoords numClusters tid_of overflow).
Local Abbreviation atomic_nearest :=
  (Base.atomic_nearest objects numCoords numClusters overflow).
Local Abbreviation atomic_land :=
  (Base.atomic_land objects numCoords numClusters overflow).
Local Abbreviation reduce_thread := (Base.reduce_thread numCoords numClusters).
Local Abbreviation reduction := (Base.reduction numCoords numClusters nthreads).
Local Abbreviation assignment_pass :=
  (Base.assignment_pass is_perform_atomic objects numCoords numObjs
     numClusters nthreads tid_of landing plan overflow).

Hypothesis tid_bound : forall i, tid_of i < nthreads.
Hypothesis K_positive : (0 < numClusters)%Z.

Lemma atomic_nearest_lt cl i : atomic_nearest cl i < K.
Proof.
  assert (Hrow : forall k s, snd (snd s) < K ->
            snd (snd (Base.atomic_row objects numCoords numClusters overflow
                        cl i k s)) < K).
  { intros k s Hs. unfold Base.atomic_row.
    apply (for_loop_preserves
             (fun s : vec * (float * nat) => snd (snd s) < K)); [exact Hs|].
    intros j [da [md idx]] Hj Hidx. simpl in *.
    destruct (_ && _); simpl; lia. }
  unfold Base.atomic_nearest.
  apply (for_loop_preserves (fun s : vec * (float * nat) => snd (snd s) < K)).
  - apply Hrow. simpl. lia.
  - intros k s _ Hs. apply Hrow, Hs.
Qed.

Lemma find_nearest_cluster_lt object cl :
  find_nearest_cluster K D object cl < K.
Proof.
  destruct (find_nearest_cluster_nearest K D object cl) as [H _]; [lia|exact H].
Qed.

(** The atomic discipline: each object adds one to one shared counter. *)
Lemma atomic_pass_inv st n :
  accum_shaped D K (Base.acc st) ->
  let st' := for_loop 0 n atomic_object st in
  accum_shaped D K (Base.acc st') /\
  Base.local_newClusterSize st' = Base.local_newClusterSize st /\
  length (Base.membership st') = length (Base.membership st) /\
  (forall i, i < length (Base.membership st) -> i < n ->
     (0 <= rdz (Base.membership st') i < numClusters)%Z) /\
  Zsum (newClusterSize (Base.acc st')) =
    (Zsum (newClusterSize (Base.acc st)) + Z.of_nat n)%Z.
Proof.
  intros Hsh. cbv zeta.
  refine (for_loop_inv (fun n st' =>
    accum_shaped D K (Base.acc st') /\
    Base.local_newClusterSize st' = Base.local_newClusterSize st /\
    length (Base.membership st') = length (Base.membership st) /\
    (forall i, i < length (Base.membership st) -> i < n ->
       (0 <= rdz (Base.membership st') i < numClusters)%Z) /\
    Zsum (newClusterSize (Base.acc st')) =
      (Zsum (newClusterSize (Base.acc st)) + Z.of_nat n)%Z)
    0 n _ st _ _ _); [lia| |].
  - split; [exact Hsh|]. do 2 (split; [reflexivity|]). split; [|lia].
    intros i _ Hi. lia.
  - intros m st' Hm ((Hc & Hn & Hl) & Hloc & Hlen & Hmem & Hsum).
    unfold Base.atomic_object, Base.record_membership, Base.set_acc.
    cbn [Base.acc Base.membership Base.local_newClusterSize
         clusters newClusters newClusterSize].
    pose proof (atomic_nearest_lt (clusters (Base.acc st')) m) as Hidx.
    set (index := atomic_nearest (clusters (Base.acc st')) m) in *.
    split; [|split; [exact Hloc|split; [rewrite length_insert; exact Hlen|split]]].
    + unfold accum_shaped; cbn [clusters newClusters newClusterSize].
      split; [exact Hc|]. split; [exact Hn|rewrite length_insert; exact Hl].
    + intros i Hi Him. destruct (decide (i = m)) as [->|Hne].
      * rewrite rdz_insert_eq by lia. lia.
      * rewrite rdz_insert_ne by lia. apply Hmem; lia.
    + rewrite Zsum_insert, Hsum by lia. lia.
Qed.

(** The atomic additions keep the shape of [newClusters]. *)
Lemma atomic_landing_shaped cl (l : list (nat * nat)) nc :
  shaped D K nc ->
  shaped D K (fold_left (fun nc e => atomic_land cl e nc) l nc).
Proof.
  revert nc. induction l as [|[i j] l IH]; intros nc Hnc; [exact Hnc|].
  cbn [fold_left]. apply IH. unfold Base.atomic_land. apply shaped_wr2, Hnc.
Qed.

(** The thread-local discipline: each object adds one to one counter of
    the thread that executes it. *)
Lemma local_pass_inv st n :
  local_shaped nthreads K (Base.local_newClusterSize st) ->
  let st' := for_loop 0 n local_object st in
  Base.acc st' = Base.acc st /\
  local_shaped nthreads K (Base.local_newClusterSize st') /\
  length (Base.membership st') = length (Base.membership st) /\
  (forall i, i < length (Base.membership st) -> i < n ->
     (0 <= rdz (Base.membership st') i < numClusters)%Z) /\
  Zsum (map Zsum (Base.local_newClusterSize st')) =
    (Zsum (map Zsum (Base.local_newClusterSize st)) + Z.of_nat n)%Z.
Proof.
  intros Hsh. cbv zeta.
  refine (for_loop_inv (fun n st' =>
    Base.acc st' = Base.acc st /\
    local_shaped nthreads K (Base.local_newClusterSize st') /\
    length (Base.membership st') = length (Base.membership st) /\
    (forall i, i < length (Base.membership st) -> i < n ->
       (0 <= rdz (Base.membership st') i < numClusters)%Z) /\
    Zsum (map Zsum (Base.local_newClusterSize st')) =
      (Zsum (map Zsum (Base.local_newClusterSize st)) + Z.of_nat n)%Z)
    0 n _ st _ _ _); [lia| |].
  - split; [reflexivity|]. split; [exact Hsh|]. split; [reflexivity|].
    split; [|lia]. intros i _ Hi. lia.
  - intros m st' Hm (Hacc & Hloc & Hlen & Hmem & Hsum).
    unfold Base.local_object, Base.record_membership.
    cbn [Base.acc Base.membership Base.local_newClusterSize].
    pose proof (find_nearest_cluster_lt (nth m objects [])
                  (clusters (Base.acc st'))) as Hidx.
    set (index := find_nearest_cluster K D (nth m objects [])
                    (clusters (Base.acc st'))) in *.
    pose proof (tid_bound m) as Htid.
    pose proof (local_shaped_nth nthreads K _ (tid_of m) Hloc Htid) as Hrow.
    split; [exact Hacc|]. split; [|split; [rewrite length_insert; exact Hlen|split]].
    + apply local_shaped_insert; [exact Hloc|].
      rewrite length_insert. exact Hrow.
    + intros i Hi Him. destruct (decide (i = m)) as [->|Hne].
      * rewrite rdz_insert_eq by lia. lia.
      * rewrite rdz_insert_ne by lia. apply Hmem; lia.
    + rewrite Zsum_rows_insert by (destruct Hloc as [-> _]; exact Htid).
      rewrite Zsum_insert by lia. rewrite Hsum. lia.
Qed.

(** One step of the reduction moves the counter [local[j][i]] into
    [newClusterSize[i]]. *)
Lemma reduce_thread_spec i j st :
  i < K -> j < nthreads ->
  accum_shaped D K (Base.acc st) ->
  local_shaped nthreads K (Base.local_newClusterSize st) ->
  let st' := reduce_thread i j st in
  accum_shaped D K (Base.acc st') /\
  local_shaped nthreads K (Base.local_newClusterSize st') /\
  Base.membership st' = Base.membership st /\
  (Zsum (newClusterSize (Base.acc st')) +
   Zsum (map Zsum (Base.local_newClusterSize st')) =
   Zsum (newClusterSize (Base.acc st)) +
   Zsum (map Zsum (Base.local_newClusterSize st)))%Z /\
  (forall j' c,
     rdz2 (Base.local_newClusterSize st') j' c =
       if decide (j' = j /\ c = i) then 0%Z
       else rdz2 (Base.local_newClusterSize st) j' c).
Proof using numCoords numClusters nthreads K_positive.
  intros Hi Hj (Hc & Hn & Hl) Hloc. cbv zeta. unfold Base.reduce_thread.
  pose proof (local_shaped_nth nthreads K _ j Hloc Hj) as Hrow.
  assert (Hj' : j < length (Base.local_newClusterSize st))
    by (destruct Hloc as [-> _]; exact Hj).
  match goal with
  | |- context [for_loop 0 D ?body ?init] =>
      assert (Hnc : shaped D K (fst (for_loop 0 D body init)));
      [|destruct (for_loop 0 D body init) as [nc' lc']]
  end.
  { apply (for_loop_preserves (fun s : matrix * matrix => shaped D K (fst s)));
      [exact Hn|].
    intros k [nc lc] _ Hs. simpl in *. unfold wr_block. apply shaped_wr2, Hs. }
  cbn [Base.acc Base.membership Base.local_newClusterSize
       clusters newClusters newClusterSize fst] in *.
  split; [|split; [|split; [reflexivity|split]]].
  - unfold accum_shaped; cbn [clusters newClusters newClusterSize].
    split; [exact Hc|]. split; [exact Hnc|]. rewrite length_insert. exact Hl.
  - apply local_shaped_insert; [exact Hloc|]. rewrite length_insert. exact Hrow.
  - rewrite Zsum_rows_insert by exact Hj'. rewrite !Zsum_insert by lia. lia.
  - intros j' c. rewrite rdz2_insert by exact Hj'.
    destruct (decide (j' = j)) as [->|Hne].
    + destruct (decide (c = i)) as [->|Hci].
      * rewrite rdz_insert_eq by lia.
        destruct (decide (j = j /\ i = i)); [reflexivity|exfalso; apply n; split; reflexivity].
      * rewrite rdz_insert_ne by congruence.
        destruct (decide (j = j /\ c = i)) as [[_ ?]|?]; [contradiction|reflexivity].
    + destruct (decide (j' = j /\ c = i)) as [[? _]|?]; [contradiction|reflexivity].
Qed.

Lemma reduce_cluster_spec i st :
  i < K ->
  accum_shaped D K (Base.acc st) ->
  local_shaped nthreads K (Base.local_newClusterSize st) ->
  let st' := for_loop 0 nthreads (reduce_thread i) st in
  accum_shaped D K (Base.acc st') /\
  local_shaped nthreads K (Base.local_newClusterSize st') /\
  Base.membership st' = Base.membership st /\
  (Zsum (newClusterSize (Base.acc st')) +
   Zsum (map Zsum (Base.local_newClusterSize st')) =
   Zsum (newClusterSize (Base.acc st)) +
   Zsum (map Zsum (Base.local_newClusterSize st)))%Z /\
  (forall j' c, j' < nthreads ->
     rdz2 (Base.local_newClusterSize st') j' c =
       if decide (c = i) then 0%Z
       else rdz2 (Base.local_newClusterSize st) j' c).
Proof using numCoords numClusters nthreads K_positive.
  intros Hi Hacc Hloc.
  cut (let st' := for_loop 0 nthreads (reduce_thread i) st in
       accum_shaped D K (Base.acc st') /\
       local_shaped nthreads K (Base.local_newClusterSize st') /\
       Base.membership st' = Base.membership st /\
       (Zsum (newClusterSize (Base.acc st')) +
        Zsum (map Zsum (Base.local_newClusterSize st')) =
        Zsum (newClusterSize (Base.acc st)) +
        Zsum (map Zsum (Base.local_newClusterSize st)))%Z /\
       (forall j' c,
          rdz2 (Base.local_newClusterSize st') j' c =
            if decide (j' < nthreads /\ c = i) then 0%Z
            else rdz2 (Base.local_newClusterSize st) j' c)).
  { cbv zeta. intros (H1 & H2 & H3 & H4 & H5).
    repeat (split; [assumption|]). intros j' c Hj'. rewrite H5.
    destruct (decide (j' < nthreads /\ c = i)), (decide (c = i));
      try reflexivity; exfalso; lia. }
  cbv zeta.
  refine (for_loop_inv (fun n st' =>
    accum_shaped D K (Base.acc st') /\
    local_shaped nthreads K (Base.local_newClusterSize st') /\
    Base.membership st' = Base.membership st /\
    (Zsum (newClusterSize (Base.acc st')) +
     Zsum (map Zsum (Base.local_newClusterSize st')) =
     Zsum (newClusterSize (Base.acc st)) +
     Zsum (map Zsum (Base.local_newClusterSize st)))%Z /\
    (forall j' c,
       rdz2 (Base.local_newClusterSize st') j' c =
         if decide (j' < n /\ c = i) then 0%Z
         else rdz2 (Base.local_newClusterSize st) j' c))
    0 nthreads _ st _ _ _); [lia| |].
  - do 2 (split; [assumption|]). do 2 (split; [reflexivity|]).
    intros j' c. destruct (decide (j' < 0 /\ c = i)); [lia|reflexivity].
  - intros n st' Hn (Hacc' & Hloc' & Hmem & Hsum & Hz).
    destruct (reduce_thread_spec i n st' Hi ltac:(lia) Hacc' Hloc')
      as (H1 & H2 & H3 & H4 & H5).
    do 2 (split; [assumption|]). split; [congruence|]. split; [lia|].
    intros j' c. rewrite H5, Hz.
    destruct (decide (j' = n /\ c = i)), (decide (j' < n /\ c = i)),
             (decide (j' < Datatypes.S n /\ c = i));
      try reflexivity; exfalso; lia.
Qed.

(** The array reduction empties every per-thread counter into the shared
    one. *)
Lemma reduction_spec st :
  accum_shaped D K (Base.acc st) ->
  local_shaped nthreads K (Base.local_newClusterSize st) ->
  let st' := reduction st in
  accum_shaped D K (Base.acc st') /\
  local_shaped nthreads K (Base.local_newClusterSize st') /\
  Base.membership st' = Base.membership st /\
  (Zsum (newClusterSize (Base.acc st')) +
   Zsum (map Zsum (Base.local_newClusterSize st')) =
   Zsum (newClusterSize (Base.acc st)) +
   Zsum (map Zsum (Base.local_newClusterSize st)))%Z /\
  (forall j' c, j' < nthreads -> c < K ->
     rdz2 (Base.local_newClusterSize st') j' c = 0%Z).
Proof using numCoords numClusters nthreads K_positive.
  intros Hacc Hloc.
  cut (let st' := reduction st in
       accum_shaped D K (Base.acc st') /\
       local_shaped nthreads K (Base.local_newClusterSize st') /\
       Base.membership st' = Base.membership st /\
       (Zsum (newClusterSize (Base.acc st')) +
        Zsum (map Zsum (Base.local_newClusterSize st')) =
        Zsum (newClusterSize (Base.acc st)) +
        Zsum (map Zsum (Base.local_newClusterSize st)))%Z /\
       (forall j' c, j' < nthreads ->
          rdz2 (Base.local_newClusterSize st') j' c =
            if decide (c < K) then 0%Z
            else rdz2 (Base.local_newClusterSize st) j' c)).
  { cbv zeta. intros (H1 & H2 & H3 & H4 & H5).
    repeat (split; [assumption|]). intros j' c Hj' Hc. rewrite H5 by exact Hj'.
    destruct (decide (c < K)); [reflexivity|lia]. }
  cbv zeta. unfold Base.reduction.
  refine (for_loop_inv (fun n st' =>
    accum_shaped D K (Base.acc st') /\
    local_shaped nthreads K (Base.local_newClusterSize st') /\
    Base.membership st' = Base.membership st /\
    (Zsum (newClusterSize (Base.acc st')) +
     Zsum (map Zsum (Base.local_newClusterSize st')) =
     Zsum (newClusterSize (Base.acc st)) +
     Zsum (map Zsum (Base.local_newClusterSize st)))%Z /\
    (forall j' c, j' < nthreads ->
       rdz2 (Base.local_newClusterSize st') j' c =
         if decide (c < n) then 0%Z
         else rdz2 (Base.local_newClusterSize st) j' c))
    0 K _ st _ _ _); [lia| |].
  - do 2 (split; [assumption|]). do 2 (split; [reflexivity|]).
    intros j' c _. destruct (decide (c < 0)); [lia|reflexivity].
  - intros n st' Hn (Hacc' & Hloc' & Hmem & Hsum & Hz).
    destruct (reduce_cluster_spec n st' ltac:(lia) Hacc' Hloc')
      as (H1 & H2 & H3 & H4 & H5).
    do 2 (split; [assumption|]). split; [congruence|]. split; [lia|].
    intros j' c Hj'. rewrite H5, Hz by exact Hj'.
    destruct (decide (c = n)), (decide (c < n)), (decide (c < Datatypes.S n));
      try reflexivity; exfalso; lia.
Qed.

Lemma local_loop_copies_length st n :
  length (Base.copies (for_loop 0 n local_object st)) = length (Base.copies st).
Proof.
  apply (for_loop_preserves
           (fun st' => length (Base.copies st') = length (Base.copies st)));
    [reflexivity|].
  intros i st' _ H. unfold Base.local_object, Base.record_membership.
  cbn [Base.copies Base.membership].
  destruct (negb _); [rewrite length_insert|]; exact H.
Qed.

(** What an assignment pass of the base version, under either discipline,
    leaves behind when it is entered at the head of the loop. *)
Lemma base_pass_spec st :
  Base.clean numCoords numObjs numClusters nthreads st ->
  let st1 := assignment_pass st in
  accum_shaped D K (Base.acc st1) /\
  local_shaped nthreads K (Base.local_newClusterSize st1) /\
  (forall j c, j < nthreads -> c < K ->
     rdz2 (Base.local_newClusterSize st1) j c = 0%Z) /\
  length (Base.membership st1) = N /\
  (forall i, i < N -> (0 <= rdz (Base.membership st1) i < numClusters)%Z) /\
  Zsum (newClusterSize (Base.acc st1)) = Z.of_nat N.
Proof.
  intros (Hacc & Hlen & Hz & Hloc & Hlz). cbv zeta.
  assert (Hzero : Zsum (newClusterSize (Base.acc st)) = 0%Z).
  { apply Zsum_zero. intros c Hc. apply Hz. destruct Hacc as (_ & _ & <-). exact Hc. }
  assert (Hlzero : Zsum (map Zsum (Base.local_newClusterSize st)) = 0%Z)
    by (apply (Zsum_rows_zero nthreads K); assumption).
  unfold Base.assignment_pass.
  set (st0 := Base.set_copies (replicate nthreads fzero) st).
  destruct (negb (is_perform_atomic =? 0)%Z).
  - destruct (atomic_pass_inv st0 N Hacc) as ((H1c & H1n & H1l) & H2 & H3 & H4 & H5).
    unfold Base.combine_delta.
    cbn [Base.acc Base.membership Base.local_newClusterSize Base.set_acc
         Base.set_delta set_newClusters clusters newClusters newClusterSize].
    rewrite H2. split; [|split; [exact Hloc|split; [exact Hlz|]]].
    + split; [exact H1c|]. split; [|exact H1l].
      apply atomic_landing_shaped, H1n.
    + split; [rewrite H3; exact Hlen|]. split; [|rewrite H5; simpl; lia].
      intros i Hi. apply H4; [simpl|]; lia.
  - destruct (local_pass_inv st0 N Hloc) as (H1 & H2 & H3 & H4 & H5).
    set (stl := for_loop 0 N local_object st0) in *.
    set (st2 := Base.combine_delta plan stl).
    destruct (reduction_spec st2) as (R1 & R2 & R3 & R4 & R5);
      [change (Base.acc st2) with (Base.acc stl); rewrite H1; exact Hacc
      |exact H2|].
    change (Base.membership st2) with (Base.membership stl) in R3.
    change (Base.acc st2) with (Base.acc stl) in R4.
    change (Base.local_newClusterSize st2)
      with (Base.local_newClusterSize stl) in R4.
    split; [exact R1|]. split; [exact R2|]. split; [exact R5|]. rewrite R3.
    split; [rewrite H3; exact Hlen|].
    split; [intros i Hi; apply H4; [simpl|]; lia|].
    rewrite (Zsum_rows_zero nthreads K _ R2 R5) in R4. rewrite H1 in R4.
    simpl in R4, H5. lia.
Qed.

Lemma reduction_clusters st :
  clusters (Base.acc (reduction st)) = clusters (Base.acc st).
Proof.
  unfold Base.reduction.
  apply (for_loop_preserves
           (fun st' => clusters (Base.acc st') = clusters (Base.acc st)));
    [reflexivity|].
  intros i st' _ H.
  apply (for_loop_preserves
           (fun st' => clusters (Base.acc st') = clusters (Base.acc st)));
    [exact H|].
  intros j st'' _ H'. unfold Base.reduce_thread.
  destruct (for_loop 0 D _ _) as [nc' lc']. exact H'.
Qed.

Lemma base_pass_clusters st :
  clusters (Base.acc (assignment_pass st)) = clusters (Base.acc st).
Proof.
  unfold Base.assignment_pass. destruct (negb (is_perform_atomic =? 0)%Z).
  - unfold Base.combine_delta.
    cbn [Base.acc Base.set_acc Base.set_delta set_newClusters clusters].
    apply (for_loop_preserves
             (fun st' => clusters (Base.acc st') = clusters (Base.acc st)));
      [reflexivity|].
    intros i st' _ H. exact H.
  - rewrite reduction_clusters. unfold Base.combine_delta.
    cbn [Base.acc Base.set_delta].
    apply (for_loop_preserves
             (fun st' => clusters (Base.acc st') = clusters (Base.acc st)));
      [reflexivity|].
    intros i st' _ H. exact H.
Qed.

Local Abbreviation base_iteration :=
  (Base.iteration is_perform_atomic objects numCoords numObjs numClusters
     nthreads tid_of landing plan overflow).
Local Abbreviation base_clean :=
  (Base.clean numCoords numObjs numClusters nthreads).

Lemma base_clean_initial cl :
  shaped D K cl ->
  base_clean (Base.initial numCoords numObjs numClusters nthreads cl).
Proof.
  intros Hcl. unfold Base.clean, Base.initial, accum_shaped, zeros.
  cbn [Base.acc Base.membership Base.local_newClusterSize
       clusters newClusters newClusterSize].
  assert (Hz : forall c, c < K -> rdz (replicate K 0%Z) c = 0%Z).
  { intros c Hc. unfold rdz. rewrite nth_lookup, lookup_replicate_2 by exact Hc.
    reflexivity. }
  split; [split; [exact Hcl|split; [apply shaped_zeros2|apply length_replicate]]|].
  split; [apply length_replicate|]. split; [exact Hz|]. split.
  - split; [apply length_replicate|]. apply Forall_replicate, length_replicate.
  - intros j c Hj Hc. unfold rdz2.
    rewrite (nth_lookup (replicate nthreads _)), lookup_replicate_2 by exact Hj.
    apply Hz, Hc.
Qed.

Lemma base_clean_iteration st : base_clean st -> base_clean (base_iteration st).
Proof.
  intros Hst. pose proof Hst as (Hacc & Hlen & Hz & Hloc & Hlz).
  destruct (base_pass_spec (Base.set_delta fzero st) Hst)
    as (H1 & H2 & H3 & H4 & _).
  destruct (update_centroids_spec D K _ H1) as [Hsh Hupd].
  unfold Base.iteration, Base.clean.
  cbn [Base.acc Base.membership Base.local_newClusterSize Base.set_delta
       Base.set_acc].
  split; [exact Hsh|]. split; [exact H4|].
  split; [intros c Hc; apply (Hupd c Hc)|]. split; [exact H2|exact H3].
Qed.

Lemma base_loop_head_clean cl st :
  shaped D K cl ->
  Base.loop_head is_perform_atomic objects numCoords numObjs numClusters
    nthreads tid_of landing plan overflow cl st ->
  base_clean st.
Proof.
  intros Hcl Hst. induction Hst as [|st Hst IH].
  - apply base_clean_initial, Hcl.
  - apply base_clean_iteration in IH. exact IH.
Qed.

End BasePass.

(** ** From the loop to the output of the improved version *)

Section ImprovedOutput.

Variable objects : matrix.
Variables numCoords numObjs numClusters : Z.
Variable threshold : float.
Variable nthreads : nat.
Variable tid_of : nat -> nat.
Variable landing : Z -> list (nat * nat).
Variable plan : Z -> reduction_plan.
Variable cl0 : matrix.

Local Abbreviation N := (Z.to_nat numObjs).
Local Abbreviation D := (Z.to_nat numCoords).
Local Abbreviation K := (Z.to_nat numClusters).
Local Abbreviation iteration :=
  (Improved.iteration objects numCoords numObjs numClusters nthreads tid_of
     landing plan).
Local Abbreviation loop_head :=
  (Improved.loop_head objects numCoords numObjs numClusters nthreads tid_of
     landing plan cl0).

(** Every execution of the body starts in a [loop_head] state, and the
    final state is the one its last execution leaves. *)
Lemma final_from_head fuel st r :
  loop_head st ->
  Improved.do_while objects numCoords numObjs numClusters threshold nthreads
    tid_of landing plan fuel st = Some r ->
  exists st',
    loop_head st' /\
    (Improved.final r = iteration st' \/
     Improved.final r =
       Improved.set_loop (Improved.loop (iteration st') + 1) (iteration st')).
Proof.
  revert st r. induction fuel as [|fuel IH]; intros st r Hst; [discriminate|].
  cbn [Improved.do_while].
  destruct (flt threshold _).
  - destruct (_ <? 500)%Z.
    + destruct (Improved.do_while _ _ _ _ _ _ _ _ _ fuel _) as [r'|] eqn:Hr';
        [|discriminate].
      intros [= <-]. cbn [Improved.final].
      refine (IH _ r' _ Hr'). apply Improved.head_again, Hst.
    + intros [= <-]. exists st. split; [exact Hst|]. right. reflexivity.
  - intros [= <-]. exists st. split; [exact Hst|]. left. reflexivity.
Qed.

(** The membership array handed back to the caller has one entry per
    object, each a cluster index in [0, numClusters). *)
Lemma output_entries_in_range a out :
  shaped D K cl0 -> (0 < numClusters)%Z ->
  Improved.omp_kmeans a objects numCoords numObjs numClusters threshold
    nthreads tid_of landing plan cl0 = Some out ->
  length (out_membership out) = N /\
  forall i, i < N -> (0 <= rdz (out_membership out) i < numClusters)%Z.
Proof.
  intros Hcl HK. unfold Improved.omp_kmeans, Improved.run_kmeans.
  destruct (Improved.do_while _ _ _ _ _ _ _ _ _ 501 _) as [r|] eqn:Hr;
    [|discriminate].
  intros [= <-]. cbn [out_membership].
  destruct (final_from_head 501 _ r
              (Improved.head_initial _ _ _ _ _ _ _ _ _) Hr)
    as (st & Hst & Hfinal).
  pose proof (improved_entries_in_range objects numCoords numObjs
                numClusters nthreads tid_of landing plan cl0 Hcl HK st Hst)
    as Hrange.
  destruct Hfinal as [-> | ->]; exact Hrange.
Qed.

End ImprovedOutput.

(** ** The assignment pass in both versions *)

Section BothVersions.

Variable is_perform_atomic : Z.
Variable objects : matrix.
Variables numCoords numObjs numClusters : Z.
Variable nthreads : nat.
Variable tid_of : nat -> nat.
Variable landing : Z -> list (nat * nat).
Variable plan : Z -> reduction_plan.
Variable overflow : float -> Z.
Variable cl0 : matrix.

Local Abbreviation D := (Z.to_nat numCoords).
Local Abbreviation N := (Z.to_nat numObjs).
Local Abbreviation K := (Z.to_nat numClusters).
Local Abbreviation improved_head :=
  (Improved.loop_head objects numCoords numObjs numClusters nthreads tid_of
     landing plan cl0).
Local Abbreviation improved_pass :=
  (Improved.assignment_pass objects numCoords numObjs numClusters nthreads
     tid_of landing plan).
Local Abbreviation base_head :=
  (Base.loop_head is_perform_atomic objects numCoords numObjs numClusters
     nthreads tid_of landing plan overflow cl0).
Local Abbreviation base_pass :=
  (Base.assignment_pass is_perform_atomic objects numCoords numObjs
     numClusters nthreads tid_of landing plan overflow).

Hypothesis cl0_shaped : shaped D K cl0.
Hypothesis K_positive : (0 < numClusters)%Z.
Hypothesis tid_bound : forall i, tid_of i < nthreads.

Local Abbreviation improved_in_bounds :=
  (Improved.in_bounds objects numCoords numObjs).
Local Abbreviation base_in_bounds :=
  (Base.in_bounds is_perform_atomic objects numCoords numObjs numClusters).

Lemma base_pass_at_head st :
  base_head st ->
  let st1 := base_pass (Base.set_delta fzero st) in
  accum_shaped D K (Base.acc st1) /\
  clusters (Base.acc st1) = clusters (Base.acc st) /\
  length (Base.membership st1) = N /\
  (forall i, i < N -> (0 <= rdz (Base.membership st1) i < numClusters)%Z) /\
  Zsum (newClusterSize (Base.acc st1)) = Z.of_nat N.
Proof.
  intros Hst. cbv zeta.
  pose proof (base_loop_head_clean is_perform_atomic objects numCoords numObjs
                numClusters nthreads tid_of landing plan overflow tid_bound
                K_positive cl0 st cl0_shaped Hst) as Hclean.
  destruct (base_pass_spec is_perform_atomic objects numCoords numObjs
              numClusters nthreads tid_of landing plan overflow tid_bound
              K_positive (Base.set_delta fzero st) Hclean)
    as (H1 & _ & _ & H4 & H5 & H6).
  split; [exact H1|]. split; [|auto].
  apply (base_pass_clusters is_perform_atomic objects numCoords numObjs
           numClusters nthreads tid_of landing plan overflow
           (Base.set_delta fzero st)).
Qed.

(** C6: after every assignment pass, in the improved version and under
    either discipline of the base version, the membership array has one
    entry per object and each entry is a cluster index in
    [0, numClusters); this for every number of threads, every schedule,
    every landing order of the atomic additions and every reduction of
    [delta]. *)
Theorem membership_in_range :
  (improved_in_bounds -> forall st, improved_head st ->
     let st1 := improved_pass (Improved.set_delta fzero st) in
     length (Improved.membership st1) = N /\
     forall i, i < N ->
       (0 <= rdz (Improved.membership st1) i < numClusters)%Z) /\
  (base_in_bounds -> forall st, base_head st ->
     let st1 := base_pass (Base.set_delta fzero st) in
     length (Base.membership st1) = N /\
     forall i, i < N ->
       (0 <= rdz (Base.membership st1) i < numClusters)%Z).
Proof.
  split.
  - intros _ st Hst.
    apply (improved_entries_in_range objects numCoords numObjs numClusters
             nthreads tid_of landing plan cl0 cl0_shaped K_positive st Hst).
  - intros _ st Hst. destruct (base_pass_at_head st Hst) as (_ & _ & H3 & H4 & _).
    split; assumption.
Qed.

(** C7: after every assignment pass the member counts of the clusters add
    up to the number of objects: in the improved version, and in the base
    version under the atomic discipline and under the thread-local one,
    there after the serial reduction of the per-thread counters. *)
Theorem member_counts_sum :
  (improved_in_bounds -> forall st, improved_head st ->
     Zsum (newClusterSize (Improved.acc
             (improved_pass (Improved.set_delta fzero st)))) = Z.of_nat N) /\
  (base_in_bounds -> forall st, base_head st ->
     Zsum (newClusterSize (Base.acc
             (base_pass (Base.set_delta fzero st)))) = Z.of_nat N).
Proof.
  split.
  - intros _ st Hst.
    apply (improved_counts_add_up objects numCoords numObjs numClusters
             nthreads tid_of landing plan cl0 cl0_shaped K_positive st Hst).
  - intros _ st Hst. apply (base_pass_at_head st Hst).
Qed.

End BothVersions.

(** ** Sums of binary32 values that are exact *)

Section Exact.

Local Open Scope Z_scope.

Lemma nat_iter_xO q k : Zpos (Nat.iter k xO q) = Zpos q * 2 ^ Z.of_nat k.
Proof.
  induction k as [|k IH]; [simpl; lia|].
  rewrite Nat2Z.inj_succ, Z.pow_succ_r by lia. cbn [Nat.iter nat_rect].
  rewrite Pos2Z.inj_xO. unfold Nat.iter in IH. rewrite IH. lia.
Qed.

Lemma pos_iter_nat {A} (f : A -> A) x k :
  Pos.iter f x k = Nat.iter (Pos.to_nat k) f x.
Proof. apply Pos2Nat.inj_iter. Qed.

Lemma digits2_iter q k :
  Zpos (digits2_pos (Nat.iter k xO q)) = Zpos (digits2_pos q) + Z.of_nat k.
Proof.
  induction k as [|k IH]; [simpl; lia|].
  cbn [Nat.iter nat_rect digits2_pos]. unfold Nat.iter in IH. lia.
Qed.

Lemma shr_1_exact k q :
  Nat.iter k shr_1
    {| shr_m := Zpos (Nat.iter k xO q); shr_r := false; shr_s := false |} =
  {| shr_m := Zpos q; shr_r := false; shr_s := false |}.
Proof.
  induction k as [|k IH]; [reflexivity|].
  rewrite Nat.iter_succ_r. cbn [Nat.iter nat_rect shr_1 orb].
  exact IH.
Qed.

(** A mantissa of [p] digits with an exponent in range is left as it is. *)
Lemma binary_round_aux_canonical p emx s q e :
  Zpos (digits2_pos q) = p -> 3 - emx - p <= e <= emx - p ->
  binary_round_aux p emx s (Zpos q) e loc_Exact = S754_finite s q e.
Proof.
  intros Hd He. unfold binary_round_aux, shr_fexp. cbn [Zdigits2].
  assert (Hf : fexp p emx (Zpos (digits2_pos q) + e) - e = 0)
    by (unfold fexp, emin; lia).
  rewrite Hf. cbn [shr shr_record_of_loc shr_m loc_of_shr_record
                   round_nearest_even Zdigits2].
  rewrite Hf. cbn [shr shr_record_of_loc shr_m].
  destruct (Z.leb_spec e (emx - p)); [reflexivity|lia].
Qed.

(** Rounding a value that a mantissa [q] of [p] digits and an exponent [e]
    in range represent gives that mantissa and that exponent, whatever
    mantissa and exponent the value comes with. *)
Lemma binary_round_exact p emx s m ex q e (k : nat) :
  Zpos (digits2_pos q) = p -> 3 - emx - p <= e <= emx - p ->
  (m = Nat.iter k xO q /\ ex = e - Z.of_nat k) \/
  (q = Nat.iter k xO m /\ ex = e + Z.of_nat k) ->
  binary_round p emx s m ex = S754_finite s q e.
Proof.
  intros Hd He [[Hm Hex]|[Hq Hex]].
  - pose proof (digits2_iter q k) as Hdm. rewrite <- Hm in Hdm.
    unfold binary_round.
    assert (Hf : fexp p emx (Zpos (digits2_pos m) + ex) = e)
      by (unfold fexp, emin; lia).
    rewrite Hf. unfold shl_align.
    assert (Haux : binary_round_aux p emx s (Zpos m) ex loc_Exact =
                   S754_finite s q e).
    { rewrite <- (binary_round_aux_canonical p emx s q e Hd He).
      unfold binary_round_aux.
      assert (Hs : shr_fexp p emx (Zpos m) ex loc_Exact =
                   shr_fexp p emx (Zpos q) e loc_Exact).
      { unfold shr_fexp. cbn [Zdigits2]. rewrite Hf.
        assert (Hf' : fexp p emx (Zpos (digits2_pos q) + e) - e = 0)
          by (unfold fexp, emin; lia).
        rewrite Hf'. cbn [shr shr_record_of_loc].
        destruct k as [|k'].
        - simpl in Hm, Hex. subst m. replace (e - ex) with 0 by lia.
          cbn [shr]. f_equal. lia.
        - replace (e - ex) with (Zpos (Pos.of_succ_nat k')) by lia.
          cbn [shr]. rewrite iter_pos_nat, SuccNat2Pos.id_succ, Hm, shr_1_exact.
          f_equal. lia. }
      rewrite Hs. reflexivity. }
    destruct (e - ex) eqn:E; [exact Haux|exact Haux|lia].
  - pose proof (digits2_iter m k) as Hdq. rewrite <- Hq in Hdq.
    unfold binary_round.
    assert (Hf : fexp p emx (Zpos (digits2_pos m) + ex) = e)
      by (unfold fexp, emin; lia).
    rewrite Hf. unfold shl_align.
    destruct k as [|k'].
    + simpl in Hq, Hex. subst q. replace (e - ex) with 0 by lia.
      replace ex with e by lia.
      apply binary_round_aux_canonical; assumption.
    + replace (e - ex) with (Zneg (Pos.of_succ_nat k')) by lia.
      change (PosDef.Pos.iter xO m (Pos.of_succ_nat k'))
        with (Pos.iter xO m (Pos.of_succ_nat k')).
      rewrite pos_iter_nat, SuccNat2Pos.id_succ, <- Hq.
      apply binary_round_aux_canonical; assumption.
Qed.

Lemma pow2_pos z : 0 < 2 ^ z \/ z < 0.
Proof.
  destruct (Z_lt_ge_dec z 0); [right; assumption|left].
  apply Z.pow_pos_nonneg; lia.
Qed.

(** The same, the two representations compared through their values
    scaled by [2 ^ c]. *)
Lemma binary_round_value p emx s m ex q e c :
  Zpos (digits2_pos q) = p -> 3 - emx - p <= e <= emx - p ->
  0 <= ex + c -> 0 <= e + c ->
  Zpos m * 2 ^ (ex + c) = Zpos q * 2 ^ (e + c) ->
  binary_round p emx s m ex = S754_finite s q e.
Proof.
  intros Hd He Hexc Hec Hv.
  destruct (Z_le_gt_dec ex e) as [Hle|Hgt].
  - apply (binary_round_exact p emx s m ex q e (Z.to_nat (e - ex)) Hd He).
    left. split; [|lia].
    assert (Hz : Zpos m = Zpos (Nat.iter (Z.to_nat (e - ex)) xO q)).
    { rewrite nat_iter_xO, Z2Nat.id by lia.
      replace (e + c) with ((e - ex) + (ex + c)) in Hv by lia.
      rewrite (Z.pow_add_r 2 (e - ex) (ex + c)) in Hv by lia.
      apply (Z.mul_reg_r _ _ (2 ^ (ex + c)));
        [destruct (pow2_pos (ex + c)); lia|].
      rewrite Hv. ring. }
    congruence.
  - apply (binary_round_exact p emx s m ex q e (Z.to_nat (ex - e)) Hd He).
    right. split; [|lia].
    assert (Hz : Zpos q = Zpos (Nat.iter (Z.to_nat (ex - e)) xO m)).
    { rewrite nat_iter_xO, Z2Nat.id by lia.
      replace (ex + c) with ((ex - e) + (e + c)) in Hv by lia.
      rewrite (Z.pow_add_r 2 (ex - e) (e + c)) in Hv by lia.
      apply (Z.mul_reg_r _ _ (2 ^ (e + c)));
        [destruct (pow2_pos (e + c)); lia|].
      rewrite <- Hv. ring. }
    congruence.
Qed.

Lemma shl_align_value m ex ex' :
  ex' <= ex ->
  Zpos (fst (shl_align m ex ex')) = Zpos m * 2 ^ (ex - ex').
Proof.
  intros Hle. unfold shl_align. destruct (ex' - ex) as [|d|d] eqn:E; try lia.
  - replace (ex - ex') with 0 by lia. cbn [fst]. lia.
  - cbn [fst].
    change (PosDef.Pos.iter xO m d) with (Pos.iter xO m d).
    rewrite pos_iter_nat, nat_iter_xO, positive_nat_Z.
    f_equal. f_equal. lia.
Qed.

(** An [int] from 1 to 2^24 is a binary32 value: its mantissa of 24 digits
    and its exponent. *)
Lemma float_of_int_exact n :
  0 < n <= 16777216 ->
  exists q e,
    float_of_int n = S754_finite false q e /\
    Zpos (digits2_pos q) = 24 /\ -23 <= e <= 1 /\
    Zpos q * 2 ^ (e + 23) = n * 2 ^ 23.
Proof.
  intros Hn. destruct n as [|p0|p0]; try lia.
  pose proof (digits2_bound p0 25 ltac:(lia) ltac:(lia)) as Hd.
  pose proof (digits2_lower p0) as Hl.
  assert (Hd1 : 1 <= Zpos (digits2_pos p0)) by lia.
  destruct (Z_le_gt_dec (Zpos (digits2_pos p0)) 24) as [Hle|Hgt].
  - exists (Nat.iter (Z.to_nat (24 - Zpos (digits2_pos p0))) xO p0),
           (Zpos (digits2_pos p0) - 24).
    assert (Hdq : Zpos (digits2_pos
                          (Nat.iter (Z.to_nat (24 - Zpos (digits2_pos p0))) xO p0))
                  = 24) by (rewrite digits2_iter, Z2Nat.id; lia).
    split; [|split; [exact Hdq|split; [lia|]]].
    + change (float_of_int (Zpos p0)) with (binary_round 24 128 false p0 0).
      apply (binary_round_exact 24 128 false p0 0 _ _
               (Z.to_nat (24 - Zpos (digits2_pos p0))) Hdq); [lia|].
      right. split; [reflexivity|]. rewrite Z2Nat.id; lia.
    + rewrite nat_iter_xO, Z2Nat.id by lia.
      rewrite <- Z.mul_assoc, <- Z.pow_add_r by lia.
      f_equal. f_equal. lia.
  - assert (Hp : Zpos p0 = 16777216).
    { assert (2 ^ 24 <= 2 ^ (Zpos (digits2_pos p0) - 1))
        by (apply Z.pow_le_mono_r; lia).
      change (2 ^ 24) with 16777216 in *. lia. }
    injection Hp as ->. exists 8388608%positive, 1.
    split; [vm_compute; reflexivity|]. split; [reflexivity|].
    split; [lia|reflexivity].
Qed.

(** [delta += 1.0] is exact below 2^24. *)
Lemma add_one_exact n :
  0 <= n < 16777216 -> add_one (float_of_int n) = float_of_int (n + 1).
Proof.
  intros Hn. destruct (Z.eq_dec n 0) as [->|Hn0]; [vm_compute; reflexivity|].
  destruct (float_of_int_exact n) as (q & e & -> & Hdq & He & Hq); [lia|].
  destruct (float_of_int_exact (n + 1)) as (q' & e' & -> & Hdq' & He' & Hq');
    [lia|].
  unfold add_one, double_of_float.
  assert (Hd29 : forall x, Zpos (digits2_pos x) = 24 ->
            Zpos (digits2_pos (Nat.iter 29 xO x)) = 53)
    by (intros x Hx; rewrite digits2_iter; lia).
  rewrite (binary_round_exact 53 1024 false q e (Nat.iter 29 xO q) (e - 29)
             29 (Hd29 q Hdq)); [|lia|right; split; [reflexivity|lia]].
  change double_one with (S754_finite false 4503599627370496 (-52)).
  cbn [SFadd cond_Zopp]. rewrite Z.min_r by lia.
  unfold binary_normalize.
  pose proof (shl_align_value (Nat.iter 29 xO q) (e - 29) (-52) ltac:(lia))
    as H1.
  pose proof (shl_align_value 4503599627370496 (-52) (-52) ltac:(lia)) as H2.
  rewrite nat_iter_xO in H1.
  replace (-52 - -52) with 0 in H2 by lia.
  rewrite <- Pos2Z.inj_add. cbv beta iota. unfold float_of_double.
  assert (Hsum : Zpos (fst (shl_align (Nat.iter 29 xO q) (e - 29) (-52)) +
                       fst (shl_align 4503599627370496 (-52) (-52))) =
                 (n + 1) * 2 ^ 52).
  { rewrite Pos2Z.inj_add, H1, H2.
    replace (e - 29 - -52) with (e + 23) by lia.
    change (Z.of_nat 29) with 29.
    replace (Zpos q * 2 ^ 29 * 2 ^ (e + 23))
      with (2 ^ 29 * (Zpos q * 2 ^ (e + 23))) by lia.
    rewrite Hq. change (2 ^ 23) with 8388608. change (2 ^ 29) with 536870912.
    change (2 ^ 52) with 4503599627370496. change (2 ^ 0) with 1. lia. }
  rewrite (binary_round_value 53 1024 false _ (-52) (Nat.iter 29 xO q')
             (e' - 29) 52 (Hd29 q' Hdq')); [|lia|lia|lia|].
  - apply (binary_round_exact 24 128 false _ _ q' e' 29 Hdq'); [lia|].
    left. split; [reflexivity|lia].
  - replace (-52 + 52) with 0 by lia. rewrite Z.pow_0_r, Z.mul_1_r, Hsum.
    rewrite nat_iter_xO. replace (e' - 29 + 52) with (e' + 23) by lia.
    change (Z.of_nat 29) with 29.
    replace (Zpos q' * 2 ^ 29 * 2 ^ (e' + 23))
      with (2 ^ 29 * (Zpos q' * 2 ^ (e' + 23))) by lia.
    rewrite Hq'. change (2 ^ 23) with 8388608. change (2 ^ 29) with 536870912.
    change (2 ^ 52) with 4503599627370496. lia.
Qed.

(** The binary32 sum of two counts is their sum when it does not exceed
    2^24. *)
Lemma fadd_exact a b :
  0 <= a -> 0 <= b -> a + b <= 16777216 ->
  fadd (float_of_int a) (float_of_int b) = float_of_int (a + b).
Proof.
  intros Ha Hb Hab.
  destruct (Z.eq_dec a 0) as [->|Ha0].
  { destruct (Z.eq_dec b 0) as [->|Hb0]; [reflexivity|].
    destruct (float_of_int_exact b) as (q & e & Hq & _); [lia|].
    rewrite Z.add_0_l, Hq. reflexivity. }
  destruct (Z.eq_dec b 0) as [->|Hb0].
  { rewrite Z.add_0_r.
    destruct (float_of_int_exact a) as (q & e & Hq & _); [lia|].
    rewrite Hq. reflexivity. }
  destruct (float_of_int_exact a) as (qa & ea & -> & Hda & Hea & Hqa); [lia|].
  destruct (float_of_int_exact b) as (qb & eb & -> & Hdb & Heb & Hqb); [lia|].
  destruct (float_of_int_exact (a + b)) as (q & e & -> & Hd & He & Hq); [lia|].
  unfold fadd. cbn [SFadd cond_Zopp]. unfold binary_normalize.
  pose proof (shl_align_value qa ea (Z.min ea eb) ltac:(lia)) as H1.
  pose proof (shl_align_value qb eb (Z.min ea eb) ltac:(lia)) as H2.
  rewrite <- Pos2Z.inj_add. cbv beta iota.
  apply (binary_round_value prec emax false _ _ q e 23 Hd);
    [unfold prec, emax; lia|lia|lia|].
  rewrite Pos2Z.inj_add, H1, H2, Z.mul_add_distr_r.
  rewrite <- !Z.mul_assoc, <- !Z.pow_add_r by lia.
  replace (ea - Z.min ea eb + (Z.min ea eb + 23)) with (ea + 23) by lia.
  replace (eb - Z.min ea eb + (Z.min ea eb + 23)) with (eb + 23) by lia.
  rewrite Hqa, Hqb, Hq. lia.
Qed.

(** From 2^24 on, [delta += 1.0] leaves [delta] as it is. *)
Lemma add_one_stuck :
  add_one (float_of_int 16777216) = float_of_int 16777216.
Proof. vm_compute. reflexivity. Qed.

(** A chain of [n] additions of 1.0 from 0.0 counts up to 2^24 and no
    further. *)
Lemma iter_add_one_exact (n : nat) :
  Nat.iter n add_one fzero = float_of_int (Z.min (Z.of_nat n) 16777216).
Proof.
  induction n as [|n IH]; [reflexivity|].
  cbn [Nat.iter nat_rect]. unfold Nat.iter in IH. rewrite IH.
  destruct (Z_lt_ge_dec (Z.of_nat n) 16777216) as [Hlt|Hge].
  - rewrite Z.min_l by lia. rewrite add_one_exact by lia.
    f_equal. lia.
  - rewrite !Z.min_r by lia. apply add_one_stuck.
Qed.

End Exact.

(** ** The reduction of [delta] *)

Lemma Zsum_app l1 l2 : Zsum (l1 ++ l2) = (Zsum l1 + Zsum l2)%Z.
Proof. induction l1 as [|a l1 IH]; simpl; [reflexivity|]. rewrite IH. lia. Qed.

Lemma Zsum_Permutation l l' : Permutation l l' -> Zsum l = Zsum l'.
Proof.
  induction 1 as [|x l l' _ IH|x y l|l l' l'' _ IH1 _ IH2]; simpl; lia.
Qed.

Lemma Zsum_nonneg l : Forall (fun x => 0 <= x)%Z l -> (0 <= Zsum l)%Z.
Proof. induction 1 as [|x l Hx _ IH]; simpl; lia. Qed.

Lemma Zsum_map_add {A} (f g : A -> Z) l :
  Zsum (map (fun x => f x + g x)%Z l) = (Zsum (map f l) + Zsum (map g l))%Z.
Proof. induction l as [|a l IH]; simpl; [reflexivity|]. rewrite IH. lia. Qed.

Lemma Zsum_indicator x a T :
  Zsum (map (fun t => if (x =? t)%nat then 1 else 0)%Z (seq a T)) =
    if decide (a <= x < a + T) then 1%Z else 0%Z.
Proof.
  revert a. induction T as [|T IH]; intros a; cbn [seq map Zsum fold_right].
  - destruct (decide (a <= x < a + 0)); [lia|reflexivity].
  - change (fold_right Z.add 0%Z ?l) with (Zsum l). rewrite IH.
    destruct (x =? a)%nat eqn:E;
      [apply Nat.eqb_eq in E|apply Nat.eqb_neq in E];
      destruct (decide (Datatypes.S a <= x < Datatypes.S a + T)),
               (decide (a <= x < a + Datatypes.S T)); lia.
Qed.

Lemma Zsum_map_zero {A} (b : A -> bool) l :
  Zsum (map (fun t => if b t then 0 else 0)%Z l) = 0%Z.
Proof.
  induction l as [|t s IHs]; [reflexivity|].
  cbn [map Zsum fold_right]. change (fold_right Z.add 0%Z ?l) with (Zsum l).
  rewrite IHs. destruct (b t); reflexivity.
Qed.

(** Every object that changes is counted by the thread that handles it. *)
Lemma thread_counts_add_up (tid : nat -> nat) (p : nat -> bool) T l :
  (forall i, tid i < T) ->
  Zsum (map (fun t => Z.of_nat (length
              (List.filter (fun i => (tid i =? t)%nat && p i) l))) (seq 0 T)) =
  Z.of_nat (length (List.filter p l)).
Proof.
  intros Htid. induction l as [|i l IH].
  - cbn [List.filter length]. induction (seq 0 T) as [|t s IHs]; simpl; lia.
  - cbn [List.filter].
    transitivity
      (Zsum (map (fun t => (if (tid i =? t)%nat then (if p i then 1 else 0) else 0) +
                    Z.of_nat (length
                      (List.filter (fun i => (tid i =? t)%nat && p i) l)))%Z
               (seq 0 T))).
    + f_equal. apply map_ext. intros t.
      destruct (tid i =? t)%nat, (p i); cbn [andb length]; lia.
    + rewrite Zsum_map_add, IH.
      destruct (p i); cbn [length].
      * rewrite Zsum_indicator. pose proof (Htid i).
        destruct (decide (0 <= tid i < 0 + T)); lia.
      * rewrite Zsum_map_zero. lia.
Qed.

(** A reduction whose leaves hold counts, adding up to at most 2^24, is
    exact. *)
Lemma combined_exact (c0 : Z) (c : nat -> Z) (original : float) (copies : vec)
    (p : reduction_plan) :
  original = float_of_int c0 -> (0 <= c0)%Z ->
  (forall t, In (Some t) (plan_leaves p) ->
     rd copies t = float_of_int (c t) /\ (0 <= c t)%Z) ->
  (Zsum (map (leaf_count c0 c) (plan_leaves p)) <= 16777216)%Z ->
  combined p original copies =
    float_of_int (Zsum (map (leaf_count c0 c) (plan_leaves p))).
Proof.
  intros Ho Hc0. induction p as [|t|l IHl r IHr]; intros Hc Hsum.
  - cbn. rewrite Z.add_0_r. exact Ho.
  - cbn. rewrite Z.add_0_r. apply Hc. left. reflexivity.
  - cbn [combined plan_leaves] in *. rewrite map_app, Zsum_app in *.
    assert (Hnn : forall q, (forall t, In (Some t) (plan_leaves q) ->
                   rd copies t = float_of_int (c t) /\ (0 <= c t)%Z) ->
                 (0 <= Zsum (map (leaf_count c0 c) (plan_leaves q)))%Z).
    { intros q Hq. apply Zsum_nonneg. rewrite Forall_forall. intros x Hx.
      apply list_elem_of_In, in_map_iff in Hx. destruct Hx as ([t|] & <- & Hin).
      - apply Hq, Hin.
      - exact Hc0. }
    assert (Hl : forall t, In (Some t) (plan_leaves l) ->
               rd copies t = float_of_int (c t) /\ (0 <= c t)%Z)
      by (intros t Ht; apply Hc, in_or_app; left; exact Ht).
    assert (Hr : forall t, In (Some t) (plan_leaves r) ->
               rd copies t = float_of_int (c t) /\ (0 <= c t)%Z)
      by (intros t Ht; apply Hc, in_or_app; right; exact Ht).
    pose proof (Hnn l Hl). pose proof (Hnn r Hr).
    rewrite IHl, IHr by (assumption || lia).
    apply fadd_exact; lia.
Qed.

(** A plan that covers the copies of [T] threads adds up the original
    value and every copy. *)
Lemma covered_count T p c0 c :
  plan_covers T p ->
  Zsum (map (leaf_count c0 c) (plan_leaves p)) =
    (c0 + Zsum (map c (seq 0 T)))%Z.
Proof.
  intros Hp. rewrite (Zsum_Permutation _ _ (Permutation_map _ Hp)).
  cbn [map Zsum fold_right leaf_count]. rewrite map_map. reflexivity.
Qed.

Lemma covered_leaf T p t :
  plan_covers T p -> In (Some t) (plan_leaves p) -> t < T.
Proof.
  intros Hp Hin. apply (Permutation_in _ Hp) in Hin.
  destruct Hin as [Hin|Hin]; [discriminate|].
  apply in_map_iff in Hin. destruct Hin as (t' & [= ->] & Hin).
  apply in_seq in Hin. lia.
Qed.

(** The loop over the objects, as far as the membership array and the
    private copies of [delta] go: thread [t] adds 1.0 to its copy once for
    each object it handles whose entry changes. *)
Lemma count_loop {S : Type} (pm : S -> list Z) (pc : S -> vec)
    (Inv : S -> Prop) (f tid : nat -> nat) (body : nat -> S -> S) s0 n :
  Inv s0 ->
  (forall i s, Inv s ->
     Inv (body i s) /\
     pm (body i s) = <[i := Z.of_nat (f i)]> (pm s) /\
     pc (body i s) =
       if negb (rdz (pm s) i =? Z.of_nat (f i))%Z
       then <[tid i := add_one (rd (pc s) (tid i))]> (pc s) else pc s) ->
  let s' := for_loop 0 n body s0 in
  Inv s' /\
  (forall i, n <= i -> rdz (pm s') i = rdz (pm s0) i) /\
  length (pc s') = length (pc s0) /\
  forall t, t < length (pc s0) ->
    rd (pc s') t =
      Nat.iter (length (thread_changed tid (pm s0) f n t)) add_one
        (rd (pc s0) t).
Proof.
  intros H0 Hbody. cbv zeta.
  refine (for_loop_inv (fun n s' =>
    Inv s' /\
    (forall i, n <= i -> rdz (pm s') i = rdz (pm s0) i) /\
    length (pc s') = length (pc s0) /\
    forall t, t < length (pc s0) ->
      rd (pc s') t =
        Nat.iter (length (thread_changed tid (pm s0) f n t)) add_one
          (rd (pc s0) t)) 0 n _ s0 _ _ _); [lia| |].
  - split; [exact H0|]. split; [reflexivity|]. split; [reflexivity|].
    intros t _. reflexivity.
  - intros m s _ (Hinv & Hm & Hlen & Hc).
    destruct (Hbody m s Hinv) as (Hinv' & -> & ->).
    split; [exact Hinv'|]. split; [|split].
    + intros i Hi. rewrite rdz_insert_ne by lia. apply Hm. lia.
    + destruct (negb _); [rewrite length_insert|]; exact Hlen.
    + intros t Ht. unfold thread_changed.
      rewrite seq_S, List.filter_app, length_app. cbn [List.filter Nat.add].
      rewrite (Hm m) by lia.
      destruct (Nat.eqb_spec (tid m) t) as [Hmt|Hmt]; cbn [andb].
      * destruct (negb (rdz (pm s0) m =? Z.of_nat (f m))%Z); cbn [length].
        -- rewrite Nat.add_1_r. cbn [Nat.iter nat_rect].
           unfold rd at 1. rewrite Hmt, nth_insert_eq by (rewrite Hlen; exact Ht).
           f_equal. apply Hc, Ht.
        -- rewrite Nat.add_0_r. apply Hc, Ht.
      * rewrite Nat.add_0_r.
        destruct (negb (rdz (pm s0) m =? Z.of_nat (f m))%Z); [|apply Hc, Ht].
        unfold rd at 1. rewrite nth_insert_ne by exact Hmt. apply Hc, Ht.
Qed.

(** The value the reduction leaves in [delta]: the number of objects whose
    entry changes, as long as it does not exceed 2^24. *)
Lemma reduced_delta (tid f : nat -> nat) (old : list Z) (T n : nat)
    (p : reduction_plan) (copies : vec) :
  (forall i, tid i < T) -> plan_covers T p ->
  (Z.of_nat (length (changed old f n)) <= 16777216)%Z ->
  (forall t, t < T ->
     rd copies t =
       Nat.iter (length (thread_changed tid old f n t)) add_one fzero) ->
  combined p fzero copies =
    float_of_int (Z.of_nat (length (changed old f n))).
Proof.
  intros Htid Hp Hle Hc.
  pose proof (thread_counts_add_up tid
                (fun i => negb (rdz old i =? Z.of_nat (f i))%Z) T (seq 0 n) Htid)
    as Hsum.
  change (List.filter (fun i => negb (rdz old i =? Z.of_nat (f i))%Z) (seq 0 n))
    with (changed old f n) in Hsum.
  set (c := fun t => Z.of_nat (length (thread_changed tid old f n t))).
  change (Zsum (map c (seq 0 T)) = Z.of_nat (length (changed old f n))) in Hsum.
  pose proof (covered_count T p 0%Z c Hp) as Hcov. rewrite Hsum in Hcov.
  rewrite (combined_exact 0%Z c fzero copies p); [rewrite Hcov; reflexivity
    |reflexivity|lia| |rewrite Hcov; lia].
  intros t Ht. pose proof (covered_leaf T p t Hp Ht) as HtT.
  split; [|unfold c; lia].
  rewrite (Hc t HtT), iter_add_one_exact. f_equal. apply Z.min_l.
  assert (Hct : (c t <= Zsum (map c (seq 0 T)))%Z).
  { assert (Hin : In t (seq 0 T)) by (apply in_seq; lia).
    assert (Hnn : Forall (fun x => 0 <= x)%Z (map c (seq 0 T))).
    { rewrite Forall_forall. intros x Hx.
      apply list_elem_of_In, in_map_iff in Hx. destruct Hx as (t' & <- & _).
      unfold c. lia. }
    revert Hin Hnn. generalize (seq 0 T) as l.
    induction l as [|a l IH]; intros Hin Hnn; [destruct Hin|].
    cbn [map Zsum fold_right] in *. change (fold_right Z.add 0%Z ?l) with (Zsum l).
    inversion Hnn as [|x l' Hx Hl]; subst.
    pose proof (Zsum_nonneg _ Hl).
    destruct Hin as [->|Hin]; [lia|]. specialize (IH Hin Hl). lia. }
  subst c. cbv beta in *. lia.
Qed.

(** ** The fraction of changed objects in the improved version *)

Lemma rdz_replicate n x i : i < n -> rdz (replicate n x) i = x.
Proof.
  intros Hi. unfold rdz. rewrite nth_lookup, lookup_replicate_2 by exact Hi.
  reflexivity.
Qed.

Lemma rd_replicate n i : rd (replicate n fzero) i = fzero.
Proof.
  unfold rd. destruct (decide (i < n)) as [Hi|Hi].
  - rewrite nth_lookup, lookup_replicate_2 by exact Hi. reflexivity.
  - apply nth_overflow. rewrite length_replicate. lia.
Qed.

(** Before the first pass every entry is -1: every object counts as
    changed. *)
Lemma changed_initial (f : nat -> nat) N :
  length (changed (replicate N (-1)%Z) f N) = N.
Proof.
  unfold changed.
  rewrite (List.filter_ext_in _ (fun _ => true)).
  - rewrite List.forallb_filter_id; [apply length_seq|].
    apply List.forallb_forall. reflexivity.
  - intros i Hi. apply in_seq in Hi. rewrite rdz_replicate by lia.
    apply negb_true_iff, Z.eqb_neq. lia.
Qed.

Lemma changed_length old f n : length (changed old f n) <= n.
Proof.
  unfold changed. etransitivity; [apply List.filter_length_le|].
  rewrite length_seq. lia.
Qed.

(** With one thread, the objects of that thread are all the objects. *)
Lemma one_thread_changed old f n :
  thread_changed one_thread old f n 0 = changed old f n.
Proof. reflexivity. Qed.

Section ImprovedDelta.

Variable objects : matrix.
Variables numCoords numObjs numClusters : Z.
Variable threshold : float.
Variable nthreads : nat.
Variable tid_of : nat -> nat.
Variable landing : Z -> list (nat * nat).
Variable plan : Z -> reduction_plan.

Local Abbreviation D := (Z.to_nat numCoords).
Local Abbreviation N := (Z.to_nat numObjs).
Local Abbreviation K := (Z.to_nat numClusters).
Local Abbreviation nearest := (Improved.nearest objects numCoords numClusters).
Local Abbreviation assign_object :=
  (Improved.assign_object objects numCoords numClusters tid_of).
Local Abbreviation assignment_pass :=
  (Improved.assignment_pass objects numCoords numObjs numClusters nthreads
     tid_of landing plan).
Local Abbreviation iteration :=
  (Improved.iteration objects numCoords numObjs numClusters nthreads tid_of
     landing plan).

(** The private copies of [delta] after the loop over the objects. *)
Lemma improved_copies st n :
  let st' := for_loop 0 n assign_object st in
  Improved.delta st' = Improved.delta st /\
  Improved.loop st' = Improved.loop st /\
  length (Improved.copies st') = length (Improved.copies st) /\
  forall t, t < length (Improved.copies st) ->
    rd (Improved.copies st') t =
      Nat.iter (length (thread_changed tid_of (Improved.membership st)
                          (nearest (clusters (Improved.acc st))) n t))
        add_one (rd (Improved.copies st) t).
Proof.
  cbv zeta.
  destruct (count_loop Improved.membership Improved.copies
              (fun s => clusters (Improved.acc s) = clusters (Improved.acc st) /\
                        Improved.delta s = Improved.delta st /\
                        Improved.loop s = Improved.loop st)
              (nearest (clusters (Improved.acc st))) tid_of assign_object st n)
    as ((_ & Hd & Hl) & _ & Hlen & Hc).
  - auto.
  - intros i s (Hcl & Hd & Hl). unfold Improved.assign_object.
    cbn [Improved.acc Improved.membership Improved.copies Improved.delta
         Improved.loop clusters].
    rewrite Hcl. auto.
  - auto.
Qed.

(** The value of [delta] when the parallel region ends. *)
Lemma improved_pass_delta_copies st :
  let st0 := Improved.set_copies (replicate nthreads fzero)
               (Improved.set_delta fzero st) in
  Improved.delta (assignment_pass (Improved.set_delta fzero st)) =
    combined (plan (Improved.loop st)) fzero
      (Improved.copies (for_loop 0 N assign_object st0)).
Proof.
  cbv zeta. unfold Improved.assignment_pass.
  cbn [Improved.delta Improved.set_delta Improved.set_acc Improved.loop
       Improved.copies].
  destruct (improved_copies
              (Improved.set_copies (replicate nthreads fzero)
                 (Improved.set_delta fzero st)) N) as (Hd & Hl & _).
  rewrite Hd, Hl. reflexivity.
Qed.

(** When at most 2^24 objects are handled, [delta] is, after the
    reduction, the number of objects whose cluster changed, whatever the
    number of threads, the schedule and the order of the reduction. *)
Lemma improved_pass_delta st :
  (forall i, tid_of i < nthreads) ->
  plan_covers nthreads (plan (Improved.loop st)) ->
  (numObjs <= 16777216)%Z ->
  Improved.delta (assignment_pass (Improved.set_delta fzero st)) =
    float_of_int (Z.of_nat (length
      (changed (Improved.membership st)
         (nearest (clusters (Improved.acc st))) N))).
Proof.
  intros Htid Hp HN. rewrite improved_pass_delta_copies.
  apply (reduced_delta tid_of _ _ nthreads N _ _ Htid Hp).
  - pose proof (changed_length (Improved.membership st)
                  (nearest (clusters (Improved.acc st))) N). lia.
  - intros t Ht.
    destruct (improved_copies
                (Improved.set_copies (replicate nthreads fzero)
                   (Improved.set_delta fzero st)) N) as (_ & _ & _ & Hc).
    rewrite Hc by (cbn [Improved.copies Improved.set_copies];
                   rewrite length_replicate; exact Ht).
    cbn [Improved.copies Improved.set_copies Improved.membership
         Improved.set_delta Improved.acc].
    rewrite rd_replicate. reflexivity.
Qed.

Lemma improved_iteration_delta st :
  Improved.delta (iteration st) =
    fdiv (Improved.delta (assignment_pass (Improved.set_delta fzero st)))
         (float_of_int numObjs).
Proof. reflexivity. Qed.

Lemma do_while_converged fuel st :
  flt threshold (Improved.delta (iteration st)) = false ->
  Improved.do_while objects numCoords numObjs numClusters threshold nthreads
    tid_of landing plan (Datatypes.S fuel) st =
  Some (Improved.mkRun (iteration st) CONVERGED 1).
Proof. intros H. cbn [Improved.do_while]. rewrite H. reflexivity. Qed.

End ImprovedDelta.

(** With one thread [delta] counts the changed objects up to 2^24 and no
    further. *)
Lemma one_thread_pass_delta objects numCoords numObjs numClusters landing st :
  Improved.delta
    (Improved.assignment_pass objects numCoords numObjs numClusters 1
       one_thread landing one_copy (Improved.set_delta fzero st)) =
    float_of_int
      (Z.min (Z.of_nat (length
                (changed (Improved.membership st)
                   (Improved.nearest objects numCoords numClusters
                      (clusters (Improved.acc st))) (Z.to_nat numObjs))))
             16777216).
Proof.
  rewrite improved_pass_delta_copies.
  destruct (improved_copies objects numCoords numClusters one_thread
              (Improved.set_copies (replicate 1 fzero)
                 (Improved.set_delta fzero st)) (Z.to_nat numObjs))
    as (_ & _ & _ & Hc).
  unfold one_copy. cbn [combined]. rewrite (Hc 0) by (simpl; lia).
  cbn [Improved.copies Improved.set_copies Improved.membership
       Improved.set_delta Improved.acc].
  rewrite rd_replicate, one_thread_changed, iter_add_one_exact.
  rewrite (fadd_exact 0) by lia. reflexivity.
Qed.


(** C9, as the code has it: every call returns, its return value is the
    constant 1, and the two arrays it hands back are those of the final
    state of the loop. *)
Theorem omp_kmeans_output (a : Z) (objects : matrix)
    (numCoords numObjs numClusters : Z) (threshold : float) (nthreads : nat)
    (tid_of : nat -> nat) (landing : Z -> list (nat * nat))
    (plan : Z -> reduction_plan) (cl : matrix) :
  exists r,
    Improved.run_kmeans objects numCoords numObjs numClusters threshold
      nthreads tid_of landing plan cl = Some r /\
    Improved.omp_kmeans a objects numCoords numObjs numClusters threshold
      nthreads tid_of landing plan cl
      = Some (mkOutput 1 (Improved.membership (Improved.final r))
                       (clusters (Improved.acc (Improved.final r)))).
Proof.
  destruct (run_kmeans_returns objects numCoords numObjs numClusters
              threshold nthreads tid_of landing plan cl) as (r & Hr & _).
  exists r. split; [exact Hr|]. unfold Improved.omp_kmeans. rewrite Hr.
  reflexivity.
Qed.

(** ** The engine on the example inputs *)

Lemma sq_clusters_shaped : shaped 2 2 sq_clusters.
Proof. split; [reflexivity|]. repeat constructor. Qed.

Lemma sq_objects_shaped : shaped 2 2 sq_objects.
Proof. split; [reflexivity|]. repeat constructor. Qed.

(** The scenario of the specification, run by one thread: the engine
    leaves its loop as converged after three executions of the body, with
    the three objects near the origin in cluster 0 and the three others in
    cluster 1. *)
Example two_groups_scenario :
  option_map (fun r => (Improved.status r, Improved.passes r,
                        Improved.membership (Improved.final r)))
    (Improved.run_kmeans two_groups 2 6 2 one_thousandth 1 one_thread
       (in_order 6 2) one_copy two_groups_clusters)
  = Some (CONVERGED, 3, [0; 0; 0; 1; 1; 1]%Z).
Proof. vm_compute. reflexivity. Qed.

(** C1: the search of the improved version starts from [min_dist =
    INT_MAX]; when every centroid is at a squared distance of 2^31 or more
    it returns index 0 whichever centroid is nearest.  Here object 2 is at
    140000 from centroid 0 and at 60000 from centroid 1, and the search
    returns 0. *)
Theorem nearest_misses_beyond_INT_MAX :
  Improved.nearest far_objects 1 2 far_clusters 2 = 0 /\
  flt (dist2 far_objects far_clusters 1 2 1)
      (dist2 far_objects far_clusters 1 2 0) = true /\
  ~ is_nearest (dist2 far_objects far_clusters 1 2) 2
      (Improved.nearest far_objects 1 2 far_clusters 2).
Proof.
  assert (Hidx : Improved.nearest far_objects 1 2 far_clusters 2 = 0)
    by (vm_compute; reflexivity).
  assert (Hlt : flt (dist2 far_objects far_clusters 1 2 1)
                    (dist2 far_objects far_clusters 1 2 0) = true)
    by (vm_compute; reflexivity).
  split; [exact Hidx|]. split; [exact Hlt|].
  rewrite Hidx. intros (_ & Hmin & _). rewrite (Hmin 1) in Hlt by lia.
  discriminate Hlt.
Qed.

(** C2: on this input, run by one thread, the first object changes cluster
    in every pass (the rounded sums move centroid 0 between 2^23 + 3 and
    2^23 + 2), so [delta > threshold] never fails; the body of the loop is
    executed 501 times and [loop] ends at 501. *)
Theorem loop_runs_501_times :
  option_map (fun r => (Improved.passes r, Improved.loop (Improved.final r),
                        Improved.status r))
    (Improved.run_kmeans cyc_objects 1 4 2 one_thousandth 1 one_thread
       (in_order 4 1) one_copy cyc_clusters)
  = Some (501, 501%Z, MAX_ITERATIONS_REACHED).
Proof. vm_compute. reflexivity. Qed.

(** C3: the base version moves the centroid of a cluster without members.
    Under the thread-local discipline, with one thread, both objects of
    this input go to cluster 1; the centroid of cluster 0, which
    [find_nearest_cluster] and the header read as row 0 of [clusters], is
    (0, 0.5) before the iteration and (0, 0) after it: the update writes
    [clusters[j][i]] for the cluster [i] that has more than one member, and
    so column 1 of every row. *)
Theorem memberless_cluster_is_moved (landing : Z -> list (nat * nat))
    (plan : Z -> reduction_plan) (overflow : float -> Z) :
  let st0 := Base.initial 2 2 2 1 sq_clusters in
  let st1 := Base.iteration 0 sq_objects 2 2 2 1 one_thread landing plan
               overflow st0 in
  Base.membership st1 = [1; 1]%Z /\
  assigned (Base.membership st1) 2 0 = [] /\
  nth 0 (clusters (Base.acc st0)) [] = [fzero; half] /\
  nth 0 (clusters (Base.acc st1)) [] = [fzero; fzero].
Proof. cbv zeta. repeat split; vm_compute; reflexivity. Qed.

(** C4: the base version divides a sum by the member count of another
    cluster.  Under the thread-local discipline, with one thread, the
    objects (10,10), (11,11), (12,12) go to cluster 0 and the two others to
    cluster 1; the mean of coordinate 1 over the members of cluster 0 is
    33 / 3 = 11, and the update leaves 33 / 2 = 16.5 in [clusters[0][1]],
    the sum of cluster 0 divided by the member count of cluster 1. *)
Theorem centroid_divided_by_other_count (landing : Z -> list (nat * nat))
    (plan : Z -> reduction_plan) (overflow : float -> Z) :
  let st0 := Base.initial 2 5 2 1 three_two_clusters in
  let st1 := Base.iteration 0 three_two 2 5 2 1 one_thread landing plan
               overflow st0 in
  Base.membership st1 = [0; 0; 0; 1; 1]%Z /\
  assigned (Base.membership st1) 5 0 = [0; 1; 2] /\
  fdiv (coord_sum three_two 1 [0; 1; 2] fzero) (float_of_int 3)
    = float_of_int 11 /\
  rd2 (clusters (Base.acc st1)) 0 1 = fdiv (float_of_int 33) (float_of_int 2) /\
  feq (fdiv (float_of_int 33) (float_of_int 2)) (float_of_int 11) = false.
Proof. cbv zeta. repeat split; vm_compute; reflexivity. Qed.

(** C5: [delta] is a [float] and stops counting at 2^24.  With 2^25
    objects and one thread every object changes cluster in the first pass
    (the entries start at -1), so the fraction of changed objects is 1,
    above the threshold 0.75; but [delta] stays at 2^24 from the 2^24-th
    [+= 1.0] on, [delta / numObjs] is 0.5, and the loop is left as
    converged after this one pass. *)
Theorem delta_stops_counting :
  let st0 := Improved.initial 1 many 1 many_clusters in
  let near := Improved.nearest many_objects 1 1 many_clusters in
  let st1 := Improved.iteration many_objects 1 many 1 1 one_thread
               (in_order (Z.to_nat many) 1) one_copy st0 in
  Z.of_nat (length (changed (Improved.membership st0) near (Z.to_nat many)))
    = many /\
  fle (fdiv (float_of_int many) (float_of_int many)) three_quarters = false /\
  Improved.delta st1 = half /\
  Improved.do_while many_objects 1 many 1 three_quarters 1 one_thread
    (in_order (Z.to_nat many) 1) one_copy 501 st0 =
    Some (Improved.mkRun st1 CONVERGED 1).
Proof.
  cbv zeta.
  assert (Hall : Z.of_nat (length
            (changed (Improved.membership (Improved.initial 1 many 1 many_clusters))
               (Improved.nearest many_objects 1 1 many_clusters)
               (Z.to_nat many))) = many).
  { change (Improved.membership (Improved.initial 1 many 1 many_clusters))
      with (replicate (Z.to_nat many) (-1)%Z).
    rewrite changed_initial. apply Z2Nat.id. unfold many. lia. }
  assert (Hd : Improved.delta
            (Improved.iteration many_objects 1 many 1 1 one_thread
               (in_order (Z.to_nat many) 1) one_copy
               (Improved.initial 1 many 1 many_clusters)) = half).
  { rewrite improved_iteration_delta, one_thread_pass_delta.
    change (clusters (Improved.acc (Improved.initial 1 many 1 many_clusters)))
      with many_clusters.
    rewrite Hall. vm_compute. reflexivity. }
  split; [exact Hall|]. split; [vm_compute; reflexivity|].
  split; [exact Hd|].
  apply (do_while_converged many_objects 1 many 1 three_quarters 1 one_thread
           (in_order (Z.to_nat many) 1) one_copy 500).
  rewrite Hd. vm_compute. reflexivity.
Qed.

(** C8: on the same input (symmetric arrays, centroids at the first two
    objects), with one thread, the two disciplines of the base version end
    with different membership arrays: the thread-local one leaves each
    object in its own cluster, the atomic one, which stores every
    coordinate in an [int] first, puts both objects in cluster 0. *)
Theorem disciplines_disagree :
  option_map out_membership
    (Base.omp_kmeans 1 sym_objects 2 2 2 one_thousandth 1 one_thread
       (in_order 2 2) one_copy to_INT_MIN sym_clusters) = Some [0; 0]%Z /\
  option_map out_membership
    (Base.omp_kmeans 0 sym_objects 2 2 2 one_thousandth 1 one_thread
       (in_order 2 2) one_copy to_INT_MIN sym_clusters) = Some [0; 1]%Z.
Proof. split; vm_compute; reflexivity.
Qed.

(** C9 as stated fails: no function of the output yields the number of
    iterations performed.  With threshold 1 the engine leaves the loop
    after one pass over [pair_objects], with threshold 0 after two, and
    the two calls return the same value and the same arrays. *)
Lemma output_omits_iteration_count :
  ~ exists count : output -> nat,
      forall objects numCoords numObjs numClusters threshold nthreads tid_of
             landing plan cl out r,
        Improved.omp_kmeans 0 objects numCoords numObjs numClusters
          threshold nthreads tid_of landing plan cl = Some out ->
        Improved.run_kmeans objects numCoords numObjs numClusters
          threshold nthreads tid_of landing plan cl = Some r ->
        count out = Improved.passes r.
Proof.
  intros [count Hcount].
  destruct (Improved.run_kmeans pair_objects 1 2 2 (float_of_int 1) 1
              one_thread (in_order 2 1) one_copy pair_clusters)
    as [r1|] eqn:E1; [|vm_compute in E1; discriminate E1].
  destruct (Improved.run_kmeans pair_objects 1 2 2 fzero 1 one_thread
              (in_order 2 1) one_copy pair_clusters)
    as [r2|] eqn:E2; [|vm_compute in E2; discriminate E2].
  assert (Hout :
    Improved.omp_kmeans 0 pair_objects 1 2 2 (float_of_int 1) 1 one_thread
      (in_order 2 1) one_copy pair_clusters =
    Improved.omp_kmeans 0 pair_objects 1 2 2 fzero 1 one_thread
      (in_order 2 1) one_copy pair_clusters)
    by (vm_compute; reflexivity).
  assert (H1 : Improved.passes r1 = 1)
    by (vm_compute in E1; injection E1 as <-; reflexivity).
  assert (H2 : Improved.passes r2 = 2)
    by (vm_compute in E2; injection E2 as <-; reflexivity).
  destruct (Improved.omp_kmeans 0 pair_objects 1 2 2 fzero 1 one_thread
              (in_order 2 1) one_copy pair_clusters) as [out|] eqn:Eo.
  - pose proof (Hcount _ _ _ _ _ _ _ _ _ _ out r1 Hout E1) as G1.
    pose proof (Hcount _ _ _ _ _ _ _ _ _ _ out r2 Eo E2) as G2.
    rewrite H1 in G1. rewrite H2 in G2. rewrite G1 in G2. discriminate G2.
  - unfold Improved.omp_kmeans in Eo. rewrite E2 in Eo. discriminate Eo.
Qed.


(** ** The theorems at the example inputs *)

Lemma membership_in_range_witness :
  (forall i, i < 2 ->
     (0 <= rdz (Improved.membership
                  (Improved.assignment_pass sq_objects 2 2 2 1 one_thread
                     (in_order 2 2) one_copy
                     (Improved.set_delta fzero
                        (Improved.initial 2 2 2 sq_clusters)))) i < 2)%Z) /\
  (forall i, i < 2 ->
     (0 <= rdz (Base.membership
                  (Base.assignment_pass 0 sq_objects 2 2 2 1 one_thread
                     (in_order 2 2) one_copy to_INT_MIN
                     (Base.set_delta fzero
                        (Base.initial 2 2 2 1 sq_clusters)))) i < 2)%Z).
Proof.
  destruct (membership_in_range 0 sq_objects 2 2 2 1 one_thread (in_order 2 2)
              one_copy to_INT_MIN sq_clusters
              sq_clusters_shaped ltac:(lia)
              ltac:(intros; unfold one_thread; lia)) as [HI HB].
  split.
  - apply (HI (conj sq_objects_shaped eq_refl) _
              (Improved.head_initial _ _ _ _ _ _ _ _ _)).
  - apply (HB (conj sq_objects_shaped (conj eq_refl (fun _ => eq_refl))) _
              (Base.head_initial _ _ _ _ _ _ _ _ _ _ _)).
Defined.

Lemma member_counts_sum_witness :
  Zsum (newClusterSize (Improved.acc
          (Improved.assignment_pass sq_objects 2 2 2 1 one_thread
             (in_order 2 2) one_copy
             (Improved.set_delta fzero
                (Improved.initial 2 2 2 sq_clusters))))) = 2%Z /\
  Zsum (newClusterSize (Base.acc
          (Base.assignment_pass 0 sq_objects 2 2 2 1 one_thread
             (in_order 2 2) one_copy to_INT_MIN
             (Base.set_delta fzero
                (Base.initial 2 2 2 1 sq_clusters))))) = 2%Z.
Proof.
  destruct (member_counts_sum 0 sq_objects 2 2 2 1 one_thread (in_order 2 2)
              one_copy to_INT_MIN sq_clusters
              sq_clusters_shaped ltac:(lia)
              ltac:(intros; unfold one_thread; lia)) as [HI HB].
  split.
  - apply (HI (conj sq_objects_shaped eq_refl) _
              (Improved.head_initial _ _ _ _ _ _ _ _ _)).
  - apply (HB (conj sq_objects_shaped (conj eq_refl (fun _ => eq_refl))) _
              (Base.head_initial _ _ _ _ _ _ _ _ _ _ _)).
Defined.

(** * Further properties *)

(** ** Signs and symmetry in binary32 *)

Lemma binary_round_aux_opp p e s m ex l :
  binary_round_aux p e (negb s) m ex l = SFopp (binary_round_aux p e s m ex l).
Proof.
  unfold binary_round_aux.
  destruct (shr_fexp p e m ex l) as [mrs' e'].
  destruct (shr_fexp p e _ e' loc_Exact) as [mrs'' e''].
  destruct (shr_m mrs''); try reflexivity.
  destruct (Z.leb e'' _); reflexivity.
Qed.

Lemma binary_round_opp p e s m ex :
  binary_round p e (negb s) m ex = SFopp (binary_round p e s m ex).
Proof.
  unfold binary_round. destruct (shl_align m ex _) as [mz ez].
  apply binary_round_aux_opp.
Qed.

Lemma binary_normalize_opp p e z ex :
  binary_normalize p e (- z) ex false =
    match z with
    | Z0 => S754_zero false
    | _ => SFopp (binary_normalize p e z ex false)
    end.
Proof.
  destruct z; simpl; [reflexivity| |].
  - apply (binary_round_opp p e false).
  - rewrite (binary_round_opp p e false). 
    destruct (binary_round p e false _ _) as [[|]|[|]| |[|] ? ?]; reflexivity.
Qed.

Lemma fmul_opp_opp x : fmul (SFopp x) (SFopp x) = fmul x x.
Proof. destruct x as [[|]|[|]| |[|] ? ?]; reflexivity. Qed.

Lemma sqdiff_comm a b : sqdiff a b = sqdiff b a.
Proof.
  unfold sqdiff, fsub.
  destruct a as [[|]|[|]| |sa ma ea], b as [[|]|[|]| |sb mb eb];
    try reflexivity; try (destruct sa; reflexivity); try (destruct sb; reflexivity).
  cbn [SFsub]. rewrite (Z.min_comm eb ea).
  set (A := cond_Zopp sa _). set (B := cond_Zopp sb _).
  replace (B - A)%Z with (- (A - B))%Z by lia.
  rewrite binary_normalize_opp. destruct (A - B)%Z eqn:E; [reflexivity| |];
    symmetry; apply fmul_opp_opp.
Qed.

Lemma for_loop_ext {S} lo hi (f g : nat -> S -> S) s :
  (forall i s, lo <= i < hi -> f i s = g i s) ->
  for_loop lo hi f s = for_loop lo hi g s.
Proof.
  intros H. destruct (decide (lo <= hi)) as [Hle|Hgt];
    [|rewrite !for_loop_empty by lia; reflexivity].
  induction hi as [|hi IH].
  - rewrite !for_loop_empty by lia. reflexivity.
  - destruct (decide (lo = Datatypes.S hi)) as [->|Hne].
    + rewrite !for_loop_empty by lia. reflexivity.
    + rewrite !for_loop_snoc by lia. rewrite IH; [apply H; lia| |lia].
      intros i s' Hi. apply H. lia.
Qed.

Lemma for_loop_first {S} lo hi (f : nat -> S -> S) s :
  lo < hi -> for_loop lo hi f s = for_loop (Datatypes.S lo) hi f (f lo s).
Proof.
  intros H. unfold for_loop.
  replace (hi - lo) with (Datatypes.S (hi - Datatypes.S lo)) by lia. reflexivity.
Qed.

(** X4: [euclid_dist_2] is symmetric in its two points: with the two
    points exchanged it returns the same zero, the same finite value or the
    same infinity, and a NaN where it returned a NaN (the embedding has one
    NaN and says nothing of the sign or payload of a NaN). *)
Theorem euclid_dist_2_symmetric numdims coord1 coord2 :
  euclid_dist_2 numdims coord1 coord2 = euclid_dist_2 numdims coord2 coord1.
Proof.
  unfold euclid_dist_2. apply for_loop_ext. intros i ans _.
  f_equal. apply sqdiff_comm.
Qed.

Lemma sqdiff_nonneg a b : not_negative (sqdiff a b) = true.
Proof.
  unfold sqdiff. destruct (fsub a b) as [[|]|[|]| |s m e]; try reflexivity.
  unfold fmul. cbn [SFmul]. replace (xorb s s) with false by (destruct s; reflexivity).
  unfold binary_round_aux.
  destruct (shr_fexp _ _ _ _ _) as [mrs' e'].
  destruct (shr_fexp _ _ _ e' loc_Exact) as [mrs'' e''].
  destruct (shr_m mrs''); try reflexivity.
  destruct (Z.leb e'' _); reflexivity.
Qed.

Lemma binary_round_false_nonneg p e m ex :
  not_negative (binary_round p e false m ex) = true.
Proof.
  unfold binary_round. destruct (shl_align m ex _) as [mz ez].
  unfold binary_round_aux.
  destruct (shr_fexp _ _ _ _ _) as [mrs' e'].
  destruct (shr_fexp _ _ _ e' loc_Exact) as [mrs'' e''].
  destruct (shr_m mrs''); try reflexivity.
  destruct (Z.leb e'' _); reflexivity.
Qed.

Lemma fadd_nonneg x y :
  not_negative x = true -> not_negative y = true -> not_negative (fadd x y) = true.
Proof.
  destruct x as [[|]|[|]| |[|] mx ex], y as [[|]|[|]| |[|] my ey];
    try discriminate; try reflexivity.
  intros _ _. unfold fadd. cbn [SFadd cond_Zopp].
  apply binary_round_false_nonneg.
Qed.

Lemma not_negative_not_below_zero x : not_negative x = true -> flt x fzero = false.
Proof. destruct x as [[|]|[|]| |[|] ? ?]; try discriminate; reflexivity. Qed.

Lemma fadd_zero_l x : not_negative x = true -> fadd fzero x = x.
Proof. destruct x as [[|]|[|]| |[|] ? ?]; try discriminate; reflexivity. Qed.

Lemma euclid_dist_2_nonneg numdims coord1 coord2 :
  not_negative (euclid_dist_2 numdims coord1 coord2) = true.
Proof.
  unfold euclid_dist_2.
  apply (for_loop_preserves (fun x => not_negative x = true)); [reflexivity|].
  intros i ans _ H. apply fadd_nonneg; [exact H|apply sqdiff_nonneg].
Qed.

Lemma sqdiff_self x : is_number x = true -> sqdiff x x = fzero.
Proof.
  destruct x as [[|]|[|]| |s m e]; try discriminate; try reflexivity.
  intros _. unfold sqdiff, fsub. cbn [SFsub]. rewrite Z.sub_diag. reflexivity.
Qed.

(** X5: the squared distance that [euclid_dist_2] returns never compares
    below zero: it is a NaN, +0, a positive value or +infinity. *)
Theorem euclid_dist_2_not_negative numdims coord1 coord2 :
  flt (euclid_dist_2 numdims coord1 coord2) fzero = false /\
  not_negative (euclid_dist_2 numdims coord1 coord2) = true.
Proof.
  pose proof (euclid_dist_2_nonneg numdims coord1 coord2) as H.
  split; [apply not_negative_not_below_zero, H|exact H].
Qed.

(** X6: the squared distance of a point to itself is exactly +0 when its
    coordinates are numbers (for an infinite coordinate [x - x] is a NaN). *)
Theorem euclid_dist_2_of_itself numdims coord :
  (forall i, i < numdims -> is_number (rd coord i) = true) ->
  euclid_dist_2 numdims coord coord = fzero.
Proof.
  intros H. unfold euclid_dist_2.
  refine (for_loop_inv (fun _ x => x = fzero) 0 numdims _ _ _ _ _);
    [lia|reflexivity|].
  intros i ans Hi ->. fold (sqdiff (rd coord i) (rd coord i)).
  rewrite sqdiff_self by (apply H; lia). reflexivity.
Qed.

Lemma rd_nil c : rd [] c = fzero.
Proof. destruct c; reflexivity. Qed.

Lemma rd_column m c k : rd (column m c) k = rd2 m k c.
Proof.
  unfold column, rd2. unfold rd at 1.
  rewrite <- (rd_nil c) at 1. rewrite (map_nth (fun row => rd row c)). reflexivity.
Qed.

Lemma nth_columns m K c : c < K -> nth c (columns m K) [] = column m c.
Proof.
  intros Hc. unfold columns.
  rewrite nth_lookup, list_lookup_fmap, lookup_seq_lt by exact Hc. reflexivity.
Qed.

Lemma dist2_euclid objects cl D i c :
  0 < D ->
  dist2 objects cl D i c = euclid_dist_2 D (nth i objects []) (column cl c).
Proof.
  intros HD. unfold dist2, euclid_dist_2.
  rewrite (for_loop_first 0 D) by exact HD.
  rewrite rd_column. fold (sqdiff (rd (nth i objects []) 0) (rd2 cl 0 c)).
  rewrite fadd_zero_l by apply sqdiff_nonneg.
  change (rd (nth i objects []) 0) with (rd2 objects i 0).
  apply for_loop_ext. intros k d _. rewrite rd_column. reflexivity.
Qed.

Lemma not_nan_trichotomy x y :
  is_nan x = false -> is_nan y = false ->
  flt x y = false -> flt y x = false -> feq x y = true.
Proof. float_order. Qed.

Lemma is_nearest_unique dist K i1 i2 :
  (forall c, c < K -> is_nan (dist c) = false) ->
  is_nearest dist K i1 -> is_nearest dist K i2 -> i1 = i2.
Proof.
  intros Hn (H1 & M1 & T1) (H2 & M2 & T2).
  destruct (Nat.lt_trichotomy i1 i2) as [Hlt|[Heq|Hgt]]; [|exact Heq|]; exfalso.
  - pose proof (not_nan_trichotomy _ _ (Hn i1 H1) (Hn i2 H2) (M2 i1 H1) (M1 i2 H2)) as E.
    rewrite (T2 i1 Hlt) in E. discriminate.
  - pose proof (not_nan_trichotomy _ _ (Hn i2 H2) (Hn i1 H1) (M1 i2 H2) (M2 i1 H1)) as E.
    rewrite (T1 i2 Hgt) in E. discriminate.
Qed.

Lemma is_nearest_ext f g K i :
  (forall c, c < K -> f c = g c) -> is_nearest f K i -> is_nearest g K i.
Proof.
  intros E (H & M & T). split; [exact H|]. split.
  - intros c Hc. rewrite <- (E c Hc), <- (E i H). apply M, Hc.
  - intros c Hc. rewrite <- (E c ltac:(lia)), <- (E i H). apply T, Hc.
Qed.


(** ** The two searches *)

(** X1: for at least one cluster, [find_nearest_cluster] returns an index
    below [numClusters] such that no centroid is strictly closer and no
    centroid of lower index is at the same distance; when no distance is a
    NaN its distance is at most every other one. *)
Theorem base_search_returns_nearest (numClusters numCoords : nat)
    (object : vec) (cl : matrix) :
  0 < numClusters ->
  let dist := fun c => euclid_dist_2 numCoords object (nth c cl []) in
  let index := find_nearest_cluster numClusters numCoords object cl in
  is_nearest dist numClusters index /\
  ((forall c, c < numClusters -> is_nan (dist c) = false) ->
   forall c, c < numClusters -> fle (dist index) (dist c) = true).
Proof.
  intros HK. cbv zeta.
  pose proof (find_nearest_cluster_nearest numClusters numCoords object cl HK)
    as Hn.
  split; [exact Hn|]. intros Hnan c Hc. destruct Hn as (Hi & Hmin & _).
  pose proof (flt_fle _ _ (Hnan c Hc) (Hnan _ Hi)) as E.
  rewrite (Hmin c Hc) in E. destruct (fle _ _); [reflexivity|discriminate E].
Qed.

(** X26: when the distance to centroid 0 is a NaN, no comparison
    [dist < min_dist] succeeds and [find_nearest_cluster] returns 0, however
    close another centroid is. *)
Theorem base_search_nan_at_zero (numClusters numCoords : nat)
    (object : vec) (cl : matrix) :
  is_nan (euclid_dist_2 numCoords object (nth 0 cl [])) = true ->
  find_nearest_cluster numClusters numCoords object cl = 0.
Proof.
  intros Hnan. unfold find_nearest_cluster.
  match goal with
  | |- snd (for_loop _ _ ?body ?init) = _ =>
      assert (H : for_loop 1 numClusters body init = init)
  end.
  { apply (for_loop_preserves (fun s => s = _)); [reflexivity|].
    intros i s _ ->. cbv beta iota zeta.
    destruct (euclid_dist_2 numCoords object (nth 0 cl [])); try discriminate.
    replace (flt _ S754_nan) with false; [reflexivity|].
    unfold flt, SFltb, SFcompare.
    destruct (euclid_dist_2 numCoords object (nth i cl [])); reflexivity. }
  rewrite H. reflexivity.
Qed.

Section ImprovedSearchMore.

Variable objects : matrix.
Variables numCoords numClusters : Z.

Local Abbreviation D := (Z.to_nat numCoords).
Local Abbreviation K := (Z.to_nat numClusters).
Local Abbreviation nearest := (Improved.nearest objects numCoords numClusters).
Local Abbreviation distances :=
  (Improved.distances objects numCoords numClusters).

(** X2: when some centroid is at a squared distance below [INT_MAX] (as a
    [float], 2^31), the search of the improved version returns an index
    below [numClusters] such that no centroid is strictly closer and no
    centroid of lower index is at the same distance. *)
Theorem improved_search_below_INT_MAX cl i :
  (exists c, c < K /\
     flt (rd (distances cl i) c) (float_of_int INT_MAX) = true) ->
  is_nearest (rd (distances cl i)) K (nearest cl i).
Proof.
  intros Hex. unfold Improved.nearest.
  apply (scan_min_nearest numClusters). exact Hex.
Qed.

(** X3: when no centroid is at a squared distance below [INT_MAX], the
    search of the improved version returns 0. *)
Theorem improved_search_falls_back_to_zero cl i :
  (forall c, c < K ->
     flt (rd (distances cl i) c) (float_of_int INT_MAX) = false) ->
  nearest cl i = 0.
Proof.
  intros Hfar. unfold Improved.nearest, Improved.scan_min.
  match goal with
  | |- snd (for_loop _ _ ?body ?init) = _ =>
      assert (H : for_loop 0 K body init = init)
  end.
  { apply (for_loop_preserves (fun s => s = _)); [reflexivity|].
    intros j s Hj ->. cbv beta iota. rewrite Hfar by lia. reflexivity. }
  rewrite H. reflexivity.
Qed.

(** X7: for at least one coordinate, the cell [distArray[c]] that the
    improved version accumulates is the value [euclid_dist_2] returns for
    the object and column [c] of the centroid array, bit for bit. *)
Theorem improved_distance_is_euclid_dist_2 cl i c :
  (0 < numCoords)%Z -> c < K ->
  rd (distances cl i) c = euclid_dist_2 D (nth i objects []) (column cl c).
Proof.
  intros HD Hc. rewrite distances_spec by exact Hc.
  apply dist2_euclid. lia.
Qed.

(** X8: the two searches agree.  For at least one coordinate, when some
    centroid is closer than [INT_MAX] and no distance is a NaN, the search
    of the improved version returns what [find_nearest_cluster] returns on
    the same object and the transposed centroid array. *)
Theorem searches_agree cl i :
  (0 < numCoords)%Z ->
  (exists c, c < K /\
     flt (rd (distances cl i) c) (float_of_int INT_MAX) = true) ->
  (forall c, c < K -> is_nan (rd (distances cl i) c) = false) ->
  nearest cl i = find_nearest_cluster K D (nth i objects []) (columns cl K).
Proof.
  intros HD Hex Hn.
  assert (HK : 0 < K) by (destruct Hex as (c & Hc & _); lia).
  pose proof (scan_min_nearest numClusters (distances cl i) Hex) as HI.
  pose proof (find_nearest_cluster_nearest K D (nth i objects [])
                (columns cl K) HK) as HB.
  apply (is_nearest_unique _ _ _ _ Hn HI).
  refine (is_nearest_ext _ _ _ _ _ HB).
  intros c Hc. rewrite nth_columns by exact Hc. symmetry.
  rewrite distances_spec by exact Hc. apply dist2_euclid. lia.
Qed.

End ImprovedSearchMore.

(** ** Values of [delta]: neither negative nor a NaN *)

Lemma binary_round_aux_false_nonneg p e m ex l :
  not_negative (binary_round_aux p e false m ex l) = true.
Proof.
  unfold binary_round_aux.
  destruct (shr_fexp _ _ _ _ _) as [mrs' e'].
  destruct (shr_fexp _ _ _ e' loc_Exact) as [mrs'' e''].
  destruct (shr_m mrs''); try reflexivity.
  destruct (Z.leb e'' _); reflexivity.
Qed.

Lemma SFadd_nonneg p e x y :
  not_negative x = true -> not_negative y = true ->
  not_negative (SFadd p e x y) = true.
Proof.
  destruct x as [[|]|[|]| |[|] mx ex], y as [[|]|[|]| |[|] my ey];
    try discriminate; try reflexivity.
  intros _ _. cbn [SFadd cond_Zopp].
  apply binary_round_false_nonneg.
Qed.

Lemma add_one_nonneg x : not_negative x = true -> not_negative (add_one x) = true.
Proof.
  intros Hx. unfold add_one.
  assert (Hd : not_negative (double_of_float x) = true).
  { destruct x as [ | | |[|] m e]; try exact Hx; try discriminate.
    apply binary_round_false_nonneg. }
  pose proof (SFadd_nonneg 53 1024 (double_of_float x) double_one Hd
                eq_refl) as Hs.
  destruct (SFadd 53 1024 (double_of_float x) double_one)
    as [ | | |[|] m e]; try exact Hs; try discriminate.
  apply binary_round_false_nonneg.
Qed.

Lemma fdiv_int_nonneg x n :
  not_negative x = true -> (0 < n <= INT_MAX)%Z ->
  not_negative (fdiv x (float_of_int n)) = true.
Proof.
  intros Hx Hn. destruct (float_of_int_finite n) as (m & e & ->).
  - unfold INT_MAX in Hn. split; [lia|].
    apply Z.le_lt_trans with 2147483647%Z; [lia|]. reflexivity.
  - destruct x as [[|]|[|]| |[|] mx ex]; try discriminate; try reflexivity.
    unfold fdiv. cbn [SFdiv xorb].
    destruct (SFdiv_core_binary _ _ _ _ _ _) as [[mz ez] lz].
    apply binary_round_aux_false_nonneg.
Qed.



Lemma flt_nan_r x : flt x S754_nan = false.
Proof. destruct x; reflexivity. Qed.

(** A value that is neither negative nor a NaN. *)
Local Abbreviation counted := (fun d : float =>
  not_negative d = true /\ is_nan d = false).

Lemma add_one_counted x : counted x -> counted (add_one x).
Proof.
  intros [H1 H2]. split; [apply add_one_nonneg, H1|apply add_one_not_nan, H2].
Qed.

Lemma fadd_counted x y : counted x -> counted y -> counted (fadd x y).
Proof.
  intros [H1 H2] [H3 H4]. split; [apply fadd_nonneg; assumption|].
  destruct x as [[|]|[|]| |[|] mx ex], y as [[|]|[|]| |[|] my ey];
    try discriminate; try reflexivity.
  unfold fadd. cbn [SFadd]. apply binary_normalize_not_nan.
Qed.

Lemma rd_counted (c : vec) t : Forall counted c -> counted (rd c t).
Proof.
  intros Hc. unfold rd. destruct (decide (t < length c)) as [Ht|Ht].
  - apply (proj1 (List.Forall_nth counted c) Hc t fzero Ht).
  - rewrite nth_overflow by lia. split; reflexivity.
Qed.

(** Whatever the plan of the reduction, it leaves a value that is neither
    negative nor a NaN when the original value and the copies are such. *)
Lemma combined_counted p original (copies : vec) :
  counted original -> Forall counted copies ->
  counted (combined p original copies).
Proof.
  intros Ho Hc. induction p as [|t|l IHl r IHr]; cbn [combined].
  - exact Ho.
  - apply rd_counted, Hc.
  - apply fadd_counted; assumption.
Qed.

Lemma replicate_counted n : Forall counted (replicate n fzero).
Proof. apply Forall_replicate. split; reflexivity. Qed.

(** The loop over the objects keeps the copies of [delta] such. *)
Lemma counted_loop {S : Type} (pc : S -> vec) (body : nat -> S -> S) s0 n :
  (forall i s, pc (body i s) = pc s \/
     exists t, pc (body i s) = <[t := add_one (rd (pc s) t)]> (pc s)) ->
  Forall counted (pc s0) ->
  Forall counted (pc (for_loop 0 n body s0)).
Proof.
  intros Hbody H0.
  apply (for_loop_preserves (fun s => Forall counted (pc s))); [exact H0|].
  intros i s _ Hs. destruct (Hbody i s) as [->|(t & ->)]; [exact Hs|].
  apply Forall_insert; [exact Hs|]. apply add_one_counted, rd_counted, Hs.
Qed.

(** ** The loop of the improved version, further *)

Lemma update_centroids_untouched D K a :
  (forall i, (rdz (newClusterSize a) i <= 1)%Z) ->
  clusters (update_centroids D K a) = clusters a.
Proof.
  intros Hsmall.
  cut (clusters (update_centroids D K a) = clusters a /\
       forall i, (rdz (newClusterSize (update_centroids D K a)) i <= 1)%Z).
  { intros [H _]. exact H. }
  unfold update_centroids.
  apply (for_loop_preserves (fun a' =>
    clusters a' = clusters a /\
    forall i, (rdz (newClusterSize a') i <= 1)%Z)); [auto|].
  intros i a1 _ [Hc Hs]. unfold update_cluster.
  assert (Hin : clusters (for_loop 0 D (update_coord i) a1) = clusters a /\
                newClusterSize (for_loop 0 D (update_coord i) a1) =
                  newClusterSize a1).
  { apply (for_loop_preserves (fun a' =>
      clusters a' = clusters a /\ newClusterSize a' = newClusterSize a1));
      [auto|].
    intros j a2 _ [Hc2 Hs2]. unfold update_coord. cbn [clusters newClusterSize].
    split; [|exact Hs2]. rewrite Hs2.
    destruct (Z.ltb_spec 1 (rdz (newClusterSize a1) i)); [|exact Hc2].
    specialize (Hs i). lia. }
  destruct Hin as [Hc3 Hs3]. cbn [clusters newClusterSize].
  split; [exact Hc3|]. rewrite Hs3. intros k.
  destruct (decide (i = k)) as [->|Hne].
  - destruct (decide (k < length (newClusterSize a1))).
    + rewrite rdz_insert_eq by assumption. lia.
    + rewrite list_insert_ge by lia. apply Hs.
  - rewrite rdz_insert_ne by exact Hne. apply Hs.
Qed.


Lemma rdz_zeros K i : rdz (zeros K) i = 0%Z.
Proof.
  unfold zeros. destruct (decide (i < K)) as [Hi|Hi].
  - apply rdz_replicate, Hi.
  - unfold rdz. apply nth_overflow. rewrite length_replicate. lia.
Qed.

Lemma combined_zeros p n : combined p fzero (replicate n fzero) = fzero.
Proof.
  induction p as [|t|l IHl r IHr]; cbn [combined].
  - reflexivity.
  - apply rd_replicate.
  - rewrite IHl, IHr. reflexivity.
Qed.

Section ImprovedLoopMore.

Variable objects : matrix.
Variables numCoords numObjs numClusters : Z.
Variable threshold : float.
Variable nthreads : nat.
Variable tid_of : nat -> nat.
Variable landing : Z -> list (nat * nat).
Variable plan : Z -> reduction_plan.

Local Abbreviation D := (Z.to_nat numCoords).
Local Abbreviation N := (Z.to_nat numObjs).
Local Abbreviation K := (Z.to_nat numClusters).
Local Abbreviation assign_object :=
  (Improved.assign_object objects numCoords numClusters tid_of).
Local Abbreviation assignment_pass :=
  (Improved.assignment_pass objects numCoords numObjs numClusters nthreads
     tid_of landing plan).
Local Abbreviation iteration :=
  (Improved.iteration objects numCoords numObjs numClusters nthreads tid_of
     landing plan).
Local Abbreviation do_while :=
  (Improved.do_while objects numCoords numObjs numClusters threshold nthreads
     tid_of landing plan).
Local Abbreviation run_kmeans :=
  (Improved.run_kmeans objects numCoords numObjs numClusters threshold
     nthreads tid_of landing plan).
Local Abbreviation initial := (Improved.initial numCoords numObjs numClusters).

Lemma do_while_exit fuel st :
  (Improved.loop st <= 500)%Z ->
  Z.to_nat (501 - Improved.loop st) <= fuel ->
  exists r,
    do_while fuel st = Some r /\
    (1 <= Z.of_nat (Improved.passes r) <= 501 - Improved.loop st)%Z /\
    (Improved.status r = CONVERGED ->
       flt threshold (Improved.delta (Improved.final r)) = false /\
       Improved.loop (Improved.final r) =
         (Improved.loop st + Z.of_nat (Improved.passes r) - 1)%Z) /\
    (Improved.status r = MAX_ITERATIONS_REACHED ->
       flt threshold (Improved.delta (Improved.final r)) = true /\
       Improved.loop (Improved.final r) = 501%Z /\
       Z.of_nat (Improved.passes r) = (501 - Improved.loop st)%Z).
Proof.
  revert st. induction fuel as [|fuel IH]; intros st Hle Hfuel; [lia|].
  cbn [Improved.do_while].
  pose proof (iteration_loop objects numCoords numObjs numClusters nthreads
                tid_of landing plan st) as Hloop.
  destruct (flt threshold (Improved.delta (iteration st))) eqn:Hgt.
  - rewrite Hloop. destruct (Z.ltb_spec (Improved.loop st) 500) as [Hlt|Hge].
    + destruct (IH (Improved.set_loop (Improved.loop st + 1) (iteration st)))
        as (r & Hr & Hp & Hconv & Hmax);
        [unfold Improved.set_loop; cbn [Improved.loop]; lia ..|].
      rewrite Hr. eexists. split; [reflexivity|].
      unfold Improved.set_loop in Hp, Hconv, Hmax;
        cbn [Improved.loop] in Hp, Hconv, Hmax.
      cbn [Improved.passes Improved.status Improved.final].
      split; [lia|]. split.
      * intros Hs. destruct (Hconv Hs) as [H1 H2]. split; [exact H1|lia].
      * intros Hs. destruct (Hmax Hs) as (H1 & H2 & H3).
        split; [exact H1|]. split; [exact H2|lia].
    + eexists. split; [reflexivity|]. unfold Improved.set_loop.
      cbn [Improved.passes Improved.status Improved.final Improved.loop
           Improved.delta].
      split; [lia|]. split; [discriminate|]. intros _.
      split; [exact Hgt|]. lia.
  - eexists. split; [reflexivity|].
    cbn [Improved.passes Improved.status Improved.final].
    split; [lia|]. split; [|discriminate]. intros _.
    split; [exact Hgt|]. lia.
Qed.

(** X9: on every input, and whatever the runtime does, the improved
    [omp_kmeans] leaves its loop after at least 1 and at most 501
    executions of the body.  When it leaves because [delta > threshold]
    fails, [loop] is one less than the number of executions; when it leaves
    because [loop++ < 500] fails, [delta > threshold] still holds, the body
    has run 501 times and [loop] is 501. *)
Theorem improved_loop_exit cl :
  exists r,
    run_kmeans cl = Some r /\
    1 <= Improved.passes r <= 501 /\
    (Improved.status r = CONVERGED ->
       flt threshold (Improved.delta (Improved.final r)) = false /\
       Improved.loop (Improved.final r) = (Z.of_nat (Improved.passes r) - 1)%Z) /\
    (Improved.status r = MAX_ITERATIONS_REACHED ->
       flt threshold (Improved.delta (Improved.final r)) = true /\
       Improved.passes r = 501 /\
       Improved.loop (Improved.final r) = 501%Z).
Proof.
  destruct (do_while_exit 501 (initial cl)) as (r & Hr & Hp & Hconv & Hmax);
    [unfold Improved.initial; cbn [Improved.loop]; lia ..|].
  unfold Improved.initial in Hp, Hconv, Hmax;
    cbn [Improved.loop] in Hp, Hconv, Hmax.
  exists r. split; [exact Hr|]. split; [lia|]. split.
  - intros Hs. destruct (Hconv Hs) as [H1 H2]. split; [exact H1|lia].
  - intros Hs. destruct (Hmax Hs) as (H1 & H2 & H3).
    split; [exact H1|]. split; [lia|exact H2].
Qed.

(** The value that the reduction leaves in [delta] is neither negative nor
    a NaN, whatever the threads, the schedule and the plan. *)
Lemma improved_pass_delta_counted st :
  counted (Improved.delta (assignment_pass (Improved.set_delta fzero st))).
Proof.
  rewrite improved_pass_delta_copies.
  apply combined_counted; [split; reflexivity|].
  apply (counted_loop Improved.copies).
  - intros i s. unfold Improved.assign_object. cbn [Improved.copies].
    destruct (negb _); [right; eexists; reflexivity|left; reflexivity].
  - apply replicate_counted.
Qed.

Lemma improved_delta_counted st :
  (0 < numObjs <= INT_MAX)%Z -> counted (Improved.delta (iteration st)).
Proof.
  intros HN. rewrite improved_iteration_delta.
  destruct (improved_pass_delta_counted st) as [H1 H2].
  split; [apply fdiv_int_nonneg|apply fdiv_int_not_nan]; assumption.
Qed.

(** X11: for a positive number of objects, the fraction [delta] that an
    iteration leaves for the test [delta > threshold] is never a NaN,
    whatever the state the iteration starts from and whatever the runtime
    does. *)
Theorem improved_delta_is_a_number st :
  (0 < numObjs <= INT_MAX)%Z ->
  is_nan (Improved.delta (iteration st)) = false.
Proof. intros HN. apply (improved_delta_counted st HN). Qed.

End ImprovedLoopMore.

(** X12: with no object ([numObjs = 0]) the improved [omp_kmeans] executes
    the body of its loop once, [delta] becomes 0.0 / 0, a NaN, for which
    [delta > threshold] fails whatever the threshold; it returns 1 with an
    empty membership array and the centroid array as it was passed. *)
Theorem improved_empty_input (a : Z) (objects : matrix)
    (numCoords numClusters : Z) (threshold : float) (nthreads : nat)
    (tid_of : nat -> nat) (landing : Z -> list (nat * nat))
    (plan : Z -> reduction_plan) (cl : matrix) :
  Improved.omp_kmeans a objects numCoords 0 numClusters threshold nthreads
    tid_of landing plan cl = Some (mkOutput 1 [] cl) /\
  option_map Improved.passes
    (Improved.run_kmeans objects numCoords 0 numClusters threshold nthreads
       tid_of landing plan cl) = Some 1.
Proof.
  set (st0 := Improved.initial numCoords 0 numClusters cl).
  set (st1 := Improved.iteration objects numCoords 0 numClusters nthreads
                tid_of landing plan st0).
  set (st' := Improved.assignment_pass objects numCoords 0 numClusters
                nthreads tid_of landing plan (Improved.set_delta fzero st0)).
  assert (Hloop : for_loop 0 (Z.to_nat 0)
            (Improved.assign_object objects numCoords numClusters tid_of)
            (Improved.set_copies (replicate nthreads fzero)
               (Improved.set_delta fzero st0)) =
          Improved.set_copies (replicate nthreads fzero)
            (Improved.set_delta fzero st0))
    by (apply for_loop_empty; simpl; lia).
  assert (Hd' : Improved.delta st' = fzero).
  { unfold st', Improved.assignment_pass. rewrite Hloop.
    cbn [Improved.delta Improved.set_delta Improved.set_acc Improved.copies
         Improved.set_copies].
    apply combined_zeros. }
  assert (Hm' : Improved.membership st' = []).
  { unfold st', Improved.assignment_pass. rewrite Hloop. reflexivity. }
  assert (Hs' : newClusterSize (Improved.acc st') = zeros (Z.to_nat numClusters)).
  { unfold st', Improved.assignment_pass. rewrite Hloop. reflexivity. }
  assert (Hc' : clusters (Improved.acc st') = cl).
  { unfold st', Improved.assignment_pass. rewrite Hloop. reflexivity. }
  assert (Hd : Improved.delta st1 = S754_nan).
  { unfold st1. rewrite improved_iteration_delta. fold st0. fold st'.
    rewrite Hd'. reflexivity. }
  assert (Hm : Improved.membership st1 = []) by exact Hm'.
  assert (Hc : clusters (Improved.acc st1) = cl).
  { unfold st1, Improved.iteration. fold st'.
    cbn [Improved.acc Improved.set_delta Improved.set_acc].
    rewrite update_centroids_untouched; [exact Hc'|].
    intros i. rewrite Hs', rdz_zeros. lia. }
  assert (Hrun :
    Improved.run_kmeans objects numCoords 0 numClusters threshold nthreads
      tid_of landing plan cl = Some (Improved.mkRun st1 CONVERGED 1)).
  { unfold Improved.run_kmeans.
    apply (do_while_converged objects numCoords 0 numClusters threshold
             nthreads tid_of landing plan 500).
    fold st0. fold st1. rewrite Hd. apply flt_nan_r. }
  unfold Improved.omp_kmeans. rewrite Hrun.
  cbn [Improved.final option_map Improved.passes]. rewrite Hm, Hc.
  split; reflexivity.
Qed.

Section ImprovedPassMore.

Variable objects : matrix.
Variables numCoords numObjs numClusters : Z.
Variable threshold : float.
Variable nthreads : nat.
Variable tid_of : nat -> nat.
Variable landing : Z -> list (nat * nat).
Variable plan : Z -> reduction_plan.
Variable cl0 : matrix.

Local Abbreviation D := (Z.to_nat numCoords).
Local Abbreviation N := (Z.to_nat numObjs).
Local Abbreviation K := (Z.to_nat numClusters).
Local Abbreviation nearest := (Improved.nearest objects numCoords numClusters).
Local Abbreviation assignment_pass :=
  (Improved.assignment_pass objects numCoords numObjs numClusters nthreads
     tid_of landing plan).
Local Abbreviation iteration :=
  (Improved.iteration objects numCoords numObjs numClusters nthreads tid_of
     landing plan).
Local Abbreviation do_while :=
  (Improved.do_while objects numCoords numObjs numClusters threshold nthreads
     tid_of landing plan).
Local Abbreviation loop_head :=
  (Improved.loop_head objects numCoords numObjs numClusters nthreads tid_of
     landing plan cl0).
Local Abbreviation initial := (Improved.initial numCoords numObjs numClusters).

(** X13: in the first iteration every object counts as changed, since the
    membership array starts at -1.  For at most 2^24 objects, whatever the
    number of threads, the schedule and the plan of the reduction, the
    copies of [delta] add up to [numObjs] exactly, and [delta] is
    [numObjs / numObjs] after the division. *)
Theorem first_pass_counts_every_object :
  Improved.in_bounds objects numCoords numObjs ->
  (forall i, tid_of i < nthreads) ->
  plan_covers nthreads (plan 0%Z) ->
  (0 <= numObjs <= 16777216)%Z ->
  length (changed (Improved.membership (initial cl0))
            (nearest (clusters (Improved.acc (initial cl0)))) N) = N /\
  Improved.delta (assignment_pass (Improved.set_delta fzero (initial cl0))) =
    float_of_int numObjs /\
  Improved.delta (iteration (initial cl0)) =
    fdiv (float_of_int numObjs) (float_of_int numObjs).
Proof.
  intros _ Htid Hp HN.
  assert (Hall : length (changed (Improved.membership (initial cl0))
                   (nearest (clusters (Improved.acc (initial cl0)))) N) = N)
    by apply changed_initial.
  assert (Hd : Improved.delta
                 (assignment_pass (Improved.set_delta fzero (initial cl0))) =
               float_of_int numObjs).
  { rewrite (improved_pass_delta objects numCoords numObjs numClusters
               nthreads tid_of landing plan (initial cl0) Htid Hp) by lia.
    rewrite Hall. f_equal. lia. }
  split; [exact Hall|]. split; [exact Hd|].
  rewrite improved_iteration_delta, Hd. reflexivity.
Qed.

(** The fraction of changed objects.  For at most 2^24 objects, whatever
    the state the iteration starts from, the number of threads, the
    schedule and the plan of the reduction, an iteration leaves in [delta]
    the number of objects whose new cluster differs from their entry of
    the membership array, divided by [numObjs]; and, for a positive
    [numObjs] and a threshold that is a number, the loop is left as
    converged at this iteration exactly when that quotient is at most the
    threshold. *)
Theorem improved_fraction_of_changed_objects st fuel :
  Improved.in_bounds objects numCoords numObjs ->
  (forall i, tid_of i < nthreads) ->
  plan_covers nthreads (plan (Improved.loop st)) ->
  (0 < numObjs <= 16777216)%Z ->
  is_nan threshold = false ->
  let near := nearest (clusters (Improved.acc st)) in
  let count := Z.of_nat (length (changed (Improved.membership st) near N)) in
  let frac := fdiv (float_of_int count) (float_of_int numObjs) in
  Improved.delta (iteration st) = frac /\
  (fle frac threshold = true <->
   exists r, do_while (Datatypes.S fuel) st = Some r /\
             Improved.status r = CONVERGED /\ Improved.passes r = 1).
Proof.
  intros _ Htid Hp HN Ht. cbv zeta.
  assert (Hfrac : Improved.delta (iteration st) =
    fdiv (float_of_int (Z.of_nat (length (changed (Improved.membership st)
                      (nearest (clusters (Improved.acc st))) N))))
         (float_of_int numObjs)).
  { rewrite improved_iteration_delta.
    rewrite (improved_pass_delta objects numCoords numObjs numClusters
               nthreads tid_of landing plan st Htid Hp) by lia.
    reflexivity. }
  split; [exact Hfrac|].
  assert (Hf : is_nan (Improved.delta (iteration st)) = false)
    by (eapply proj2; apply improved_delta_counted; unfold INT_MAX; lia).
  rewrite <- Hfrac.
  cbn [Improved.do_while]. rewrite (flt_fle _ _ Ht Hf).
  destruct (fle (Improved.delta (iteration st)) threshold); simpl.
  - split; [intros _|reflexivity]. eexists. split; [reflexivity|]. auto.
  - split; [discriminate|]. intros (r & Hr & Hs & Hpass). exfalso.
    destruct (_ <? 500)%Z.
    + destruct (Improved.do_while _ _ _ _ _ _ _ _ _ fuel _) as [r'|] eqn:Hr';
        [|discriminate].
      apply do_while_passes in Hr'. injection Hr as <-. simpl in Hpass. lia.
    + injection Hr as <-. discriminate.
Qed.

Hypothesis cl0_shaped : shaped D K cl0.
Hypothesis K_positive : (0 < numClusters)%Z.

(** X14: an assignment pass entered at the head of the loop leaves the
    centroids as they were, and leaves for every cluster [c] the number of
    objects whose membership entry is [c] in [newClusterSize[c]] and, for
    every coordinate [j], in [newClusters[j][c]] the sum of their
    coordinates [j], added from 0.0 in the order in which the atomic
    additions into that cell landed: some order of the objects of the
    cluster, each once, when every addition of the pass lands once. *)
Theorem improved_accumulators_after_pass st :
  Improved.in_bounds objects numCoords numObjs ->
  loop_head st ->
  Permutation (landing (Improved.loop st)) (program_order N D) ->
  let near := nearest (clusters (Improved.acc st)) in
  let st1 := assignment_pass (Improved.set_delta fzero st) in
  clusters (Improved.acc st1) = clusters (Improved.acc st) /\
  forall c, c < K ->
    let mine := assigned (Improved.membership st1) N c in
    rdz (newClusterSize (Improved.acc st1)) c = Z.of_nat (length mine) /\
    forall j, j < D ->
      let order := landed near (landing (Improved.loop st)) j c in
      Permutation order mine /\
      rd2 (newClusters (Improved.acc st1)) j c = coord_sum objects j order fzero.
Proof.
  intros _ Hst Hland. cbv zeta.
  destruct (pass_at_head objects numCoords numObjs numClusters nthreads
              tid_of landing plan cl0 cl0_shaped K_positive st Hst)
    as (_ & Hcl & _ & _ & Has & Hsz & Hsum).
  split; [exact Hcl|]. intros c Hc. rewrite Has. split; [apply Hsz, Hc|].
  intros j Hj. split; [|apply Hsum; assumption].
  apply (landed_members _ N D); assumption.
Qed.

(** X15: the membership array that the improved [omp_kmeans] hands back
    has one entry per object and every entry is a cluster index in
    [0, numClusters): no entry is left at the initial -1. *)
Theorem improved_output_membership a out :
  Improved.in_bounds objects numCoords numObjs ->
  Improved.omp_kmeans a objects numCoords numObjs numClusters threshold
    nthreads tid_of landing plan cl0 = Some out ->
  length (out_membership out) = N /\
  forall i, i < N -> (0 <= rdz (out_membership out) i < numClusters)%Z.
Proof.
  intros _ Hout.
  apply (output_entries_in_range objects numCoords numObjs numClusters
           threshold nthreads tid_of landing plan cl0 a out cl0_shaped
           K_positive Hout).
Qed.

(** The improved version keeps the centroid of a cluster that has at most
    one member after the assignment pass: every coordinate of it is, after
    the iteration, what it was before. *)
Theorem improved_small_cluster_keeps_centroid st c :
  Improved.in_bounds objects numCoords numObjs ->
  loop_head st -> c < K ->
  let st1 := assignment_pass (Improved.set_delta fzero st) in
  length (assigned (Improved.membership st1) N c) <= 1 ->
  forall j,
    rd2 (clusters (Improved.acc (iteration st))) j c =
    rd2 (clusters (Improved.acc st)) j c.
Proof.
  intros _ Hst Hc.
  apply (improved_small_cluster_kept objects numCoords numObjs numClusters
           nthreads tid_of landing plan cl0 cl0_shaped K_positive st c Hst Hc).
Qed.

(** The improved version gives a cluster that has more than one member
    after the assignment pass, coordinate by coordinate, the sum of the
    coordinates of its members divided by their number, the sum being
    formed in binary32 from 0.0 in the order in which the atomic additions
    landed; after the update every accumulator is zero. *)
Theorem improved_big_cluster_gets_mean st c :
  Improved.in_bounds objects numCoords numObjs ->
  loop_head st -> c < K ->
  Permutation (landing (Improved.loop st)) (program_order N D) ->
  let near := nearest (clusters (Improved.acc st)) in
  let st1 := assignment_pass (Improved.set_delta fzero st) in
  let mine := assigned (Improved.membership st1) N c in
  1 < length mine ->
  (forall j, j < D ->
     let order := landed near (landing (Improved.loop st)) j c in
     Permutation order mine /\
     rd2 (clusters (Improved.acc (iteration st))) j c =
       fdiv (coord_sum objects j order fzero)
            (float_of_int (Z.of_nat (length mine)))) /\
  (forall c', c' < K ->
     rdz (newClusterSize (Improved.acc (iteration st))) c' = 0%Z /\
     forall j, j < D ->
       rd2 (newClusters (Improved.acc (iteration st))) j c' = fzero).
Proof.
  intros _ Hst Hc Hland. cbv zeta. intros Hbig.
  destruct (improved_big_cluster_mean objects numCoords numObjs numClusters
              nthreads tid_of landing plan cl0 cl0_shaped K_positive st c
              Hst Hc Hbig) as [Hmean Hzero].
  split; [|exact Hzero]. intros j Hj. split; [|apply Hmean, Hj].
  destruct (pass_at_head objects numCoords numObjs numClusters nthreads
              tid_of landing plan cl0 cl0_shaped K_positive st Hst)
    as (_ & _ & _ & _ & Has & _).
  rewrite Has. apply (landed_members _ N D); assumption.
Qed.

End ImprovedPassMore.

(** ** The loop of the base version *)

Section BaseLoop.

Variable is_perform_atomic : Z.
Variable objects : matrix.
Variables numCoords numObjs numClusters : Z.
Variable threshold : float.
Variable nthreads : nat.
Variable tid_of : nat -> nat.
Variable landing : Z -> list (nat * nat).
Variable plan : Z -> reduction_plan.
Variable overflow : float -> Z.

Local Abbreviation D := (Z.to_nat numCoords).
Local Abbreviation N := (Z.to_nat numObjs).
Local Abbreviation K := (Z.to_nat numClusters).
Local Abbreviation local_object :=
  (Base.local_object objects numCoords numClusters tid_of).
Local Abbreviation atomic_object :=
  (Base.atomic_object objects numCoords numClusters tid_of overflow).
Local Abbreviation atomic_nearest :=
  (Base.atomic_nearest objects numCoords numClusters overflow).
Local Abbreviation reduction := (Base.reduction numCoords numClusters nthreads).
Local Abbreviation assignment_pass :=
  (Base.assignment_pass is_perform_atomic objects numCoords numObjs
     numClusters nthreads tid_of landing plan overflow).
Local Abbreviation iteration :=
  (Base.iteration is_perform_atomic objects numCoords numObjs numClusters
     nthreads tid_of landing plan overflow).
Local Abbreviation do_while :=
  (Base.do_while is_perform_atomic objects numCoords numObjs numClusters
     threshold nthreads tid_of landing plan overflow).
Local Abbreviation run_kmeans :=
  (Base.run_kmeans is_perform_atomic objects numCoords numObjs numClusters
     threshold nthreads tid_of landing plan overflow).
Local Abbreviation initial :=
  (Base.initial numCoords numObjs numClusters nthreads).
Local Abbreviation search :=
  (base_search is_perform_atomic objects numCoords numClusters overflow).

(** The reduction of the per-thread arrays leaves the rest of the state. *)
Lemma reduce_thread_frame i j st :
  let st' := Base.reduce_thread numCoords numClusters i j st in
  Base.loop st' = Base.loop st /\ Base.delta st' = Base.delta st /\
  Base.copies st' = Base.copies st /\
  Base.membership st' = Base.membership st.
Proof.
  cbv zeta. unfold Base.reduce_thread.
  destruct (for_loop 0 D _ _) as [nc' lc']. auto.
Qed.

Lemma reduction_frame st :
  Base.loop (reduction st) = Base.loop st /\
  Base.delta (reduction st) = Base.delta st /\
  Base.copies (reduction st) = Base.copies st /\
  Base.membership (reduction st) = Base.membership st.
Proof.
  unfold Base.reduction.
  apply (for_loop_preserves (fun st' =>
    Base.loop st' = Base.loop st /\ Base.delta st' = Base.delta st /\
    Base.copies st' = Base.copies st /\
    Base.membership st' = Base.membership st)); [auto|].
  intros i st' _ H.
  apply (for_loop_preserves (fun st'' =>
    Base.loop st'' = Base.loop st /\ Base.delta st'' = Base.delta st /\
    Base.copies st'' = Base.copies st /\
    Base.membership st'' = Base.membership st)); [exact H|].
  intros j st'' _ (H1 & H2 & H3 & H4).
  destruct (reduce_thread_frame i j st'') as (F1 & F2 & F3 & F4).
  repeat split; congruence.
Qed.

(** The loop over the objects under either discipline: the membership
    array and the private copies of [delta]. *)
Lemma base_copies st n :
  let body := if negb (is_perform_atomic =? 0)%Z then atomic_object
              else local_object in
  let st' := for_loop 0 n body st in
  clusters (Base.acc st') = clusters (Base.acc st) /\
  Base.delta st' = Base.delta st /\
  Base.loop st' = Base.loop st /\
  (forall i, n <= i ->
     rdz (Base.membership st') i = rdz (Base.membership st) i) /\
  length (Base.copies st') = length (Base.copies st) /\
  forall t, t < length (Base.copies st) ->
    rd (Base.copies st') t =
      Nat.iter (length (thread_changed tid_of (Base.membership st)
                          (search (clusters (Base.acc st))) n t))
        add_one (rd (Base.copies st) t).
Proof.
  cbv zeta.
  destruct (count_loop Base.membership Base.copies
              (fun s => clusters (Base.acc s) = clusters (Base.acc st) /\
                        Base.delta s = Base.delta st /\
                        Base.loop s = Base.loop st)
              (search (clusters (Base.acc st))) tid_of
              (if negb (is_perform_atomic =? 0)%Z then atomic_object
               else local_object) st n)
    as ((Hcl & Hd & Hl) & Hm & Hlen & Hc).
  - auto.
  - intros i s (Hcl & Hd & Hl). unfold base_search.
    destruct (negb (is_perform_atomic =? 0)%Z).
    + unfold Base.atomic_object, Base.record_membership, Base.set_acc.
      cbn [Base.acc Base.membership Base.copies Base.delta Base.loop clusters].
      rewrite Hcl. auto.
    + unfold Base.local_object, Base.record_membership.
      cbn [Base.acc Base.membership Base.copies Base.delta Base.loop clusters].
      rewrite Hcl. auto.
  - split; [exact Hcl|]. split; [exact Hd|]. split; [exact Hl|].
    split; [exact Hm|]. split; [exact Hlen|exact Hc].
Qed.

(** The state after the loop over the objects of an assignment pass. *)
Local Abbreviation after_objects := (fun st : Base.state =>
  for_loop 0 N
    (if negb (is_perform_atomic =? 0)%Z then atomic_object else local_object)
    (Base.set_copies (replicate nthreads fzero) st)).

Lemma base_pass_frame st :
  Base.loop (assignment_pass st) = Base.loop st /\
  Base.delta (assignment_pass st) =
    combined (plan (Base.loop st)) (Base.delta st)
      (Base.copies (after_objects st)) /\
  Base.membership (assignment_pass st) = Base.membership (after_objects st).
Proof.
  destruct (base_copies (Base.set_copies (replicate nthreads fzero) st) N)
    as (_ & Hd & Hl & _).
  cbv zeta in Hd, Hl. unfold Base.assignment_pass.
  destruct (negb (is_perform_atomic =? 0)%Z).
  - unfold Base.combine_delta.
    cbn [Base.loop Base.delta Base.membership Base.copies Base.set_delta
         Base.set_acc].
    rewrite Hd, Hl. auto.
  - destruct (reduction_frame
                (Base.combine_delta plan
                   (for_loop 0 N local_object
                      (Base.set_copies (replicate nthreads fzero) st))))
      as (R1 & R2 & _ & R4).
    rewrite R1, R2, R4. unfold Base.combine_delta.
    cbn [Base.loop Base.delta Base.membership Base.copies Base.set_delta].
    rewrite Hd, Hl. auto.
Qed.


Lemma base_iteration_delta st :
  Base.delta (iteration st) =
    fdiv (Base.delta (assignment_pass (Base.set_delta fzero st)))
         (float_of_int numObjs).
Proof. reflexivity. Qed.



(** For at most 2^24 objects, [delta] is, after the reduction, the number
    of objects whose entry changes, and every entry is the index that the
    search returns. *)
Lemma base_pass_delta st :
  (forall i, tid_of i < nthreads) ->
  plan_covers nthreads (plan (Base.loop st)) ->
  (numObjs <= 16777216)%Z ->
  Base.delta (assignment_pass (Base.set_delta fzero st)) =
    float_of_int (Z.of_nat (length
      (changed (Base.membership st) (search (clusters (Base.acc st))) N))).
Proof.
  intros Htid Hp HN.
  destruct (base_pass_frame (Base.set_delta fzero st)) as (_ & -> & _).
  cbn [Base.loop Base.delta Base.set_delta].
  apply (reduced_delta tid_of _ _ nthreads N _ _ Htid Hp).
  - pose proof (changed_length (Base.membership st)
                  (search (clusters (Base.acc st))) N). lia.
  - intros t Ht.
    destruct (base_copies
                (Base.set_copies (replicate nthreads fzero)
                   (Base.set_delta fzero st)) N) as (_ & _ & _ & _ & _ & Hc).
    cbv zeta in Hc.
    rewrite Hc by (cbn [Base.copies Base.set_copies];
                   rewrite length_replicate; exact Ht).
    cbn [Base.copies Base.set_copies Base.membership Base.set_delta Base.acc].
    rewrite rd_replicate. reflexivity.
Qed.



End BaseLoop.

(** ** Counters per cluster in the base version *)

Lemma rdz_overflow (l : list Z) i : length l <= i -> rdz l i = 0%Z.
Proof. intros H. unfold rdz. apply nth_overflow, H. Qed.

Lemma rdz_column (L : list (list Z)) j c :
  rdz (map (fun row => rdz row c) L) j = rdz2 L j c.
Proof.
  unfold rdz2. destruct (decide (j < length L)) as [Hj|Hj].
  - unfold rdz at 1.
    rewrite (nth_indep _ 0%Z (rdz [] c)) by (rewrite length_map; exact Hj).
    apply (map_nth (fun row => rdz row c)).
  - rewrite rdz_overflow by (rewrite length_map; lia).
    rewrite (nth_overflow L) by lia. symmetry. apply rdz_overflow. simpl. lia.
Qed.

Lemma colsum_insert (L : list (list Z)) j l c :
  j < length L ->
  colsum (<[j := l]> L) c = (colsum L c - rdz2 L j c + rdz l c)%Z.
Proof.
  intros Hj. unfold colsum.
  change (map (fun row => rdz row c) (<[j := l]> L))
    with ((fun row => rdz row c) <$> <[j := l]> L).
  rewrite list_fmap_insert, Zsum_insert by (rewrite length_fmap; exact Hj).
  change ((fun row => rdz row c) <$> L) with (map (fun row => rdz row c) L).
  rewrite rdz_column. reflexivity.
Qed.

Lemma colsum_zero T (L : list (list Z)) c :
  length L = T ->
  (forall j, j < T -> rdz2 L j c = 0%Z) -> colsum L c = 0%Z.
Proof.
  intros HT Hz. unfold colsum. apply Zsum_zero. intros j Hj.
  rewrite length_map in Hj. rewrite rdz_column. apply Hz. lia.
Qed.

Section BaseCounters.

Variable is_perform_atomic : Z.
Variable objects : matrix.
Variables numCoords numObjs numClusters : Z.
Variable nthreads : nat.
Variable tid_of : nat -> nat.
Variable landing : Z -> list (nat * nat).
Variable plan : Z -> reduction_plan.
Variable overflow : float -> Z.

Local Abbreviation D := (Z.to_nat numCoords).
Local Abbreviation N := (Z.to_nat numObjs).
Local Abbreviation K := (Z.to_nat numClusters).
Local Abbreviation local_object :=
  (Base.local_object objects numCoords numClusters tid_of).
Local Abbreviation atomic_object :=
  (Base.atomic_object objects numCoords numClusters tid_of overflow).
Local Abbreviation atomic_nearest :=
  (Base.atomic_nearest objects numCoords numClusters overflow).
Local Abbreviation atomic_land :=
  (Base.atomic_land objects numCoords numClusters overflow).
Local Abbreviation reduce_thread := (Base.reduce_thread numCoords numClusters).
Local Abbreviation reduction :=
  (Base.reduction numCoords numClusters nthreads).
Local Abbreviation base_pass :=
  (Base.assignment_pass is_perform_atomic objects numCoords numObjs
     numClusters nthreads tid_of landing plan overflow).

Hypothesis tid_bound : forall i, tid_of i < nthreads.
Hypothesis K_positive : (0 < numClusters)%Z.

Local Abbreviation search :=
  (base_search is_perform_atomic objects numCoords numClusters overflow).

Lemma local_pass_cols st n :
  local_shaped nthreads K (Base.local_newClusterSize st) ->
  let near := fun i =>
    find_nearest_cluster K D (nth i objects []) (clusters (Base.acc st)) in
  let st' := for_loop 0 n local_object st in
  Base.acc st' = Base.acc st /\
  local_shaped nthreads K (Base.local_newClusterSize st') /\
  length (Base.membership st') = length (Base.membership st) /\
  (forall i, i < length (Base.membership st) ->
     rdz (Base.membership st') i =
       if decide (i < n) then Z.of_nat (near i)
       else rdz (Base.membership st) i) /\
  (forall c, colsum (Base.local_newClusterSize st') c =
     (colsum (Base.local_newClusterSize st) c +
      Z.of_nat (length (members near n c)))%Z).
Proof.
  intros Hsh. cbv zeta.
  set (near := fun i =>
    find_nearest_cluster K D (nth i objects []) (clusters (Base.acc st))).
  refine (for_loop_inv (fun n st' =>
    Base.acc st' = Base.acc st /\
    local_shaped nthreads K (Base.local_newClusterSize st') /\
    length (Base.membership st') = length (Base.membership st) /\
    (forall i, i < length (Base.membership st) ->
       rdz (Base.membership st') i =
         if decide (i < n) then Z.of_nat (near i)
         else rdz (Base.membership st) i) /\
    (forall c, colsum (Base.local_newClusterSize st') c =
       (colsum (Base.local_newClusterSize st) c +
        Z.of_nat (length (members near n c)))%Z))
    0 n _ st _ _ _); [lia| |].
  - split; [reflexivity|]. split; [exact Hsh|]. split; [reflexivity|].
    split.
    + intros i _. destruct (decide (i < 0)); [lia|reflexivity].
    + intros c. unfold members; simpl. lia.
  - intros m st' Hm (Hacc & Hloc & Hlen & Hmem & Hcol).
    unfold Base.local_object, Base.record_membership.
    cbn [Base.acc Base.membership Base.local_newClusterSize Base.delta].
    rewrite Hacc. fold (near m).
    assert (Hidx : near m < K)
      by apply (find_nearest_cluster_lt numCoords numClusters K_positive).
    pose proof (tid_bound m) as Htid.
    pose proof (local_shaped_nth nthreads K _ (tid_of m) Hloc Htid) as Hrow.
    split; [reflexivity|].
    split; [|split; [rewrite length_insert; exact Hlen|split]].
    + apply local_shaped_insert; [exact Hloc|].
      rewrite length_insert. exact Hrow.
    + intros i Hi. destruct (decide (i = m)) as [->|Hne].
      * rewrite rdz_insert_eq by lia.
        destruct (decide (m < Datatypes.S m)); [reflexivity|lia].
      * rewrite rdz_insert_ne by lia. rewrite (Hmem i Hi).
        destruct (decide (i < m)), (decide (i < Datatypes.S m));
          try lia; reflexivity.
    + intros c.
      rewrite colsum_insert by (destruct Hloc as [-> _]; exact Htid).
      rewrite Hcol, members_snoc, length_app. unfold rdz2.
      destruct (decide (c = near m)) as [->|Hne].
      * rewrite rdz_insert_eq by lia. rewrite Nat.eqb_refl. simpl. lia.
      * rewrite rdz_insert_ne by congruence.
        destruct (Nat.eqb_spec (near m) c); [congruence|]. simpl. lia.
Qed.

Lemma atomic_pass_cols st n :
  accum_shaped D K (Base.acc st) ->
  let near := atomic_nearest (clusters (Base.acc st)) in
  let st' := for_loop 0 n atomic_object st in
  accum_shaped D K (Base.acc st') /\
  clusters (Base.acc st') = clusters (Base.acc st) /\
  newClusters (Base.acc st') = newClusters (Base.acc st) /\
  Base.loop st' = Base.loop st /\
  length (Base.membership st') = length (Base.membership st) /\
  (forall i, i < length (Base.membership st) ->
     rdz (Base.membership st') i =
       if decide (i < n) then Z.of_nat (near i)
       else rdz (Base.membership st) i) /\
  (forall c, rdz (newClusterSize (Base.acc st')) c =
     (rdz (newClusterSize (Base.acc st)) c +
      Z.of_nat (length (members near n c)))%Z).
Proof.
  intros Hsh. cbv zeta.
  set (near := atomic_nearest (clusters (Base.acc st))).
  refine (for_loop_inv (fun n st' =>
    accum_shaped D K (Base.acc st') /\
    clusters (Base.acc st') = clusters (Base.acc st) /\
    newClusters (Base.acc st') = newClusters (Base.acc st) /\
    Base.loop st' = Base.loop st /\
    length (Base.membership st') = length (Base.membership st) /\
    (forall i, i < length (Base.membership st) ->
       rdz (Base.membership st') i =
         if decide (i < n) then Z.of_nat (near i)
         else rdz (Base.membership st) i) /\
    (forall c, rdz (newClusterSize (Base.acc st')) c =
       (rdz (newClusterSize (Base.acc st)) c +
        Z.of_nat (length (members near n c)))%Z))
    0 n _ st _ _ _); [lia| |].
  - split; [exact Hsh|]. do 4 (split; [reflexivity|]).
    split.
    + intros i _. destruct (decide (i < 0)); [lia|reflexivity].
    + intros c. unfold members; simpl. lia.
  - intros m st' Hm ((Hc & Hn & Hl) & Hcl & Hnc & Hlp & Hlen & Hmem & Hsz).
    unfold Base.atomic_object, Base.record_membership, Base.set_acc.
    cbn [Base.acc Base.membership Base.local_newClusterSize Base.delta
         Base.loop clusters newClusters newClusterSize].
    rewrite Hcl. fold near.
    pose proof (atomic_nearest_lt objects numCoords numClusters overflow
                  K_positive (clusters (Base.acc st)) m) as Hidx.
    fold near in Hidx.
    split; [|split; [reflexivity|split; [exact Hnc|split; [exact Hlp|
            split; [rewrite length_insert; exact Hlen|split]]]]].
    + unfold accum_shaped; cbn [clusters newClusters newClusterSize].
      split; [rewrite <- Hcl; exact Hc|].
      split; [exact Hn|rewrite length_insert; exact Hl].
    + intros i Hi. destruct (decide (i = m)) as [->|Hne].
      * rewrite rdz_insert_eq by lia.
        destruct (decide (m < Datatypes.S m)); [reflexivity|lia].
      * rewrite rdz_insert_ne by lia. rewrite (Hmem i Hi).
        destruct (decide (i < m)), (decide (i < Datatypes.S m));
          try lia; reflexivity.
    + intros c. rewrite members_snoc, length_app.
      destruct (decide (c = near m)) as [->|Hne].
      * rewrite rdz_insert_eq by lia. rewrite Hsz, Nat.eqb_refl. simpl. lia.
      * rewrite rdz_insert_ne by congruence. rewrite Hsz.
        destruct (Nat.eqb_spec (near m) c); [congruence|]. simpl. lia.
Qed.

Lemma reduce_thread_cols i j st :
  i < K -> j < nthreads ->
  accum_shaped D K (Base.acc st) ->
  local_shaped nthreads K (Base.local_newClusterSize st) ->
  let st' := reduce_thread i j st in
  forall c,
    (rdz (newClusterSize (Base.acc st')) c +
     colsum (Base.local_newClusterSize st') c =
     rdz (newClusterSize (Base.acc st)) c +
     colsum (Base.local_newClusterSize st) c)%Z.
Proof.
  intros Hi Hj (Hc & Hn & Hl) Hloc. cbv zeta. unfold Base.reduce_thread.
  pose proof (local_shaped_nth nthreads K _ j Hloc Hj) as Hrow.
  assert (Hj' : j < length (Base.local_newClusterSize st))
    by (destruct Hloc as [-> _]; exact Hj).
  destruct (for_loop 0 D _ _) as [nc' lc'].
  cbn [Base.acc Base.local_newClusterSize Base.delta newClusterSize].
  intros c.
  rewrite colsum_insert by exact Hj'. unfold rdz2.
  destruct (decide (c = i)) as [->|Hne].
  - rewrite !rdz_insert_eq by lia. lia.
  - rewrite !rdz_insert_ne by congruence. lia.
Qed.

Lemma reduction_cols st :
  accum_shaped D K (Base.acc st) ->
  local_shaped nthreads K (Base.local_newClusterSize st) ->
  let st' := reduction st in
  forall c, c < K ->
    rdz (newClusterSize (Base.acc st')) c =
      (rdz (newClusterSize (Base.acc st)) c +
       colsum (Base.local_newClusterSize st) c)%Z.
Proof.
  intros Hacc Hloc. cbv zeta.
  destruct (reduction_spec numCoords numClusters nthreads K_positive st
              Hacc Hloc) as (_ & R2 & _ & _ & R5).
  cut (accum_shaped D K (Base.acc (reduction st)) /\
       local_shaped nthreads K (Base.local_newClusterSize (reduction st)) /\
       forall c,
         (rdz (newClusterSize (Base.acc (reduction st))) c +
          colsum (Base.local_newClusterSize (reduction st)) c =
          rdz (newClusterSize (Base.acc st)) c +
          colsum (Base.local_newClusterSize st) c)%Z).
  { intros (_ & _ & Hsum). intros c Hc.
    specialize (Hsum c).
    rewrite (colsum_zero nthreads) in Hsum;
      [lia|apply R2|intros j Hj; apply R5; assumption]. }
  unfold Base.reduction.
  refine (for_loop_inv (fun _ st' =>
    accum_shaped D K (Base.acc st') /\
    local_shaped nthreads K (Base.local_newClusterSize st') /\
    forall c,
      (rdz (newClusterSize (Base.acc st')) c +
       colsum (Base.local_newClusterSize st') c =
       rdz (newClusterSize (Base.acc st)) c +
       colsum (Base.local_newClusterSize st) c)%Z)
    0 K _ st _ _ _); [lia|auto|].
  intros i st1 Hi H1.
  refine (for_loop_inv (fun _ st' =>
    accum_shaped D K (Base.acc st') /\
    local_shaped nthreads K (Base.local_newClusterSize st') /\
    forall c,
      (rdz (newClusterSize (Base.acc st')) c +
       colsum (Base.local_newClusterSize st') c =
       rdz (newClusterSize (Base.acc st)) c +
       colsum (Base.local_newClusterSize st) c)%Z)
    0 nthreads _ st1 _ _ _); [lia|exact H1|].
  intros j st2 Hj (Hacc2 & Hloc2 & Hsum2).
  destruct (reduce_thread_spec numCoords numClusters nthreads K_positive
              i j st2 ltac:(lia) ltac:(lia) Hacc2 Hloc2)
    as (S1 & S2 & _).
  pose proof (reduce_thread_cols i j st2 ltac:(lia) ltac:(lia) Hacc2 Hloc2)
    as S4.
  split; [exact S1|]. split; [exact S2|].
  intros c. rewrite S4. apply Hsum2.
Qed.

(** One assignment pass of the base version from a state with zeroed
    counters, under the discipline in force. *)
Lemma base_pass_cols st :
  Base.clean numCoords numObjs numClusters nthreads st ->
  let near := search (clusters (Base.acc st)) in
  let st1 := base_pass st in
  (forall i, i < N -> rdz (Base.membership st1) i = Z.of_nat (near i)) /\
  (forall c, c < K ->
     rdz (newClusterSize (Base.acc st1)) c =
       Z.of_nat (length (members near N c))).
Proof.
  intros (Hacc & Hlen & Hz & Hloc & Hlz). cbv zeta.
  unfold Base.assignment_pass, base_search.
  set (st0 := Base.set_copies (replicate nthreads fzero) st).
  destruct (negb (is_perform_atomic =? 0)%Z).
  - destruct (atomic_pass_cols st0 N Hacc) as (_ & _ & _ & _ & H3 & H4 & H5).
    unfold Base.combine_delta.
    cbn [Base.acc Base.membership Base.set_acc Base.set_delta
         set_newClusters newClusterSize].
    split.
    + intros i Hi. rewrite H4 by (simpl; lia).
      destruct (decide (i < N)); [reflexivity|lia].
    + intros c Hc. rewrite H5. simpl. rewrite (Hz c Hc). exact (Z.add_0_l _).
  - destruct (local_pass_cols st0 N Hloc) as (H1 & H2 & H3 & H4 & H5).
    set (stl := for_loop 0 N local_object st0) in *.
    set (st2 := Base.combine_delta plan stl).
    assert (Hacc2 : accum_shaped D K (Base.acc st2))
      by (change (Base.acc st2) with (Base.acc stl); rewrite H1; exact Hacc).
    destruct (reduction_spec numCoords numClusters nthreads K_positive st2
                Hacc2 H2) as (_ & _ & R3 & _).
    pose proof (reduction_cols st2 Hacc2 H2) as C2.
    fold reduction. rewrite R3.
    change (Base.membership st2) with (Base.membership stl).
    split.
    + intros i Hi. rewrite H4 by (simpl; lia).
      destruct (decide (i < N)); [reflexivity|lia].
    + intros c Hc. rewrite (C2 c Hc).
      change (Base.acc st2) with (Base.acc stl).
      change (Base.local_newClusterSize st2)
        with (Base.local_newClusterSize stl).
      rewrite H1, H5. simpl. rewrite (Hz c Hc).
      rewrite (colsum_zero nthreads);
        [reflexivity|apply Hloc|intros j Hj; apply Hlz; assumption].
Qed.

End BaseCounters.

Section BasePassMore.

Variable is_perform_atomic : Z.
Variable objects : matrix.
Variables numCoords numObjs numClusters : Z.
Variable nthreads : nat.
Variable tid_of : nat -> nat.
Variable landing : Z -> list (nat * nat).
Variable plan : Z -> reduction_plan.
Variable overflow : float -> Z.
Variable cl0 : matrix.

Local Abbreviation D := (Z.to_nat numCoords).
Local Abbreviation N := (Z.to_nat numObjs).
Local Abbreviation K := (Z.to_nat numClusters).
Local Abbreviation base_head :=
  (Base.loop_head is_perform_atomic objects numCoords numObjs numClusters
     nthreads tid_of landing plan overflow cl0).
Local Abbreviation base_pass :=
  (Base.assignment_pass is_perform_atomic objects numCoords numObjs
     numClusters nthreads tid_of landing plan overflow).
Local Abbreviation base_iteration :=
  (Base.iteration is_perform_atomic objects numCoords numObjs numClusters
     nthreads tid_of landing plan overflow).
Local Abbreviation base_in_bounds :=
  (Base.in_bounds is_perform_atomic objects numCoords numObjs numClusters).
Local Abbreviation search :=
  (base_search is_perform_atomic objects numCoords numClusters overflow).

Hypothesis cl0_shaped : shaped D K cl0.
Hypothesis K_positive : (0 < numClusters)%Z.
Hypothesis tid_bound : forall i, tid_of i < nthreads.

Lemma base_cols_at_head st :
  base_head st ->
  let near := search (clusters (Base.acc st)) in
  let st1 := base_pass (Base.set_delta fzero st) in
  (forall i, i < N -> rdz (Base.membership st1) i = Z.of_nat (near i)) /\
  (forall c, c < K ->
     rdz (newClusterSize (Base.acc st1)) c =
       Z.of_nat (length (members near N c))).
Proof.
  intros Hst.
  pose proof (base_loop_head_clean is_perform_atomic objects numCoords numObjs
                numClusters nthreads tid_of landing plan overflow tid_bound
                K_positive cl0 st cl0_shaped Hst) as Hclean.
  apply (base_pass_cols is_perform_atomic objects numCoords numObjs
           numClusters nthreads tid_of landing plan overflow tid_bound
           K_positive (Base.set_delta fzero st) Hclean).
Qed.

(** X16: in the base version run on sizes for which it stays inside its
    arrays ([numCoords = numClusters] and, under the atomic discipline,
    [numObjs = numCoords]), under either discipline, an assignment pass
    entered at the head of the loop leaves in [newClusterSize[c]], for every
    cluster [c], the number of objects whose membership entry is [c]; under
    the thread-local discipline this is the state after the reduction of
    the per-thread counters. *)
Theorem base_counts_per_cluster st :
  base_in_bounds -> base_head st ->
  let st1 := base_pass (Base.set_delta fzero st) in
  forall c, c < K ->
    rdz (newClusterSize (Base.acc st1)) c =
      Z.of_nat (length (assigned (Base.membership st1) N c)).
Proof.
  intros _ Hst. cbv zeta. intros c Hc.
  destruct (base_cols_at_head st Hst) as (Hm & Hs).
  rewrite (Hs c Hc). f_equal. f_equal. symmetry.
  apply assigned_members, Hm.
Qed.

(** X17: in an iteration of the base version entered at the head of the
    loop, on sizes for which it stays inside its arrays ([numCoords =
    numClusters] and, under the atomic discipline, [numObjs = numCoords])
    and for at most 2^24 objects, under either discipline and whatever the
    number of threads, the schedule and the plan of the reduction, every
    object's membership entry becomes the index that the search of that
    discipline returns for the centroids of the start of the iteration, and
    [delta] is the number of objects whose entry differed from that index,
    divided by [numObjs]. *)
Theorem base_fraction_of_changed_objects st :
  base_in_bounds -> base_head st ->
  plan_covers nthreads (plan (Base.loop st)) ->
  (numObjs <= 16777216)%Z ->
  let near := search (clusters (Base.acc st)) in
  (forall i, i < N ->
     rdz (Base.membership (base_iteration st)) i = Z.of_nat (near i)) /\
  Base.delta (base_iteration st) =
    fdiv (float_of_int
            (Z.of_nat (length (changed (Base.membership st) near N))))
         (float_of_int numObjs).
Proof.
  intros _ Hst Hp HN. cbv zeta.
  destruct (base_cols_at_head st Hst) as (Hm & _).
  split; [exact Hm|].
  rewrite base_iteration_delta.
  rewrite (base_pass_delta is_perform_atomic objects numCoords numObjs
             numClusters nthreads tid_of landing plan overflow st
             tid_bound Hp HN).
  reflexivity.
Qed.

End BasePassMore.

Section ThreadSchedules.

Variable objects : matrix.
Variables numCoords numObjs numClusters : Z.
Variables nthreads nthreads' : nat.
Variables tid_of tid_of' : nat -> nat.
Variables landing landing' : Z -> list (nat * nat).
Variables plan plan' : Z -> reduction_plan.
Variables overflow overflow' : float -> Z.

Local Abbreviation D := (Z.to_nat numCoords).
Local Abbreviation N := (Z.to_nat numObjs).
Local Abbreviation K := (Z.to_nat numClusters).



End ThreadSchedules.

(** ** The search of the atomic discipline *)

Lemma cellwise_prefix (h : nat -> float -> float) (da : vec) n :
  n <= length da ->
  let da' := for_loop 0 n (fun j da0 => <[j := h j (rd da0 j)]> da0) da in
  length da' = length da /\
  forall c, rd da' c = if decide (c < n) then h c (rd da c) else rd da c.
Proof.
  intros Hn. cbv zeta.
  refine (for_loop_inv (fun n da' =>
    length da' = length da /\
    forall c, rd da' c = if decide (c < n) then h c (rd da c) else rd da c)
    0 n _ da _ _ _); [lia| |].
  - split; [reflexivity|]. intros c.
    destruct (decide (c < 0)); [lia|reflexivity].
  - intros m da1 Hm [Hlen Hrd]. split; [rewrite length_insert; exact Hlen|].
    intros c. unfold rd at 1. destruct (decide (c = m)) as [->|Hne].
    + rewrite nth_insert_eq by lia. rewrite (Hrd m).
      destruct (decide (m < m)); [lia|].
      destruct (decide (m < Datatypes.S m)); [reflexivity|lia].
    + rewrite nth_insert_ne by congruence. fold (rd da1 c). rewrite (Hrd c).
      destruct (decide (c < m)), (decide (c < Datatypes.S m));
        try lia; reflexivity.
Qed.

Section AtomicSearch.

Variable objects : matrix.
Variables numCoords numClusters : Z.
Variable overflow : float -> Z.
Variable cl : matrix.
Variable i : nat.

Local Abbreviation D := (Z.to_nat numCoords).
Local Abbreviation K := (Z.to_nat numClusters).

(** The value that row [k] of the atomic search leaves in [distArray[j]],
    from the value [x] it finds there. *)
Local Abbreviation cell := (fun (k j : nat) (x : float) =>
  if (k =? 0)%nat
  then sqdiff (float_of_int (int_of_float overflow (rd2 objects k i))) (rd2 cl k j)
  else fadd x (sqdiff (float_of_int (int_of_float overflow (rd2 objects k i)))
                      (rd2 cl k j))).

Local Abbreviation row := (fun (k : nat) (da : vec) =>
  for_loop 0 K (fun j da0 => <[j := cell k j (rd da0 j)]> da0) da).

Local Abbreviation scan := (fun (k : nat) (da : vec) (p : float * nat) =>
  for_loop 0 K (fun j '(min_dist, index) =>
    if flt (cell k j (rd da j)) min_dist then (cell k j (rd da j), j)
    else (min_dist, index)) p).

Lemma atomic_row_spec k da p :
  length da = K ->
  Base.atomic_row objects numCoords numClusters overflow cl i k (da, p) =
    (row k da, if (Z.of_nat k =? numCoords - 1)%Z then scan k da p else p).
Proof.
  intros Hlen. unfold Base.atomic_row.
  cut (forall n, n <= K ->
    for_loop 0 n (fun j '(da, (min_dist, index)) =>
      let t := fmul (fsub (float_of_int (int_of_float overflow (rd2 objects k i)))
                          (rd2 cl k j))
                    (fsub (float_of_int (int_of_float overflow (rd2 objects k i)))
                          (rd2 cl k j)) in
      let da := <[j := if (k =? 0)%nat then t else fadd (rd da j) t]> da in
      if (Z.of_nat k =? numCoords - 1)%Z && flt (rd da j) min_dist
      then (da, (rd da j, j)) else (da, (min_dist, index))) (da, p) =
    (for_loop 0 n (fun j da0 => <[j := cell k j (rd da0 j)]> da0) da,
     if (Z.of_nat k =? numCoords - 1)%Z
     then for_loop 0 n (fun j '(min_dist, index) =>
            if flt (cell k j (rd da j)) min_dist then (cell k j (rd da j), j)
            else (min_dist, index)) p
     else p)).
  { intros H. apply H. lia. }
  induction n as [|n IH]; intros Hn.
  - rewrite !for_loop_empty by lia. destruct (_ =? _)%Z; reflexivity.
  - rewrite !for_loop_snoc by lia. rewrite IH by lia. clear IH.
    destruct (cellwise_prefix (cell k) da n ltac:(lia)) as [Hl Hrd].
    set (dan := for_loop 0 n
                  (fun j da0 => <[j := cell k j (rd da0 j)]> da0) da) in *.
    assert (Hcell : rd (<[n := cell k n (rd dan n)]> dan) n =
                    cell k n (rd da n)).
    { unfold rd at 1. rewrite nth_insert_eq by lia. rewrite (Hrd n).
      destruct (decide (n < n)); [lia|reflexivity]. }
    destruct (Z.of_nat k =? numCoords - 1)%Z.
    + destruct (for_loop 0 n _ p) as [md idx]. cbv zeta. unfold sqdiff in *.
      rewrite Hcell. cbn [andb].
      destruct (flt _ md); reflexivity.
    + destruct p as [md idx]. reflexivity.
Qed.

Lemma row_length k da : length da = K -> length (row k da) = K.
Proof. intros H. apply (cellwise_loop (cell k) K da H). Qed.

Lemma rows_not_last lo hi da p :
  length da = K -> (Z.of_nat hi <= numCoords - 1)%Z ->
  for_loop lo hi (Base.atomic_row objects numCoords numClusters overflow cl i) (da, p) =
    (for_loop lo hi row da, p) /\
  length (for_loop lo hi row da) = K.
Proof.
  intros Hlen Hhi.
  destruct (decide (lo <= hi)) as [Hle|Hgt];
    [|rewrite !for_loop_empty by lia; auto].
  refine (for_loop_inv (fun n s =>
    (Z.of_nat n <= numCoords - 1)%Z ->
    s = (for_loop lo n row da, p) /\ length (for_loop lo n row da) = K)
    lo hi _ (da, p) Hle _ _ Hhi).
  - intros _. rewrite for_loop_empty by lia. auto.
  - intros k s Hk IH Hn. destruct IH as [-> Hl]; [lia|].
    rewrite for_loop_snoc by lia. rewrite atomic_row_spec by exact Hl.
    destruct (Z.eqb_spec (Z.of_nat k) (numCoords - 1)); [lia|].
    split; [reflexivity|apply row_length, Hl].
Qed.

Lemma scan_of_row k da :
  length da = K ->
  scan k da (float_of_int INT_MAX, 0) = Improved.scan_min numClusters (row k da).
Proof.
  intros Hlen. unfold Improved.scan_min. apply for_loop_ext.
  intros j [md idx] Hj.
  destruct (cellwise_loop (cell k) K da Hlen) as [_ Hrd].
  rewrite (Hrd j) by lia. reflexivity.
Qed.

(** X20: the search of the atomic discipline is the search of the improved
    version run on other objects: for at least one coordinate, it returns
    for object [i] the index that the improved search returns for an object
    whose coordinate [k] is the [int] that the conversion of
    [objects[k][i]] leaves in [current_object_coord], the entry that the
    atomic branch reads for coordinate [k] of object [i]: its truncation
    when that is an [int], and whatever the conversion leaves otherwise. *)
Theorem atomic_search_is_improved_search (objects' : matrix) :
  (0 < numCoords)%Z ->
  (forall k, k < D ->
     rd2 objects' i k = float_of_int (int_of_float overflow (rd2 objects k i))) ->
  Base.atomic_nearest objects numCoords numClusters overflow cl i =
    Improved.nearest objects' numCoords numClusters cl i.
Proof.
  intros HD Hobj.
  assert (Hlen0 : length (replicate K fzero) = K) by apply length_replicate.
  assert (Hdist :
    Improved.distances objects' numCoords numClusters cl i =
      for_loop 1 D row (row 0 (replicate K fzero))).
  { unfold Improved.distances. cbv zeta.
    rewrite (for_loop_ext 0 K _
               (fun j da0 => <[j := cell 0 j (rd da0 j)]> da0)).
    - apply for_loop_ext. intros k da Hk. apply for_loop_ext.
      intros j da0 Hj. rewrite (Hobj k) by lia.
      destruct (Nat.eqb_spec k 0); [lia|reflexivity].
    - intros j da Hj. rewrite (Hobj 0) by lia. reflexivity. }
  unfold Improved.nearest, Base.atomic_nearest. cbv zeta.
  rewrite Hdist, atomic_row_spec by exact Hlen0.
  destruct (decide (D = 1)) as [HD1|HD1].
  - rewrite HD1, !for_loop_empty by lia.
    destruct (Z.eqb_spec (Z.of_nat 0) (numCoords - 1)); [|lia].
    rewrite scan_of_row by exact Hlen0. reflexivity.
  - destruct (Z.eqb_spec (Z.of_nat 0) (numCoords - 1)); [lia|].
    replace D with (Datatypes.S (D - 1)) at 1 2 by lia.
    rewrite !for_loop_snoc by lia.
    destruct (rows_not_last 1 (D - 1) (row 0 (replicate K fzero))
                (float_of_int INT_MAX, 0)) as [-> Hl];
      [apply row_length, Hlen0|lia|].
    rewrite atomic_row_spec by exact Hl.
    destruct (Z.eqb_spec (Z.of_nat (D - 1)) (numCoords - 1)); [|lia].
    rewrite scan_of_row by exact Hl. reflexivity.
Qed.

End AtomicSearch.

(** ** The conversions between [int] and [float] *)

Lemma binary_round_aux_exact s q e :
  Zpos (digits2_pos q) = 24%Z -> (-149 <= e <= 104)%Z ->
  binary_round_aux prec emax s (Zpos q) e loc_Exact = S754_finite s q e.
Proof.
  intros Hd He. unfold binary_round_aux, shr_fexp.
  cbn [Zdigits2]. rewrite Hd, fexp_24 by lia.
  replace (24 + e - 24 - e)%Z with 0%Z by lia.
  cbn [shr shr_record_of_loc shr_m loc_of_shr_record shr_r shr_s
       round_nearest_even Zdigits2].
  rewrite Hd, fexp_24 by lia.
  replace (24 + e - 24 - e)%Z with 0%Z by lia.
  cbn [shr shr_record_of_loc shr_m].
  destruct (Z.leb_spec e (emax - prec)) as [_|Hgt]; [reflexivity|].
  unfold emax, prec in Hgt. lia.
Qed.

Lemma iter_xO_pow2 p k :
  Zpos (Pos.iter xO p k) = (Zpos p * 2 ^ Zpos k)%Z.
Proof.
  induction k as [|k IH] using Pos.peano_ind.
  - simpl. lia.
  - rewrite Pos.iter_succ, Pos2Z.inj_xO, IH, Pos2Z.inj_succ,
      Z.pow_succ_r by lia. lia.
Qed.

Lemma truncate_small p s :
  (Zpos p < 2 ^ 24)%Z ->
  exists m e,
    binary_round prec emax s p 0 = S754_finite s m e /\
    truncate (S754_finite s m e) = if s then Zneg p else Zpos p.
Proof.
  intros Hp. unfold binary_round.
  pose proof (digits2_bound p 24 ltac:(lia) Hp) as Hd.
  rewrite fexp_24 by lia. unfold shl_align.
  destruct (Zpos (digits2_pos p) + 0 - 24 - 0)%Z as [|k|k] eqn:Hk.
  - rewrite binary_round_aux_exact by lia. eexists _, _.
    split; [reflexivity|].
    unfold truncate. rewrite Z.shiftl_0_r. destruct s; reflexivity.
  - lia.
  - unfold shift_pos. rewrite binary_round_aux_exact;
      [|rewrite digits2_shift; lia|lia].
    eexists _, _. split; [reflexivity|].
    assert (Hpos : (Zpos (digits2_pos p) + 0 - 24)%Z = Zneg k) by lia.
    rewrite Hpos. unfold truncate.
    rewrite iter_xO_pow2, Z.shiftr_div_pow2, Z.div_mul by lia.
    destruct s; reflexivity.
Qed.

(** X21: an [int] of magnitude below 2^24 survives the conversion to
    [float] and back: the conversion at line 165 of a coordinate that
    holds such an integer returns that integer. *)
Theorem int_survives_float (overflow : float -> Z) (n : Z) :
  (- 2 ^ 24 < n < 2 ^ 24)%Z -> int_of_float overflow (float_of_int n) = n.
Proof.
  intros Hn. unfold float_of_int, binary_normalize.
  destruct n as [|p|p].
  - reflexivity.
  - destruct (truncate_small p false ltac:(lia)) as (m & e & -> & Ht).
    unfold int_of_float. rewrite Ht.
    destruct (Z.leb_spec INT_MIN (Zpos p)); [|unfold INT_MIN in *; lia].
    destruct (Z.leb_spec (Zpos p) INT_MAX); [reflexivity|].
    unfold INT_MAX in *. change (2 ^ 24)%Z with 16777216%Z in Hn. lia.
  - destruct (truncate_small p true ltac:(lia)) as (m & e & -> & Ht).
    unfold int_of_float. rewrite Ht.
    destruct (Z.leb_spec (Zneg p) INT_MAX); [|unfold INT_MAX in *; lia].
    destruct (Z.leb_spec INT_MIN (Zneg p)); [reflexivity|].
    unfold INT_MIN in *. change (2 ^ 24)%Z with 16777216%Z in Hn. lia.
Qed.

(** ** Sums of coordinates in the base version *)

(** A loop that rewrites the first [n] cells of row [r]. *)
Lemma row_loop_spec R C (h : nat -> float -> float) (m : matrix) r n :
  shaped R C m -> r < R -> n <= C ->
  let m' := for_loop 0 n (fun k m0 => wr2 m0 r k (h k (rd2 m0 r k))) m in
  shaped R C m' /\
  forall c k, rd2 m' c k =
    if decide (c = r /\ k < n) then h k (rd2 m c k) else rd2 m c k.
Proof.
  intros Hm Hr Hn. cbv zeta.
  refine (for_loop_inv (fun n m' =>
    shaped R C m' /\
    forall c k, rd2 m' c k =
      if decide (c = r /\ k < n) then h k (rd2 m c k) else rd2 m c k)
    0 n _ m _ _ _); [lia| |].
  - split; [exact Hm|]. intros c k.
    destruct (decide (c = r /\ k < 0)); [lia|reflexivity].
  - intros j m1 Hj [Hsh Hinv]. split; [apply shaped_wr2, Hsh|].
    intros c k. destruct (decide (c = r /\ k = j)) as [[-> ->]|Hne].
    + rewrite rd2_wr2_eq.
      * rewrite (Hinv r j).
        destruct (decide (r = r /\ j < j)); [lia|].
        destruct (decide (r = r /\ j < Datatypes.S j)); [reflexivity|lia].
      * destruct Hsh as [-> _]. exact Hr.
      * rewrite (shaped_nth R C) by (exact Hsh || exact Hr). lia.
    + rewrite rd2_wr2_ne
        by (destruct (decide (r = c)) as [Hrc|Hrc];
            [right; intros Hjk; apply Hne; split; congruence|left; exact Hrc]).
      rewrite (Hinv c k).
      destruct (decide (c = r /\ k < j)),
               (decide (c = r /\ k < Datatypes.S j)); try reflexivity;
        exfalso; lia.
Qed.

(** A loop that rewrites the first [n] cells of column [c]. *)
Lemma col_loop_spec R C (h : nat -> float -> float) (m : matrix) c n :
  shaped R C m -> c < C -> n <= R ->
  let m' := for_loop 0 n (fun j m0 => wr2 m0 j c (h j (rd2 m0 j c))) m in
  shaped R C m' /\
  forall j c', rd2 m' j c' =
    if decide (c' = c /\ j < n) then h j (rd2 m j c') else rd2 m j c'.
Proof.
  intros Hm Hc Hn. cbv zeta.
  refine (for_loop_inv (fun n m' =>
    shaped R C m' /\
    forall j c', rd2 m' j c' =
      if decide (c' = c /\ j < n) then h j (rd2 m j c') else rd2 m j c')
    0 n _ m _ _ _); [lia| |].
  - split; [exact Hm|]. intros j c'.
    destruct (decide (c' = c /\ j < 0)); [lia|reflexivity].
  - intros i m1 Hi [Hsh Hinv]. split; [apply shaped_wr2, Hsh|].
    intros j c'. destruct (decide (c' = c /\ j = i)) as [[-> ->]|Hne].
    + rewrite rd2_wr2_eq.
      * rewrite (Hinv i c).
        destruct (decide (c = c /\ i < i)); [lia|].
        destruct (decide (c = c /\ i < Datatypes.S i)); [reflexivity|lia].
      * destruct Hsh as [-> _]. lia.
      * rewrite (shaped_nth R C) by (exact Hsh || lia). exact Hc.
    + rewrite rd2_wr2_ne
        by (destruct (decide (i = j)) as [Hij|Hij];
            [right; intros Hcc; apply Hne; split; congruence|left; exact Hij]).
      rewrite (Hinv j c').
      destruct (decide (c' = c /\ j < i)),
               (decide (c' = c /\ j < Datatypes.S i)); try reflexivity;
        exfalso; lia.
Qed.

Lemma sums_shaped_nth T K D a t :
  sums_shaped T K D a -> t < T -> shaped K D (nth t a []).
Proof.
  intros [Hl Hf] Ht. rewrite Forall_forall in Hf. apply Hf.
  apply list_elem_of_In, nth_In. lia.
Qed.

Lemma sums_shaped_insert T K D a t (m : matrix) :
  sums_shaped T K D a -> shaped K D m -> sums_shaped T K D (<[t := m]> a).
Proof.
  intros [Hl Hf] Hm. split; [rewrite length_insert; exact Hl|].
  destruct (decide (t < length a)) as [Hlt|Hge].
  - apply Forall_insert; assumption.
  - rewrite list_insert_ge by lia. exact Hf.
Qed.

Lemma rd3_insert (a : list matrix) t (m : matrix) t' c k :
  t < length a ->
  rd3 (<[t := m]> a) t' c k = if decide (t' = t) then rd2 m c k else rd3 a t' c k.
Proof.
  intros Ht. unfold rd3. destruct (decide (t' = t)) as [->|Hne].
  - rewrite nth_insert_eq by exact Ht. reflexivity.
  - rewrite nth_insert_ne by congruence. reflexivity.
Qed.

Lemma thread_members_snoc tid_of f n t c :
  thread_members tid_of f (Datatypes.S n) t c =
    thread_members tid_of f n t c ++
      (if (tid_of n =? t)%nat && (f n =? c)%nat then [n] else []).
Proof.
  unfold thread_members. rewrite seq_S, List.filter_app. simpl.
  destruct (_ && _); reflexivity.
Qed.

Lemma sum_over_snoc v l i x0 :
  sum_over v (l ++ [i]) x0 = fadd (sum_over v l x0) (v i).
Proof. unfold sum_over. rewrite fold_left_app. reflexivity. Qed.

Section BaseSums.

Variable is_perform_atomic : Z.
Variable objects : matrix.
Variables numCoords numObjs numClusters : Z.
Variable nthreads : nat.
Variable tid_of : nat -> nat.
Variable landing : Z -> list (nat * nat).
Variable plan : Z -> reduction_plan.
Variable overflow : float -> Z.

Local Abbreviation D := (Z.to_nat numCoords).
Local Abbreviation N := (Z.to_nat numObjs).
Local Abbreviation K := (Z.to_nat numClusters).
Local Abbreviation local_object :=
  (Base.local_object objects numCoords numClusters tid_of).
Local Abbreviation atomic_object :=
  (Base.atomic_object objects numCoords numClusters tid_of overflow).
Local Abbreviation atomic_nearest :=
  (Base.atomic_nearest objects numCoords numClusters overflow).
Local Abbreviation atomic_land :=
  (Base.atomic_land objects numCoords numClusters overflow).
Local Abbreviation reduce_thread := (Base.reduce_thread numCoords numClusters).
Local Abbreviation reduction :=
  (Base.reduction numCoords numClusters nthreads).
Local Abbreviation base_pass :=
  (Base.assignment_pass is_perform_atomic objects numCoords numObjs
     numClusters nthreads tid_of landing plan overflow).
Local Abbreviation base_iteration :=
  (Base.iteration is_perform_atomic objects numCoords numObjs numClusters
     nthreads tid_of landing plan overflow).

Hypothesis tid_bound : forall i, tid_of i < nthreads.
Hypothesis K_positive : (0 < numClusters)%Z.

Lemma local_pass_sums st n :
  sums_shaped nthreads K D (Base.local_newClusters st) ->
  let near := fun i =>
    find_nearest_cluster K D (nth i objects []) (clusters (Base.acc st)) in
  let st' := for_loop 0 n local_object st in
  Base.acc st' = Base.acc st /\
  sums_shaped nthreads K D (Base.local_newClusters st') /\
  forall t c k, k < D ->
    rd3 (Base.local_newClusters st') t c k =
      coord_sum objects k (thread_members tid_of near n t c)
                (rd3 (Base.local_newClusters st) t c k).
Proof.
  intros Hsh. cbv zeta.
  set (near := fun i =>
    find_nearest_cluster K D (nth i objects []) (clusters (Base.acc st))).
  refine (for_loop_inv (fun n st' =>
    Base.acc st' = Base.acc st /\
    sums_shaped nthreads K D (Base.local_newClusters st') /\
    forall t c k, k < D ->
      rd3 (Base.local_newClusters st') t c k =
        coord_sum objects k (thread_members tid_of near n t c)
                  (rd3 (Base.local_newClusters st) t c k))
    0 n _ st _ _ _); [lia| |].
  - split; [reflexivity|]. split; [exact Hsh|]. reflexivity.
  - intros m st' Hm (Hacc & Hsum & Hval).
    unfold Base.local_object, Base.record_membership.
    cbn [Base.acc Base.local_newClusters].
    rewrite Hacc. fold (near m).
    assert (Hidx : near m < K)
      by apply (find_nearest_cluster_lt numCoords numClusters K_positive).
    pose proof (tid_bound m) as Htid.
    pose proof (sums_shaped_nth _ _ _ _ _ Hsum Htid) as Hrow.
    destruct (row_loop_spec K D (fun j x => fadd x (rd2 objects m j))
                (nth (tid_of m) (Base.local_newClusters st') [])
                (near m) D Hrow Hidx ltac:(lia)) as [Hsh' Hcell].
    split; [reflexivity|]. split; [apply sums_shaped_insert; assumption|].
    intros t c k Hk.
    rewrite rd3_insert by (destruct Hsum as [-> _]; exact Htid).
    rewrite thread_members_snoc.
    destruct (decide (t = tid_of m)) as [->|Hne].
    + rewrite Nat.eqb_refl, (Hcell c k). cbn [andb].
      fold (rd3 (Base.local_newClusters st') (tid_of m) c k).
      rewrite (Hval _ c k Hk).
      destruct (decide (c = near m /\ k < D)) as [[-> _]|Hn].
      * rewrite Nat.eqb_refl, coord_sum_snoc. reflexivity.
      * destruct (Nat.eqb_spec (near m) c); [exfalso; apply Hn; auto|].
        rewrite app_nil_r. reflexivity.
    + destruct (Nat.eqb_spec (tid_of m) t); [congruence|]. cbn [andb].
      rewrite app_nil_r. apply Hval, Hk.
Qed.


(** The atomic additions of the atomic discipline, in the order in which
    they land. *)
Lemma atomic_landing_spec cl (l : list (nat * nat)) (nc : matrix) :
  shaped D K nc ->
  let nc' := fold_left (fun nc e => atomic_land cl e nc) l nc in
  shaped D K nc' /\
  forall j c, j < D ->
    rd2 nc' j c =
      sum_over (fun i => rd2 objects j i) (landed (atomic_nearest cl) l j c)
        (rd2 nc j c).
Proof.
  intros Hsh. cbv zeta. revert nc Hsh.
  induction l as [|[i k] l IH]; intros nc Hsh.
  - split; [exact Hsh|]. reflexivity.
  - cbn [fold_left].
    assert (Hsh' : shaped D K (atomic_land cl (i, k) nc))
      by (unfold Base.atomic_land; apply shaped_wr2, Hsh).
    destruct (IH _ Hsh') as [IH1 IH2]. split; [exact IH1|].
    intros j c Hj. rewrite (IH2 j c Hj), landed_cons. cbn [fst snd].
    unfold Base.atomic_land at 1.
    pose proof (atomic_nearest_lt objects numCoords numClusters overflow
                  K_positive cl i) as Hidx.
    destruct (Nat.eqb_spec k j) as [->|Hkj].
    + destruct (Nat.eqb_spec (atomic_nearest cl i) c) as [<-|Hic];
        cbn [andb app].
      * rewrite rd2_wr2_eq; [reflexivity|destruct Hsh as [-> _]; exact Hj|].
        rewrite (shaped_nth D K) by (exact Hsh || exact Hj). exact Hidx.
      * rewrite rd2_wr2_ne by (right; exact Hic). reflexivity.
    + cbn [andb app]. rewrite rd2_wr2_ne by (left; exact Hkj). reflexivity.
Qed.

(** For [numCoords = numClusters] the cell [newClusters[i][k]] of the
    reduction is the cell of row [i] and column [k]. *)
Lemma block_loop (i : nat) (s : matrix * matrix) :
  D = K ->
  for_loop 0 D (fun k '(nc, lc) =>
    (wr_block K nc i k (fadd (rd_block K nc i k) (rd2 lc i k)),
     wr2 lc i k fzero)) s =
  for_loop 0 D (fun k '(nc, lc) =>
    (wr2 nc i k (fadd (rd2 nc i k) (rd2 lc i k)), wr2 lc i k fzero)) s.
Proof.
  intros HDK. apply for_loop_ext. intros k [nc lc] Hk.
  unfold wr_block, rd_block.
  rewrite Nat.div_small, Nat.mod_small, Nat.add_0_r by lia. reflexivity.
Qed.

Lemma reduce_pair_loop (nc0 lc0 : matrix) i n :
  shaped K D lc0 -> i < K -> n <= D ->
  for_loop 0 n (fun k '(nc, lc) =>
    (wr2 nc i k (fadd (rd2 nc i k) (rd2 lc i k)), wr2 lc i k fzero))
    (nc0, lc0) =
  (for_loop 0 n (fun k nc =>
     wr2 nc i k ((fun k x => fadd x (rd2 lc0 i k)) k (rd2 nc i k))) nc0,
   for_loop 0 n (fun k lc =>
     wr2 lc i k ((fun _ _ => fzero) k (rd2 lc i k))) lc0).
Proof.
  intros Hlc Hi. induction n as [|n IH]; intros Hn.
  - rewrite !for_loop_empty by lia. reflexivity.
  - rewrite !for_loop_snoc by lia. rewrite IH by lia. cbv beta iota.
    destruct (row_loop_spec K D (fun _ _ => fzero) lc0 i n Hlc Hi
                ltac:(lia)) as [_ Hcell].
    cbv zeta in Hcell. rewrite (Hcell i n).
    destruct (decide (i = i /\ n < n)); [lia|reflexivity].
Qed.

Lemma reduce_thread_sums i j st :
  i < K -> j < nthreads -> D = K ->
  shaped D K (newClusters (Base.acc st)) ->
  sums_shaped nthreads K D (Base.local_newClusters st) ->
  let st' := reduce_thread i j st in
  sums_shaped nthreads K D (Base.local_newClusters st') /\
  (forall c k,
     rd2 (newClusters (Base.acc st')) c k =
       if decide (c = i /\ k < D)
       then fadd (rd2 (newClusters (Base.acc st)) c k)
                 (rd3 (Base.local_newClusters st) j c k)
       else rd2 (newClusters (Base.acc st)) c k) /\
  (forall t c k,
     rd3 (Base.local_newClusters st') t c k =
       if decide (t = j /\ c = i /\ k < D) then fzero
       else rd3 (Base.local_newClusters st) t c k).
Proof.
  intros Hi Hj HDK Hnc Hsum. cbv zeta. unfold Base.reduce_thread.
  pose proof (sums_shaped_nth _ _ _ _ _ Hsum Hj) as Hrow.
  rewrite (block_loop i _ HDK).
  rewrite (reduce_pair_loop _ _ i D Hrow Hi (Nat.le_refl _)).
  destruct (row_loop_spec D K
              (fun k x => fadd x (rd2 (nth j (Base.local_newClusters st) [])
                                      i k))
              (newClusters (Base.acc st)) i D Hnc ltac:(lia) ltac:(lia))
    as [_ Hn1].
  destruct (row_loop_spec K D (fun _ _ => fzero)
              (nth j (Base.local_newClusters st) []) i D Hrow Hi
              (Nat.le_refl _)) as [Hl0 Hl1].
  cbv zeta in Hn1, Hl0, Hl1.
  cbn [Base.acc Base.local_newClusters newClusters].
  split; [apply sums_shaped_insert; assumption|]. split.
  - intros c k. rewrite (Hn1 c k). unfold rd3.
    destruct (decide (c = i /\ k < D)) as [[-> _]|]; reflexivity.
  - intros t c k.
    rewrite rd3_insert by (destruct Hsum as [-> _]; exact Hj).
    destruct (decide (t = j)) as [->|Hne].
    + rewrite (Hl1 c k). fold (rd3 (Base.local_newClusters st) j c k).
      destruct (decide (c = i /\ k < D)), (decide (j = j /\ c = i /\ k < D));
        try reflexivity; exfalso; lia.
    + destruct (decide (t = j /\ c = i /\ k < D)); [lia|reflexivity].
Qed.

(** The per-thread sums for cluster [c] and coordinate [k], added to [x0]
    in the order of the threads. *)
Local Abbreviation folded := (fun (L : list matrix) (n c k : nat) (x0 : float) =>
  fold_left (fun x t => fadd x (rd3 L t c k)) (seq 0 n) x0).

Lemma reduce_cluster_sums i st :
  i < K -> D = K ->
  accum_shaped D K (Base.acc st) ->
  local_shaped nthreads K (Base.local_newClusterSize st) ->
  sums_shaped nthreads K D (Base.local_newClusters st) ->
  let st' := for_loop 0 nthreads (reduce_thread i) st in
  accum_shaped D K (Base.acc st') /\
  local_shaped nthreads K (Base.local_newClusterSize st') /\
  sums_shaped nthreads K D (Base.local_newClusters st') /\
  (forall c k,
     rd2 (newClusters (Base.acc st')) c k =
       if decide (c = i /\ k < D)
       then folded (Base.local_newClusters st) nthreads c k
                   (rd2 (newClusters (Base.acc st)) c k)
       else rd2 (newClusters (Base.acc st)) c k) /\
  (forall t c k,
     rd3 (Base.local_newClusters st') t c k =
       if decide (t < nthreads /\ c = i /\ k < D) then fzero
       else rd3 (Base.local_newClusters st) t c k).
Proof.
  intros Hi HDK Hacc Hloc Hsum. cbv zeta.
  refine (for_loop_inv (fun n st' =>
    accum_shaped D K (Base.acc st') /\
    local_shaped nthreads K (Base.local_newClusterSize st') /\
    sums_shaped nthreads K D (Base.local_newClusters st') /\
    (forall c k,
       rd2 (newClusters (Base.acc st')) c k =
         if decide (c = i /\ k < D)
         then folded (Base.local_newClusters st) n c k
                     (rd2 (newClusters (Base.acc st)) c k)
         else rd2 (newClusters (Base.acc st)) c k) /\
    (forall t c k,
       rd3 (Base.local_newClusters st') t c k =
         if decide (t < n /\ c = i /\ k < D) then fzero
         else rd3 (Base.local_newClusters st) t c k))
    0 nthreads _ st _ _ _); [lia| |].
  - do 3 (split; [assumption|]). split.
    + intros c k. destruct (decide (c = i /\ k < D)); reflexivity.
    + intros t c k. destruct (decide (t < 0 /\ c = i /\ k < D)); [lia|reflexivity].
  - intros n st' Hn (Hacc' & Hloc' & Hsum' & Hnc & Hlc).
    destruct (reduce_thread_spec numCoords numClusters nthreads K_positive
                i n st' Hi ltac:(lia) Hacc' Hloc') as (S1 & S2 & _).
    destruct (reduce_thread_sums i n st' Hi ltac:(lia) HDK
                ltac:(apply Hacc') Hsum') as (T1 & T2 & T3).
    split; [exact S1|]. split; [exact S2|]. split; [exact T1|]. split.
    + intros c k. rewrite (T2 c k), (Hnc c k).
      destruct (decide (c = i /\ k < D)) as [Hck|]; [|reflexivity].
      rewrite seq_S, fold_left_app. cbn [fold_left Nat.add].
      rewrite (Hlc n c k).
      destruct (decide (n < n /\ c = i /\ k < D)); [lia|reflexivity].
    + intros t c k. rewrite (T3 t c k), (Hlc t c k).
      destruct (decide (t = n /\ c = i /\ k < D)),
               (decide (t < n /\ c = i /\ k < D)),
               (decide (t < Datatypes.S n /\ c = i /\ k < D));
        try reflexivity; exfalso; lia.
Qed.

Lemma folded_ext (L L' : list matrix) n c k x0 :
  (forall t, t < n -> rd3 L t c k = rd3 L' t c k) ->
  folded L n c k x0 = folded L' n c k x0.
Proof.
  intros H. induction n as [|n IH].
  - reflexivity.
  - rewrite seq_S, !fold_left_app. cbn [fold_left Nat.add].
    rewrite IH by (intros t Ht; apply H; lia). rewrite H by lia. reflexivity.
Qed.

Lemma reduction_sums st :
  D = K ->
  accum_shaped D K (Base.acc st) ->
  local_shaped nthreads K (Base.local_newClusterSize st) ->
  sums_shaped nthreads K D (Base.local_newClusters st) ->
  let st' := reduction st in
  sums_shaped nthreads K D (Base.local_newClusters st') /\
  (forall c k, c < K -> k < D ->
     rd2 (newClusters (Base.acc st')) c k =
       folded (Base.local_newClusters st) nthreads c k
              (rd2 (newClusters (Base.acc st)) c k)) /\
  (forall t c k, t < nthreads -> c < K -> k < D ->
     rd3 (Base.local_newClusters st') t c k = fzero).
Proof.
  intros HDK Hacc Hloc Hsum. cbv zeta.
  cut (accum_shaped D K (Base.acc (reduction st)) /\
       local_shaped nthreads K (Base.local_newClusterSize (reduction st)) /\
       sums_shaped nthreads K D (Base.local_newClusters (reduction st)) /\
       (forall c k,
          rd2 (newClusters (Base.acc (reduction st))) c k =
            if decide (c < K /\ k < D)
            then folded (Base.local_newClusters st) nthreads c k
                        (rd2 (newClusters (Base.acc st)) c k)
            else rd2 (newClusters (Base.acc st)) c k) /\
       (forall t c k,
          rd3 (Base.local_newClusters (reduction st)) t c k =
            if decide (t < nthreads /\ c < K /\ k < D) then fzero
            else rd3 (Base.local_newClusters st) t c k)).
  { intros (_ & _ & H1 & H2 & H3). split; [exact H1|]. split.
    - intros c k Hc Hk. rewrite (H2 c k).
      destruct (decide (c < K /\ k < D)); [reflexivity|lia].
    - intros t c k Ht Hc Hk. rewrite (H3 t c k).
      destruct (decide (t < nthreads /\ c < K /\ k < D)); [reflexivity|lia]. }
  unfold Base.reduction.
  refine (for_loop_inv (fun n st' =>
    accum_shaped D K (Base.acc st') /\
    local_shaped nthreads K (Base.local_newClusterSize st') /\
    sums_shaped nthreads K D (Base.local_newClusters st') /\
    (forall c k,
       rd2 (newClusters (Base.acc st')) c k =
         if decide (c < n /\ k < D)
         then folded (Base.local_newClusters st) nthreads c k
                     (rd2 (newClusters (Base.acc st)) c k)
         else rd2 (newClusters (Base.acc st)) c k) /\
    (forall t c k,
       rd3 (Base.local_newClusters st') t c k =
         if decide (t < nthreads /\ c < n /\ k < D) then fzero
         else rd3 (Base.local_newClusters st) t c k))
    0 K _ st _ _ _); [lia| |].
  - do 3 (split; [assumption|]). split.
    + intros c k. destruct (decide (c < 0 /\ k < D)); [lia|reflexivity].
    + intros t c k.
      destruct (decide (t < nthreads /\ c < 0 /\ k < D)); [lia|reflexivity].
  - intros n st' Hn (Hacc' & Hloc' & Hsum' & Hnc & Hlc).
    destruct (reduce_cluster_sums n st' ltac:(lia) HDK Hacc' Hloc' Hsum')
      as (R1 & R2 & R3 & R4 & R5).
    do 3 (split; [assumption|]). split.
    + intros c k. rewrite (R4 c k), (Hnc c k).
      destruct (decide (c = n /\ k < D)) as [[-> Hk]|Hne].
      * destruct (decide (n < n /\ k < D)); [lia|].
        destruct (decide (n < Datatypes.S n /\ k < D)); [|lia].
        apply folded_ext. intros t Ht. rewrite (Hlc t n k).
        destruct (decide (t < nthreads /\ n < n /\ k < D)); [lia|reflexivity].
      * destruct (decide (c < n /\ k < D)),
                 (decide (c < Datatypes.S n /\ k < D));
          try reflexivity; exfalso; lia.
    + intros t c k. rewrite (R5 t c k), (Hlc t c k).
      destruct (decide (t < nthreads /\ c = n /\ k < D)),
               (decide (t < nthreads /\ c < n /\ k < D)),
               (decide (t < nthreads /\ c < Datatypes.S n /\ k < D));
        try reflexivity; exfalso; lia.
Qed.


Lemma rd2_zeros2 R C j c : rd2 (zeros2 R C) j c = fzero.
Proof.
  unfold rd2, zeros2. destruct (decide (j < R)) as [Hj|Hj].
  - rewrite (nth_lookup_Some _ _ _ (replicate C fzero))
      by (apply lookup_replicate_2, Hj).
    destruct (decide (c < C)) as [Hc|Hc].
    + apply nth_lookup_Some, lookup_replicate_2, Hc.
    + apply nth_overflow. rewrite length_replicate. lia.
  - rewrite (nth_overflow (replicate R _)) by (rewrite length_replicate; lia).
    destruct c; reflexivity.
Qed.

Lemma sums_clean_initial cl :
  sums_clean D K nthreads
    (Base.initial numCoords numObjs numClusters nthreads cl).
Proof.
  unfold sums_clean, Base.initial.
  cbn [Base.acc Base.local_newClusters newClusters].
  split; [intros j c _ _; apply rd2_zeros2|]. split.
  - split; [apply length_replicate|]. apply Forall_replicate, shaped_zeros2.
  - intros t c k Ht _ _. unfold rd3.
    rewrite (nth_lookup_Some _ _ _ (zeros2 K D))
      by (apply lookup_replicate_2, Ht).
    apply rd2_zeros2.
Qed.

Lemma sums_clean_iteration st :
  D = K ->
  Base.clean numCoords numObjs numClusters nthreads st ->
  sums_clean D K nthreads st ->
  sums_clean D K nthreads (base_iteration st).
Proof.
  intros HDK Hst (Hnz & Hsh & Hlz).
  pose proof Hst as (Hacc & Hlen & Hz & Hloc & Hlzz).
  destruct (base_pass_spec is_perform_atomic objects numCoords numObjs
              numClusters nthreads tid_of landing plan overflow tid_bound
              K_positive (Base.set_delta fzero st) Hst) as (H1 & _).
  destruct (update_centroids_spec D K _ H1) as [_ Hupd].
  unfold Base.iteration, sums_clean.
  cbn [Base.acc Base.local_newClusters Base.set_delta Base.set_acc].
  split; [intros j c Hj Hc; apply (Hupd c Hc), Hj|].
  unfold Base.assignment_pass.
  set (st0 := Base.set_copies (replicate nthreads fzero)
                (Base.set_delta fzero st)).
  destruct (negb (is_perform_atomic =? 0)%Z).
  - unfold Base.combine_delta.
    cbn [Base.local_newClusters Base.set_delta Base.set_acc].
    assert (Hl : Base.local_newClusters (for_loop 0 N atomic_object st0) =
                 Base.local_newClusters st).
    { apply (for_loop_preserves (fun s =>
               Base.local_newClusters s = Base.local_newClusters st));
        [reflexivity|].
      intros i s _ H. exact H. }
    rewrite Hl. split; assumption.
  - destruct (local_pass_sums st0 N Hsh) as (L1 & L2 & _).
    destruct (local_pass_inv objects numCoords numClusters nthreads tid_of
                tid_bound K_positive st0 N Hloc) as (_ & L3 & _).
    set (stl := for_loop 0 N local_object st0) in *.
    destruct (reduction_sums (Base.combine_delta plan stl) HDK)
      as (R1 & _ & R3); [change (accum_shaped D K (Base.acc stl));
                         rewrite L1; exact Hacc|exact L3|exact L2|].
    split; assumption.
Qed.

Lemma loop_head_sums_clean cl st :
  D = K -> shaped D K cl ->
  Base.loop_head is_perform_atomic objects numCoords numObjs numClusters
    nthreads tid_of landing plan overflow cl st ->
  sums_clean D K nthreads st.
Proof.
  intros HDK Hcl Hst. induction Hst as [|st Hst IH].
  - apply sums_clean_initial.
  - apply (sums_clean_iteration st HDK); [|exact IH].
    apply (base_loop_head_clean is_perform_atomic objects numCoords numObjs
             numClusters nthreads tid_of landing plan overflow tid_bound
             K_positive cl st Hcl Hst).
Qed.

Lemma fold_threads_ext (f g : nat -> float) n x0 :
  (forall t, t < n -> f t = g t) ->
  fold_left (fun x t => fadd x (f t)) (seq 0 n) x0 =
  fold_left (fun x t => fadd x (g t)) (seq 0 n) x0.
Proof.
  intros H. induction n as [|n IH].
  - reflexivity.
  - rewrite seq_S, !fold_left_app. cbn [fold_left Nat.add].
    rewrite IH by (intros t Ht; apply H; lia). rewrite H by lia. reflexivity.
Qed.


Variable cl0 : matrix.
Hypothesis cl0_shaped : shaped D K cl0.

Local Abbreviation base_head :=
  (Base.loop_head is_perform_atomic objects numCoords numObjs numClusters
     nthreads tid_of landing plan overflow cl0).
Local Abbreviation base_in_bounds :=
  (Base.in_bounds is_perform_atomic objects numCoords numObjs numClusters).

Lemma local_sums_at_head st :
  is_perform_atomic = 0%Z -> D = K -> base_head st ->
  forall c k, c < K -> k < D ->
    rd2 (newClusters (Base.acc (base_pass (Base.set_delta fzero st)))) c k =
      fold_left (fun x t =>
        fadd x (coord_sum objects k
                  (thread_members tid_of
                     (fun i => find_nearest_cluster K D (nth i objects [])
                                 (clusters (Base.acc st))) N t c) fzero))
        (seq 0 nthreads) fzero.
Proof.
  intros Ha HDK' Hst c k Hc Hk.
  pose proof (base_loop_head_clean is_perform_atomic objects numCoords numObjs
                numClusters nthreads tid_of landing plan overflow tid_bound
                K_positive cl0 st cl0_shaped Hst) as (Hacc & _ & _ & Hloc & _).
  destruct (loop_head_sums_clean cl0 st HDK' cl0_shaped Hst)
    as (Hnz & Hsh & Hlz).
  unfold Base.assignment_pass. rewrite Ha. cbn [Z.eqb negb].
  set (st0 := Base.set_copies (replicate nthreads fzero)
                (Base.set_delta fzero st)).
  destruct (local_pass_sums st0 N Hsh) as (L1 & L2 & L4).
  destruct (local_pass_inv objects numCoords numClusters nthreads tid_of
              tid_bound K_positive st0 N Hloc) as (_ & L3 & _).
  set (stl := for_loop 0 N local_object st0) in *.
  destruct (reduction_sums (Base.combine_delta plan stl) HDK')
    as (_ & R2 & _); [change (accum_shaped D K (Base.acc stl));
                      rewrite L1; exact Hacc|exact L3|exact L2|].
  fold reduction. rewrite (R2 c k Hc Hk).
  change (Base.acc (Base.combine_delta plan stl)) with (Base.acc stl).
  change (Base.local_newClusters (Base.combine_delta plan stl))
    with (Base.local_newClusters stl).
  rewrite L1. unfold st0.
  cbn [Base.acc Base.set_delta Base.set_copies].
  rewrite (Hnz c k) by lia.
  apply fold_threads_ext. intros t Ht. rewrite (L4 t c k Hk). unfold st0.
  cbn [Base.local_newClusters Base.set_delta Base.set_copies Base.acc].
  rewrite (Hlz t c k Ht Hc Hk). reflexivity.
Qed.

(** X22: under the thread-local discipline, on sizes for which the base
    version stays inside its arrays ([numCoords = numClusters]), an
    assignment pass entered at the head of the loop leaves in
    [newClusters[c][k]], for cluster [c] and coordinate [k], the sums of
    the threads added in the order of the threads from 0.0, the sum of a
    thread being that of coordinate [k] of the objects it handled and
    assigned to [c], added in index order from 0.0.  The cell is indexed
    [cluster][coordinate], as the reduction at lines 249-258 writes it. *)
Theorem thread_local_sums st :
  is_perform_atomic = 0%Z ->
  base_in_bounds -> base_head st ->
  let near := fun i =>
    find_nearest_cluster K D (nth i objects []) (clusters (Base.acc st)) in
  let st1 := base_pass (Base.set_delta fzero st) in
  forall c k, c < K -> k < D ->
    rd2 (newClusters (Base.acc st1)) c k =
      fold_left (fun x t =>
        fadd x (coord_sum objects k (thread_members tid_of near N t c) fzero))
        (seq 0 nthreads) fzero.
Proof.
  intros Ha (_ & HDK & _) Hst. cbv zeta.
  apply (local_sums_at_head st Ha); [congruence|exact Hst].
Qed.

(** X27: under the thread-local discipline, on sizes for which the base
    version stays inside its arrays ([numCoords = numClusters]), with the
    centroids read as [find_nearest_cluster] reads them, [clusters[c][k]]
    for cluster [c] and coordinate [k], the update at lines 262-270 tests
    and divides by [newClusterSize[k]]: when the cluster of index [k] has
    more than one member, coordinate [k] of centroid [c] becomes the sum of
    coordinate [k] over the members of [c], as the reduction formed it,
    divided by the number of members of cluster [k]. *)
Theorem thread_local_update_divides_by_other_count st c k :
  is_perform_atomic = 0%Z ->
  base_in_bounds -> base_head st ->
  c < K -> k < D ->
  let near := fun i =>
    find_nearest_cluster K D (nth i objects []) (clusters (Base.acc st)) in
  let st1 := base_pass (Base.set_delta fzero st) in
  let count := length (assigned (Base.membership st1) N k) in
  1 < count ->
  rd2 (clusters (Base.acc (base_iteration st))) c k =
    fdiv (fold_left (fun x t =>
            fadd x (coord_sum objects k (thread_members tid_of near N t c)
                              fzero))
            (seq 0 nthreads) fzero)
         (float_of_int (Z.of_nat count)).
Proof.
  intros Ha (_ & HDK & _) Hst Hc Hk. cbv zeta. intros Hcount.
  assert (HDK' : D = K) by congruence.
  pose proof (base_loop_head_clean is_perform_atomic objects numCoords numObjs
                numClusters nthreads tid_of landing plan overflow tid_bound
                K_positive cl0 st cl0_shaped Hst) as Hclean.
  destruct (base_pass_spec is_perform_atomic objects numCoords numObjs
              numClusters nthreads tid_of landing plan overflow tid_bound
              K_positive (Base.set_delta fzero st) Hclean) as (H1 & _).
  destruct (base_pass_cols is_perform_atomic objects numCoords numObjs
              numClusters nthreads tid_of landing plan overflow tid_bound
              K_positive (Base.set_delta fzero st) Hclean) as (Hm & Hs).
  assert (Hsize : rdz (newClusterSize (Base.acc
                    (base_pass (Base.set_delta fzero st)))) k =
                  Z.of_nat (length (assigned (Base.membership
                    (base_pass (Base.set_delta fzero st))) N k))).
  { rewrite (Hs k) by lia. f_equal. f_equal. symmetry.
    apply assigned_members, Hm. }
  destruct (update_centroids_spec D K _ H1) as [_ Hupd].
  destruct (Hupd k ltac:(lia)) as [_ Hcell].
  destruct (Hcell c ltac:(lia)) as [_ Hval].
  unfold Base.iteration.
  cbn [Base.acc Base.set_delta Base.set_acc].
  rewrite Hval, Hsize.
  destruct (Z.ltb_spec 1 (Z.of_nat (length (assigned (Base.membership
              (base_pass (Base.set_delta fzero st))) N k)))) as [_|Hle];
    [|lia].
  rewrite (local_sums_at_head st Ha HDK' Hst c k Hc Hk). reflexivity.
Qed.

(** X23: under the atomic discipline, on sizes for which the base version
    stays inside its arrays ([numObjs = numCoords = numClusters]), an
    assignment pass entered at the head of the loop leaves in
    [newClusters[j][c]], for coordinate [j] and cluster [c], the entries
    [objects[j][i]] of the objects [i] assigned to [c], added from 0.0 in
    the order in which the atomic additions into that cell landed: some
    order of the objects of the cluster, each once, when every addition of
    the pass lands once.  The branch reads the object array as
    [coordinate][object]. *)
Theorem atomic_sums st :
  is_perform_atomic <> 0%Z ->
  base_in_bounds -> base_head st ->
  Permutation (landing (Base.loop st)) (program_order N D) ->
  let near := atomic_nearest (clusters (Base.acc st)) in
  let st1 := base_pass (Base.set_delta fzero st) in
  forall j c, j < D -> c < K ->
    let order := landed near (landing (Base.loop st)) j c in
    Permutation order (members near N c) /\
    rd2 (newClusters (Base.acc st1)) j c =
      sum_over (fun i => rd2 objects j i) order fzero.
Proof.
  intros Ha (_ & HDK & _) Hst Hland. cbv zeta. intros j c Hj Hc.
  split; [apply (landed_members _ N D); assumption|].
  assert (HDK' : D = K) by congruence.
  pose proof (base_loop_head_clean is_perform_atomic objects numCoords numObjs
                numClusters nthreads tid_of landing plan overflow tid_bound
                K_positive cl0 st cl0_shaped Hst) as (Hacc & _).
  destruct (loop_head_sums_clean cl0 st HDK' cl0_shaped Hst) as (Hnz & _).
  unfold Base.assignment_pass.
  destruct (Z.eqb_spec is_perform_atomic 0) as [|_]; [contradiction|].
  cbn [negb].
  set (st0 := Base.set_copies (replicate nthreads fzero)
                (Base.set_delta fzero st)).
  destruct (atomic_pass_cols objects numCoords numClusters tid_of overflow
              K_positive st0 N Hacc)
    as ((_ & Hn1 & _) & _ & Hnc & Hlp & _).
  unfold Base.combine_delta.
  cbn [Base.acc Base.set_acc Base.set_delta set_newClusters newClusters].
  destruct (atomic_landing_spec (clusters (Base.acc st))
              (landing (Base.loop (for_loop 0 N atomic_object st0)))
              (newClusters (Base.acc (for_loop 0 N atomic_object st0))) Hn1)
    as [_ Hval].
  rewrite (Hval j c Hj), Hnc, Hlp. unfold st0.
  cbn [Base.acc Base.set_delta Base.set_copies Base.loop].
  rewrite (Hnz j c Hj Hc). reflexivity.
Qed.

End BaseSums.

(** ** Thresholds that are not in [0, 1] *)

Section Thresholds.

Variable is_perform_atomic : Z.
Variable objects : matrix.
Variables numCoords numObjs numClusters : Z.
Variable threshold : float.
Variable nthreads : nat.
Variable tid_of : nat -> nat.
Variable landing : Z -> list (nat * nat).
Variable plan : Z -> reduction_plan.
Variable overflow : float -> Z.

Local Abbreviation N := (Z.to_nat numObjs).
Local Abbreviation improved_iteration :=
  (Improved.iteration objects numCoords numObjs numClusters nthreads tid_of
     landing plan).
Local Abbreviation improved_do_while :=
  (Improved.do_while objects numCoords numObjs numClusters threshold
     nthreads tid_of landing plan).
Local Abbreviation improved_run :=
  (Improved.run_kmeans objects numCoords numObjs numClusters threshold
     nthreads tid_of landing plan).
Local Abbreviation improved_initial :=
  (Improved.initial numCoords numObjs numClusters).
Local Abbreviation base_iteration :=
  (Base.iteration is_perform_atomic objects numCoords numObjs numClusters
     nthreads tid_of landing plan overflow).
Local Abbreviation base_do_while :=
  (Base.do_while is_perform_atomic objects numCoords numObjs numClusters
     threshold nthreads tid_of landing plan overflow).
Local Abbreviation base_run :=
  (Base.run_kmeans is_perform_atomic objects numCoords numObjs numClusters
     threshold nthreads tid_of landing plan overflow).
Local Abbreviation base_initial :=
  (Base.initial numCoords numObjs numClusters nthreads).






End Thresholds.

(** ** The threads and the sums *)

Lemma big_objects_shaped : shaped 4 1 big_objects.
Proof. split; [reflexivity|]. repeat constructor. Qed.

Lemma halves_bound n i : halves n i < 2.
Proof. unfold halves. destruct (i <? n)%nat; lia. Qed.

Lemma one_thread_bound i : one_thread i < 1.
Proof. unfold one_thread. lia. Qed.

Lemma one_copy_covers l : plan_covers 1 (one_copy l).
Proof. apply Permutation_refl. Qed.

Lemma two_copies_covers l : plan_covers 2 (two_copies l).
Proof. apply Permutation_refl. Qed.

(** X19: under the thread-local discipline the centroids that the base
    [omp_kmeans] returns depend on the distribution of the objects over
    the threads, because the sums of the threads are formed apart and
    added afterwards in binary32: there are an input within the bounds of
    the signature and two distributions, each with a reduction of [delta]
    that covers its threads, for which the returned centroids differ. *)
Theorem thread_local_centroids_depend_on_schedule :
  exists (objects : matrix) (numCoords numObjs numClusters : Z)
         (threshold : float) (cl : matrix)
         (nthreads nthreads' : nat) (tid_of tid_of' : nat -> nat)
         (plan plan' : Z -> reduction_plan),
    Base.in_bounds 0 objects numCoords numObjs numClusters /\
    shaped (Z.to_nat numCoords) (Z.to_nat numClusters) cl /\
    (forall i, tid_of i < nthreads) /\
    (forall i, tid_of' i < nthreads') /\
    (forall l, plan_covers nthreads (plan l)) /\
    (forall l, plan_covers nthreads' (plan' l)) /\
    forall (landing landing' : Z -> list (nat * nat))
           (overflow overflow' : float -> Z),
      option_map out_clusters
        (Base.omp_kmeans 0 objects numCoords numObjs numClusters threshold
           nthreads tid_of landing plan overflow cl) <>
      option_map out_clusters
        (Base.omp_kmeans 0 objects numCoords numObjs numClusters threshold
           nthreads' tid_of' landing' plan' overflow' cl).
Proof.
  exists big_objects, 1%Z, 4%Z, 1%Z, one_thousandth, big_clusters,
         1, 2, one_thread, (halves 2), one_copy, two_copies.
  split; [split; [exact big_objects_shaped|split; [reflexivity|]];
          intros H; exfalso; apply H; reflexivity|].
  split; [split; [reflexivity|repeat constructor]|].
  split; [exact one_thread_bound|].
  split; [exact (halves_bound 2)|].
  split; [exact one_copy_covers|].
  split; [exact two_copies_covers|].
  intros landing landing' overflow overflow'.
  vm_compute. intros H. discriminate H.
Qed.

(** ** The further statements at concrete inputs *)

Lemma base_search_returns_nearest_witness :
  is_nearest (fun c => euclid_dist_2 1 far_object (nth c far_centroids []))
    2 (find_nearest_cluster 2 1 far_object far_centroids).
Proof.
  exact (proj1 (base_search_returns_nearest 2 1 far_object far_centroids
                  ltac:(lia))).
Defined.

Lemma base_search_nan_at_zero_witness :
  find_nearest_cluster 2 1 nan_object far_centroids = 0.
Proof.
  apply (base_search_nan_at_zero 2 1 nan_object far_centroids).
  reflexivity.
Defined.

Lemma improved_search_below_INT_MAX_witness :
  is_nearest (rd (Improved.distances sq_objects 2 2 sq_clusters 0)) 2
    (Improved.nearest sq_objects 2 2 sq_clusters 0).
Proof.
  apply (improved_search_below_INT_MAX sq_objects 2 2 sq_clusters 0).
  exists 0. split; [simpl; lia|vm_compute; reflexivity].
Defined.

Lemma improved_search_falls_back_to_zero_witness :
  Improved.nearest far_objects 1 2 far_clusters 2 = 0.
Proof.
  apply (improved_search_falls_back_to_zero far_objects 1 2 far_clusters 2).
  intros c Hc. destruct c as [|[|c]];
    [vm_compute; reflexivity|vm_compute; reflexivity|simpl in Hc; lia].
Defined.

Lemma euclid_dist_2_of_itself_witness :
  euclid_dist_2 1 far_object far_object = fzero.
Proof.
  apply (euclid_dist_2_of_itself 1 far_object).
  intros i Hi. destruct i as [|i]; [reflexivity|lia].
Defined.

Lemma improved_distance_is_euclid_dist_2_witness :
  rd (Improved.distances sq_objects 2 2 sq_clusters 0) 1 =
    euclid_dist_2 2 (nth 0 sq_objects []) (column sq_clusters 1).
Proof.
  apply (improved_distance_is_euclid_dist_2 sq_objects 2 2 sq_clusters 0 1);
    simpl; lia.
Defined.

Lemma searches_agree_witness :
  Improved.nearest sq_objects 2 2 sq_clusters 0 =
    find_nearest_cluster 2 2 (nth 0 sq_objects []) (columns sq_clusters 2).
Proof.
  apply (searches_agree sq_objects 2 2 sq_clusters 0).
  - lia.
  - exists 0. split; [simpl; lia|vm_compute; reflexivity].
  - intros c Hc. destruct c as [|[|c]];
      [vm_compute; reflexivity|vm_compute; reflexivity|simpl in Hc; lia].
Defined.

Lemma improved_delta_is_a_number_witness :
  is_nan (Improved.delta
            (Improved.iteration sq_objects 2 2 2 2 (halves 1) (in_order 2 2)
               two_copies (Improved.initial 2 2 2 sq_clusters))) = false.
Proof.
  apply (improved_delta_is_a_number sq_objects 2 2 2 2 (halves 1)
           (in_order 2 2) two_copies).
  unfold INT_MAX. lia.
Defined.

Lemma first_pass_counts_every_object_witness :
  length (changed (Improved.membership (Improved.initial 2 2 2 sq_clusters))
            (Improved.nearest sq_objects 2 2
               (clusters (Improved.acc (Improved.initial 2 2 2 sq_clusters))))
            2) = 2 /\
  Improved.delta
    (Improved.assignment_pass sq_objects 2 2 2 2 (halves 1) (in_order 2 2)
       two_copies (Improved.set_delta fzero
                     (Improved.initial 2 2 2 sq_clusters))) = float_of_int 2 /\
  Improved.delta
    (Improved.iteration sq_objects 2 2 2 2 (halves 1) (in_order 2 2)
       two_copies (Improved.initial 2 2 2 sq_clusters))
  = fdiv (float_of_int 2) (float_of_int 2).
Proof.
  apply (first_pass_counts_every_object sq_objects 2 2 2 2 (halves 1)
           (in_order 2 2) two_copies sq_clusters
           (conj sq_objects_shaped eq_refl) (halves_bound 1)
           (two_copies_covers 0)).
  lia.
Defined.

Lemma improved_fraction_of_changed_objects_witness :
  Improved.delta
    (Improved.iteration sq_objects 2 2 2 2 (halves 1) (in_order 2 2)
       two_copies (Improved.initial 2 2 2 sq_clusters))
  = fdiv (float_of_int 2) (float_of_int 2) /\
  (fle (fdiv (float_of_int 2) (float_of_int 2)) one_thousandth = true <->
   exists r,
     Improved.do_while sq_objects 2 2 2 one_thousandth 2 (halves 1)
       (in_order 2 2) two_copies 1 (Improved.initial 2 2 2 sq_clusters)
       = Some r /\
     Improved.status r = CONVERGED /\ Improved.passes r = 1).
Proof.
  apply (improved_fraction_of_changed_objects sq_objects 2 2 2 one_thousandth
           2 (halves 1) (in_order 2 2) two_copies
           (Improved.initial 2 2 2 sq_clusters) 0
           (conj sq_objects_shaped eq_refl) (halves_bound 1)
           (two_copies_covers 0)); [lia|reflexivity].
Defined.

Lemma improved_accumulators_after_pass_witness :
  rdz (newClusterSize
         (Improved.acc
            (Improved.assignment_pass sq_objects 2 2 2 1 one_thread
               (in_order 2 2) one_copy
               (Improved.set_delta fzero
                  (Improved.initial 2 2 2 sq_clusters))))) 1 =
  Z.of_nat
    (length
       (assigned
          (Improved.membership
             (Improved.assignment_pass sq_objects 2 2 2 1 one_thread
                (in_order 2 2) one_copy
                (Improved.set_delta fzero
                   (Improved.initial 2 2 2 sq_clusters)))) 2 1)).
Proof.
  exact (proj1 (proj2 (improved_accumulators_after_pass sq_objects 2 2 2
                         1 one_thread (in_order 2 2) one_copy
                         sq_clusters sq_clusters_shaped ltac:(lia) _
                         (conj sq_objects_shaped eq_refl)
                         (Improved.head_initial _ _ _ _ _ _ _ _ _)
                         (Permutation_refl _))
                  1 ltac:(simpl; lia))).
Defined.

Lemma improved_output_membership_witness :
  length (out_membership (mkOutput 1 [1; 1]%Z sq_clusters)) = 2 /\
  forall i, i < 2 ->
    (0 <= rdz (out_membership (mkOutput 1 [1; 1]%Z sq_clusters)) i < 2)%Z.
Proof.
  apply (improved_output_membership sq_objects 2 2 2 one_thousandth
           1 one_thread (in_order 2 2) one_copy
           sq_clusters sq_clusters_shaped ltac:(lia) 0
           (mkOutput 1 [1; 1]%Z sq_clusters)
           (conj sq_objects_shaped eq_refl)).
  vm_compute. reflexivity.
Defined.

Lemma improved_small_cluster_keeps_centroid_witness :
  rd2 (clusters (Improved.acc
         (Improved.iteration sq_objects 2 2 2 1 one_thread (in_order 2 2)
            one_copy (Improved.initial 2 2 2 sq_clusters)))) 0 0 =
    rd2 sq_clusters 0 0 /\
  rd2 (clusters (Improved.acc
         (Improved.iteration sq_objects 2 2 2 1 one_thread (in_order 2 2)
            one_copy (Improved.initial 2 2 2 sq_clusters)))) 1 0 =
    rd2 sq_clusters 1 0.
Proof.
  assert (H : forall j,
    rd2 (clusters (Improved.acc
           (Improved.iteration sq_objects 2 2 2 1 one_thread (in_order 2 2)
              one_copy (Improved.initial 2 2 2 sq_clusters)))) j 0 =
    rd2 sq_clusters j 0).
  { apply (improved_small_cluster_keeps_centroid sq_objects 2 2 2 1
             one_thread (in_order 2 2) one_copy sq_clusters
             sq_clusters_shaped ltac:(lia)
             _ 0 (conj sq_objects_shaped eq_refl)
             (Improved.head_initial _ _ _ _ _ _ _ _ _)); [lia|].
    vm_compute. lia. }
  split; apply H.
Defined.

Lemma improved_big_cluster_gets_mean_witness :
  Permutation
    (landed (Improved.nearest sq_objects 2 2 sq_clusters)
       (in_order 2 2 0) 0 1) [0; 1] /\
  rd2 (clusters (Improved.acc
         (Improved.iteration sq_objects 2 2 2 1 one_thread (in_order 2 2)
            one_copy (Improved.initial 2 2 2 sq_clusters)))) 0 1 =
  fdiv (coord_sum sq_objects 0
          (landed (Improved.nearest sq_objects 2 2 sq_clusters)
             (in_order 2 2 0) 0 1) fzero)
       (float_of_int 2).
Proof.
  refine (proj1 (improved_big_cluster_gets_mean sq_objects 2 2 2 1 one_thread
                   (in_order 2 2) one_copy sq_clusters sq_clusters_shaped
                   ltac:(lia) _ 1 (conj sq_objects_shaped eq_refl)
                   (Improved.head_initial _ _ _ _ _ _ _ _ _) ltac:(lia)
                   (Permutation_refl _) _) 0 ltac:(simpl; lia)).
  vm_compute. lia.
Defined.

Lemma base_counts_per_cluster_witness :
  rdz (newClusterSize
         (Base.acc
            (Base.assignment_pass 0 sq_objects 2 2 2 2 (halves 1)
               (in_order 2 2) two_copies to_INT_MIN
               (Base.set_delta fzero (Base.initial 2 2 2 2 sq_clusters))))) 1
  = Z.of_nat
      (length
         (assigned
            (Base.membership
               (Base.assignment_pass 0 sq_objects 2 2 2 2 (halves 1)
                  (in_order 2 2) two_copies to_INT_MIN
                  (Base.set_delta fzero (Base.initial 2 2 2 2 sq_clusters))))
            2 1)).
Proof.
  apply (base_counts_per_cluster 0 sq_objects 2 2 2 2 (halves 1)
           (in_order 2 2) two_copies to_INT_MIN
           sq_clusters sq_clusters_shaped ltac:(lia) (halves_bound 1) _
           (conj sq_objects_shaped (conj eq_refl (fun _ => eq_refl)))
           (Base.head_initial _ _ _ _ _ _ _ _ _ _ _)).
  simpl. lia.
Defined.

Lemma base_fraction_of_changed_objects_witness :
  Base.delta
    (Base.iteration 1 sq_objects 2 2 2 2 (halves 1) (in_order 2 2)
       two_copies to_INT_MIN (Base.initial 2 2 2 2 sq_clusters)) =
  fdiv (float_of_int
          (Z.of_nat
             (length
                (changed (Base.membership (Base.initial 2 2 2 2 sq_clusters))
                   (base_search 1 sq_objects 2 2 to_INT_MIN
                      (clusters (Base.acc (Base.initial 2 2 2 2 sq_clusters))))
                   2))))
       (float_of_int 2).
Proof.
  exact (proj2 (base_fraction_of_changed_objects 1 sq_objects 2 2 2 2
                  (halves 1) (in_order 2 2) two_copies to_INT_MIN
                  sq_clusters sq_clusters_shaped ltac:(lia)
                  (halves_bound 1) _
                  (conj sq_objects_shaped (conj eq_refl (fun _ => eq_refl)))
                  (Base.head_initial _ _ _ _ _ _ _ _ _ _ _)
                  (two_copies_covers 0) ltac:(lia))).
Defined.


Lemma atomic_search_is_improved_search_witness :
  Base.atomic_nearest sym_objects 2 2 to_INT_MIN sym_clusters 0 =
    Improved.nearest (zeros2 2 2) 2 2 sym_clusters 0.
Proof.
  apply (atomic_search_is_improved_search sym_objects 2 2 to_INT_MIN
           sym_clusters 0 (zeros2 2 2)); [lia|].
  intros k Hk. destruct k as [|[|k]];
    [vm_compute; reflexivity|vm_compute; reflexivity|simpl in Hk; lia].
Defined.

Lemma int_survives_float_witness :
  int_of_float to_INT_MIN (float_of_int 140000) = 140000%Z.
Proof. apply (int_survives_float to_INT_MIN 140000). split; reflexivity. Defined.

Lemma thread_local_sums_witness :
  rd2 (newClusters
         (Base.acc
            (Base.assignment_pass 0 sq_objects 2 2 2 2 (halves 1)
               (in_order 2 2) two_copies to_INT_MIN
               (Base.set_delta fzero (Base.initial 2 2 2 2 sq_clusters)))))
      1 0 =
  fold_left (fun x t =>
    fadd x (coord_sum sq_objects 0
              (thread_members (halves 1)
                 (fun i => find_nearest_cluster 2 2 (nth i sq_objects [])
                             (clusters
                                (Base.acc (Base.initial 2 2 2 2 sq_clusters))))
                 2 t 1) fzero))
    (seq 0 2) fzero.
Proof.
  apply (thread_local_sums 0 sq_objects 2 2 2 2 (halves 1) (in_order 2 2)
           two_copies to_INT_MIN
           (halves_bound 1) ltac:(lia) sq_clusters sq_clusters_shaped _
           eq_refl
           (conj sq_objects_shaped (conj eq_refl (fun _ => eq_refl)))
           (Base.head_initial _ _ _ _ _ _ _ _ _ _ _)); simpl; lia.
Defined.

Lemma atomic_sums_witness :
  Permutation
    (landed (Base.atomic_nearest sq_objects 2 2 to_INT_MIN sq_clusters)
       (in_order 2 2 0) 0 1)
    (members (Base.atomic_nearest sq_objects 2 2 to_INT_MIN sq_clusters) 2 1) /\
  rd2 (newClusters
         (Base.acc
            (Base.assignment_pass 1 sq_objects 2 2 2 1 one_thread
               (in_order 2 2) one_copy to_INT_MIN
               (Base.set_delta fzero (Base.initial 2 2 2 1 sq_clusters)))))
      0 1 =
  sum_over (fun i => rd2 sq_objects 0 i)
    (landed (Base.atomic_nearest sq_objects 2 2 to_INT_MIN sq_clusters)
       (in_order 2 2 0) 0 1) fzero.
Proof.
  apply (atomic_sums 1 sq_objects 2 2 2 1 one_thread (in_order 2 2) one_copy
           to_INT_MIN one_thread_bound ltac:(lia)
           sq_clusters sq_clusters_shaped _
           ltac:(discriminate)
           (conj sq_objects_shaped (conj eq_refl (fun _ => eq_refl)))
           (Base.head_initial _ _ _ _ _ _ _ _ _ _ _)
           (Permutation_refl _)); simpl; lia.
Defined.



Lemma thread_local_update_divides_by_other_count_witness :
  rd2 (clusters
         (Base.acc
            (Base.iteration 0 sq_objects 2 2 2 2 (halves 1) (in_order 2 2)
               two_copies to_INT_MIN (Base.initial 2 2 2 2 sq_clusters))))
      0 1 =
  fdiv (fold_left (fun x t =>
          fadd x (coord_sum sq_objects 1
                    (thread_members (halves 1)
                       (fun i => find_nearest_cluster 2 2 (nth i sq_objects [])
                                   (clusters
                                      (Base.acc
                                         (Base.initial 2 2 2 2 sq_clusters))))
                       2 t 0) fzero))
          (seq 0 2) fzero)
       (float_of_int
          (Z.of_nat
             (length
                (assigned
                   (Base.membership
                      (Base.assignment_pass 0 sq_objects 2 2 2 2 (halves 1)
                         (in_order 2 2) two_copies to_INT_MIN
                         (Base.set_delta fzero
                            (Base.initial 2 2 2 2 sq_clusters)))) 2 1)))).
Proof.
  apply (thread_local_update_divides_by_other_count 0 sq_objects 2 2 2 2
           (halves 1) (in_order 2 2) two_copies to_INT_MIN
           (halves_bound 1) ltac:(lia) sq_clusters
           sq_clusters_shaped _ 0 1 eq_refl
           (conj sq_objects_shaped (conj eq_refl (fun _ => eq_refl)))
           (Base.head_initial _ _ _ _ _ _ _ _ _ _ _));
    [simpl; lia|simpl; lia|vm_compute; lia].
Defined.
